(** * Antiques Atlas pipeline: collection (step 1), normalization (step 2)
    and enrichment (step 3)

    A shallow embedding of [pipeline/step1_scrape.py],
    [pipeline/step2_clean.py] and the loop of [pipeline/step3_enrich.py],
    and the properties of the extraction and normalization core.

    Python values are modelled as follows.
    - [str] is a list of Unicode code points ([N]); [len], slicing and
      equality are those of lists.  [None] is [option]'s [None].
    - A Python [set] of strings is a [gset (list N)]; the insertion-ordered
      [dict] behind [dict.fromkeys] is a list without duplicates.
    - [float] is a binary64 value, see [Module Float].
    - The network is a pair of functions (see [Module Scraper]). *)

From Stdlib Require Import Strings.String Strings.Ascii.
From stdpp Require Import base decidable option numbers list sorting gmap sets.

Local Open Scope N_scope.

(** Boolean tests on code points, as propositions. *)
Ltac nbool :=
  repeat match goal with
  | H : (_ && _) = true |- _ => apply andb_prop in H; destruct H
  | H : (_ || _) = false |- _ => apply orb_false_elim in H; destruct H
  | H : (_ && _) = false |- _ => apply andb_false_iff in H; destruct H
  | H : (_ || _) = true |- _ => apply orb_prop in H; destruct H
  | H : negb _ = true |- _ => apply negb_true_iff in H
  | H : negb _ = false |- _ => apply negb_false_iff in H
  | H : (_ <=? _) = true |- _ => apply N.leb_le in H
  | H : (_ <=? _) = false |- _ => apply N.leb_gt in H
  | H : (_ <? _) = true |- _ => apply N.ltb_lt in H
  | H : (_ <? _) = false |- _ => apply N.ltb_ge in H
  | H : (_ =? _) = true |- _ => apply N.eqb_eq in H
  | H : (_ =? _) = false |- _ => apply N.eqb_neq in H
  end.

(** Set equalities, element by element. *)
Ltac set_ext :=
  apply set_eq; intros ?;
  rewrite ?elem_of_union, ?elem_of_singleton, ?elem_of_list_to_set,
          ?elem_of_union, ?elem_of_singleton, ?elem_of_cons.

(** ** Python strings *)

Abbreviation str := (list N) (only parsing).

(** An ASCII literal as a Python string. *)
Definition py (s : string) : str := N_of_ascii <$> list_ascii_of_string s.

Section ListScan.
Context {A : Type} (p : A → bool).

Fixpoint drop_while (l : list A) : list A :=
  match l with
  | [] => []
  | x :: l' => if p x then drop_while l' else l
  end.

Fixpoint take_while (l : list A) : list A :=
  match l with
  | [] => []
  | x :: l' => if p x then x :: take_while l' else []
  end.
End ListScan.

(** [needle in haystack] for strings. *)
Fixpoint starts_with (needle s : str) : bool :=
  match needle, s with
  | [], _ => true
  | _ :: _, [] => false
  | a :: needle', b :: s' => (a =? b) && starts_with needle' s'
  end.

Fixpoint contains (needle s : str) : bool :=
  starts_with needle s ||
  match s with
  | [] => false
  | _ :: s' => contains needle s'
  end.

(** [Py_UNICODE_ISSPACE]: the class used by [str.strip()] and by [\s] in a
    [str] pattern. *)
Definition is_whitespace (c : N) : bool :=
  ((9 <=? c) && (c <=? 13)) || ((28 <=? c) && (c <=? 32))
  || (c =? 0x85) || (c =? 0xA0) || (c =? 0x1680)
  || ((0x2000 <=? c) && (c <=? 0x200A))
  || (c =? 0x2028) || (c =? 0x2029) || (c =? 0x202F) || (c =? 0x205F)
  || (c =? 0x3000).

Definition lstrip (s : str) : str := drop_while is_whitespace s.
Definition rstrip (s : str) : str := reverse (drop_while is_whitespace (reverse s)).
(** [s.strip()] *)
Definition strip (s : str) : str := rstrip (lstrip s).

(** Truthiness of an optional string: [None] and [""] are falsy. *)
Definition truthy (o : option str) : bool :=
  match o with
  | Some (_ :: _) => true
  | _ => false
  end.

(** [o or ""] *)
Definition or_empty (o : option str) : str :=
  match o with
  | Some s => s
  | None => []
  end.

(** ** The Unicode character database

    [str.lower()], [\d] and [float()] consult the interpreter's Unicode
    tables, which are not part of the repository.  They are taken as a
    parameter; the laws are the facts about Basic Latin and the Latin-1
    symbols (code points below U+00C0) and about lower-casing that the
    properties below rely on. *)

Definition latin_lower (c : N) : N :=
  if (65 <=? c) && (c <=? 90) then c + 32 else c.

Definition latin_decimal (c : N) : option N :=
  if (48 <=? c) && (c <=? 57) then Some (c - 48) else None.

Definition comma : N := 44.
Definition full_stop : N := 46.

Class UnicodeDB := {
  (** [_PyUnicode_ToLowerFull] *)
  to_lower_full : N → list N;
  (** [_PyUnicode_IsCased] *)
  is_cased : N → bool;
  (** [_PyUnicode_IsCaseIgnorable] *)
  is_case_ignorable : N → bool;
  (** [Py_UNICODE_TODECIMAL]; [None] stands for -1 *)
  to_decimal : N → option N;
  to_lower_full_latin c : c < 192 → to_lower_full c = [latin_lower c];
  to_decimal_latin c : c < 192 → to_decimal c = latin_decimal c;
  (** lower-casing never produces a decimal digit, a comma or a full stop
      that was not there *)
  to_lower_full_fresh c c' :
    c' ∈ to_lower_full c → c' ≠ c →
    to_decimal c' = None ∧ c' ≠ comma ∧ c' ≠ full_stop;
  small_sigma_not_decimal : to_decimal 0x3C2 = None ∧ to_decimal 0x3C3 = None
}.

(** The database restricted to the code points below U+00C0: everything
    above is uncased and not a digit. *)
#[export, refine] Instance latin_db : UnicodeDB := {
  to_lower_full c := [latin_lower c];
  is_cased c := ((65 <=? c) && (c <=? 90)) || ((97 <=? c) && (c <=? 122))
                || (c =? 0xAA) || (c =? 0xB5) || (c =? 0xBA);
  is_case_ignorable c :=
    (c =? 39) || (c =? 46) || (c =? 58) || (c =? 94) || (c =? 96)
    || (c =? 0xA8) || (c =? 0xAD) || (c =? 0xAF) || (c =? 0xB4)
    || (c =? 0xB7) || (c =? 0xB8);
  to_decimal := latin_decimal
}.
Proof.
  - done.
  - done.
  - intros c c' ->%list_elem_of_singleton Hne. unfold latin_lower in *.
    case_match; [|done]. nbool.
    unfold latin_decimal, comma, full_stop. split; [|lia].
    case_match; [nbool; lia|done].
  - done.
Defined.

Section Lower.
Context `{UnicodeDB}.

(** [handle_capital_sigma]: U+03A3 is in final position when a cased
    letter precedes it (skipping case-ignorable ones) and none follows. *)
Definition handle_capital_sigma (before after : str) : N :=
  let final_sigma :=
    match drop_while is_case_ignorable before with
    | [] => false
    | c :: _ =>
        is_cased c &&
        match drop_while is_case_ignorable after with
        | [] => true
        | c' :: _ => negb (is_cased c')
        end
    end in
  if final_sigma then 0x3C2 else 0x3C3.

(** [lower_ucs4] *)
Definition lower_ucs4 (before : str) (c : N) (after : str) : list N :=
  if c =? 0x3A3 then [handle_capital_sigma before after] else to_lower_full c.

(** [do_lower]; [before] holds the characters already read, nearest first. *)
Fixpoint do_lower (before s : str) : str :=
  match s with
  | [] => []
  | c :: after => lower_ucs4 before c after ++ do_lower (c :: before) after
  end.

(** [s.lower()] *)
Definition lower (s : str) : str := do_lower [] s.
End Lower.

(** ** Floating point

    The prices are non-negative, so only the non-negative binary64 values
    are needed: [Finite m e] is [m * 2^e], with [2^52 <= m < 2^53] and
    [-1074 <= e <= 971] for a normal number and [m < 2^52], [e = -1074]
    for zero and the subnormal ones. *)
Module Float.

Inductive float :=
| Finite (m : N) (e : Z)
| Infinity.

(** The integer nearest to [a / b], ties to even. *)
Definition round_half_even (a b : N) : N :=
  let q := a / b in
  let r := a mod b in
  if 2 * r <? b then q
  else if b <? 2 * r then q + 1
  else if N.even q then q else q + 1.

(** [a / (b * 2^e)] as a fraction of naturals. *)
Definition scale (a b : N) (e : Z) : N * N :=
  if (0 <=? e)%Z then (a, b * 2 ^ Z.to_N e) else (a * 2 ^ Z.to_N (- e), b).

(** The binary64 value nearest to [a / b] ([b] positive), ties to even;
    what [float()] returns for a decimal literal of that value. *)
Definition of_ratio (a b : N) : float :=
  if a =? 0 then Finite 0 (-1074) else
  let est := (Z.of_N (N.log2 a) - Z.of_N (N.log2 b))%Z in
  let e1 := Z.max (est - 53) (-1074) in
  let '(n1, d1) := scale a b e1 in
  let e := if n1 / d1 <? 2 ^ 53 then e1 else (e1 + 1)%Z in
  let '(n, d) := scale a b e in
  let q := round_half_even n d in
  let '(m, e) := if q =? 2 ^ 53 then (2 ^ 52, (e + 1)%Z) else (q, e) in
  if (971 <? e)%Z then Infinity else Finite m e.

(** The value of a natural number. *)
Definition of_N (n : N) : float := of_ratio n 1.

(** [is_integer f n]: [f] is exactly the natural number [n]. *)
Definition is_integer (f : float) (n : N) : Prop :=
  match f with
  | Finite m e => (e <= 0)%Z ∧ m = n * 2 ^ Z.to_N (- e)
                  ∨ (0 <= e)%Z ∧ n = m * 2 ^ Z.to_N e
  | Infinity => False
  end.

Definition eqb (f g : float) : bool :=
  match f, g with
  | Finite m e, Finite m' e' => (m =? m') && (e =? e')%Z
  | Infinity, Infinity => true
  | _, _ => false
  end.

(** *** [repr]

    The text Python writes for a float, also in a JSON file: the shortest
    decimal digits that read back as the same value, in positional
    notation when the decimal point falls within the digits or close to
    them, and in exponent notation otherwise. *)

(** The digits of [n] in front of [acc]; a number has at most as many
    decimal digits as binary ones. *)
Fixpoint digits_of (fuel : nat) (n : N) (acc : list N) : list N :=
  match fuel with
  | O => acc
  | S fuel' =>
      let acc := (48 + n mod 10) :: acc in
      if n <? 10 then acc else digits_of fuel' (n / 10) acc
  end.

(** The decimal digits of [n], as characters. *)
Definition decimal_digits (n : N) : list N :=
  digits_of (S (N.to_nat (N.log2 n))) n [].

(** [m * 10^k] as a fraction. *)
Definition times_pow10 (a b : N) (k : Z) : N * N :=
  if (0 <=? k)%Z then (a * 10 ^ Z.to_N k, b) else (a, b * 10 ^ Z.to_N (- k)).

(** The least [j], from the given one on, with [b <= a * 10^j]. *)
Fixpoint first_scale (fuel : nat) (a b : N) (j : nat) : nat :=
  match fuel with
  | O => j
  | S fuel' => if b <=? a * 10 ^ N.of_nat j then j else first_scale fuel' a b (S j)
  end.

(** The position of the decimal point of [a / b > 0]:
    [10^(decpt-1) <= a / b < 10^decpt]. *)
Definition decimal_point (a b : N) : Z :=
  if b <=? a then Z.of_nat (length (decimal_digits (a / b)))
  else (1 - Z.of_nat (first_scale 400 a b 1))%Z.

(** Among the decimals with [n] digits next to [a / b], one that reads back
    as [f], the nearer one if both do. *)
Definition candidate (f : float) (a b : N) (decpt : Z) (n : nat) : option N :=
  let '(num, den) := times_pow10 a b (Z.of_nat n - decpt) in
  let t := num / den in
  let r := num mod den in
  let reads_back c :=
    let '(ca, cb) := times_pow10 c 1 (decpt - Z.of_nat n) in
    eqb (of_ratio ca cb) f in
  let lo := (r =? 0) || reads_back t in
  let hi := reads_back (t + 1) in
  if lo && hi then
    Some (if 2 * r <? den then t
          else if den <? 2 * r then t + 1
          else if N.even t then t else t + 1)
  else if lo then Some t
  else if hi then Some (t + 1)
  else None.

(** The shortest digits that read back as [f], and how many they are. *)
Fixpoint shortest (fuel : nat) (f : float) (a b : N) (decpt : Z) (n : nat)
  : N * nat :=
  match fuel with
  | O => (0, n)
  | S fuel' =>
      match candidate f a b decpt n with
      | Some c => (c, n)
      | None => shortest fuel' f a b decpt (S n)
      end
  end.

Definition zeros (k : Z) : list N := repeat 48 (Z.to_nat k).

(** [format_float_short] with the options of [repr]. *)
Definition format_digits (digits : list N) (decpt : Z) : list N :=
  let ndigits := Z.of_nat (length digits) in
  if ((decpt <=? -4) || (16 <? decpt))%Z then
    let exponent := (decpt - 1)%Z in
    let mantissa :=
      match digits with
      | d :: (_ :: _) as rest => d :: 46 :: rest
      | _ => digits
      end in
    let exp_digits := decimal_digits (Z.to_N (Z.abs exponent)) in
    mantissa ++ [101; if (exponent <? 0)%Z then 45 else 43]
      ++ (if (length exp_digits <? 2)%nat then [48] else []) ++ exp_digits
  else if (decpt <=? 0)%Z then [48; 46] ++ zeros (- decpt) ++ digits
  else if (ndigits <=? decpt)%Z then digits ++ zeros (decpt - ndigits) ++ [46; 48]
  else take (Z.to_nat decpt) digits ++ [46] ++ drop (Z.to_nat decpt) digits.

(** The number of digits of the exact decimal expansion of [m * 2^e],
    whose decimal point is at [decpt]: the search for the shortest digits
    ends there at the latest (17 digits are enough for a binary64 value). *)
Definition exact_digits (decpt e : Z) : nat :=
  Z.to_nat (Z.max 1 (decpt + Z.max 0 (- e))).

(** [repr(f)] *)
Definition repr (f : float) : list N :=
  match f with
  | Infinity => [105; 110; 102]
  | Finite 0 _ => [48; 46; 48]
  | Finite m e =>
      let '(a, b) := scale m 1 (- e) in
      let decpt := decimal_point a b in
      let '(c, n) := shortest (exact_digits decpt e) f a b decpt 1 in
      let all_digits := decimal_digits c in
      let decpt := (decpt + Z.of_nat (length all_digits) - Z.of_nat n)%Z in
      let digits := reverse (drop_while (λ d, d =? 48) (reverse all_digits)) in
      format_digits digits decpt
  end.

End Float.

(** ** Exceptions *)

Inductive exn := ValueError.

Inductive outcome (A : Type) :=
| Return (a : A)
| Raise (e : exn).
Arguments Return {A} a.
Arguments Raise {A} e.

(** ** Records *)

(** A raw item, as step 1 writes it and step 2 reads it back; a JSON
    [null] or a missing key is [None]. *)
Record RawItem := {
  source_url : option str;
  item_title : option str;
  category : option str;
  description_raw : option str;
  images : list str;
  listed_price : option str;
  currency : option str;
  seller_location : option str
}.

Record CleanItem := {
  c_source_url : option str;
  c_item_title : option str;
  category_raw : option str;
  c_description_raw : option str;
  listed_price_raw : option str;
  c_currency : option str;
  c_seller_location : option str;
  c_images : list str;
  category_normalized : str;
  description_clean : option str;
  price_value : option Float.float
}.

(** ** Step 2: cleaning and normalization *)
Module Normalizer.

Definition CATEGORY_LOOKUP : gmap (list N) (list N) :=
  <[py "Furniture" := py "furniture"]>
  (<[py "Ceramics" := py "ceramics"]>
  (<[py "Decorative Art" := py "decorative_art"]>
  (<[py "Silver" := py "silver"]>
  (<[py "Jewellery" := py "jewellery"]>
  (<[py "Lighting" := py "lighting"]> ∅))))).

Definition normalize_category (category : option str) : str :=
  if negb (truthy category) then py "other"
  else default (py "other") (CATEGORY_LOOKUP !! strip (or_empty category)).

(** [re.sub(r"\s+", " ", text)]: every maximal run of whitespace becomes
    one space; [in_run] tells that the previous character was whitespace. *)
Fixpoint sub_whitespace (in_run : bool) (text : str) : str :=
  match text with
  | [] => []
  | c :: text' =>
      if is_whitespace c
      then (if in_run then [] else [32]) ++ sub_whitespace true text'
      else c :: sub_whitespace false text'
  end.

Definition clean_description (text : option str) : option str :=
  if negb (truthy text) then None
  else
    let text := strip (sub_whitespace false (or_empty text)) in
    if (length text <? 20)%nat then None else Some text.

Section Price.
Context `{UnicodeDB}.

(** [\d] *)
Definition is_decimal (c : N) : bool := bool_decide (is_Some (to_decimal c)).

(** the class [[\d,.]] *)
Definition is_price_char (c : N) : bool :=
  is_decimal c || (c =? comma) || (c =? full_stop).

(** [re.search(r"([\d,.]+)", text)]: the leftmost, longest run. *)
Definition search_price_run (text : str) : option str :=
  match drop_while (λ c, negb (is_price_char c)) text with
  | [] => None
  | run => Some (take_while is_price_char run)
  end.

(** [s.replace(",", "")] *)
Definition remove_commas (s : str) : str := filter (λ c, c ≠ comma) s.

(** The number written by a string of decimal digits. *)
Definition digits_value (s : str) : N :=
  foldl (λ acc c, 10 * acc + default 0 (to_decimal c)) 0 s.

(** [float(s)] for [s] made of decimal digits and full stops, which is
    all that [parse_price_value] passes to it: digits with at most one
    full stop and at least one digit, anything else is a [ValueError]. *)
Definition py_float (s : str) : outcome Float.float :=
  let int_part := take_while is_decimal s in
  match drop_while is_decimal s with
  | [] =>
      match int_part with
      | [] => Raise ValueError
      | _ => Return (Float.of_ratio (digits_value int_part) 1)
      end
  | c :: frac_part =>
      if (c =? full_stop) && forallb is_decimal frac_part
         && negb (bool_decide (int_part ++ frac_part = []))
      then Return (Float.of_ratio (digits_value (int_part ++ frac_part))
                                  (10 ^ N.of_nat (length frac_part)))
      else Raise ValueError
  end.

Definition parse_price_value (price_text : option str)
  : outcome (option Float.float) :=
  if negb (truthy price_text) then Return None
  else
    let price_text := lower (or_empty price_text) in
    if contains (py "poa") price_text then Return None
    else
      match search_price_run price_text with
      | None => Return None
      | Some group1 =>
          match py_float (remove_commas group1) with
          | Return v => Return (Some v)
          | Raise ValueError => Return None
          end
      end.

Definition build_dedupe_key (item : RawItem) : str :=
  let title := strip (lower (or_empty (item_title item))) in
  let price := strip (or_empty (listed_price item)) in
  take 40 title ++ py "::" ++ price.

(** The record [main] builds for an item; of the three normalized fields
    only the price can raise. *)
Definition cleaned_record (item : RawItem) : outcome CleanItem :=
  let category_normalized := normalize_category (category item) in
  let description_clean := clean_description (description_raw item) in
  match parse_price_value (listed_price item) with
  | Return price_value =>
      Return {| c_source_url := source_url item;
                c_item_title := item_title item;
                category_raw := category item;
                c_description_raw := description_raw item;
                listed_price_raw := listed_price item;
                c_currency := currency item;
                c_seller_location := seller_location item;
                c_images := images item;
                category_normalized := category_normalized;
                description_clean := description_clean;
                price_value := price_value |}
  | Raise e => Raise e
  end.

(** The loop of [main], with its two accumulators. *)
Fixpoint clean_loop (raw_items : list RawItem) (seen_keys : gset (list N))
    (cleaned_items : list CleanItem) : outcome (list CleanItem) :=
  match raw_items with
  | [] => Return cleaned_items
  | item :: raw_items' =>
      let dedupe_id := build_dedupe_key item in
      if decide (dedupe_id ∈ seen_keys)
      then clean_loop raw_items' seen_keys cleaned_items
      else
        match cleaned_record item with
        | Return record =>
            clean_loop raw_items' ({[dedupe_id]} ∪ seen_keys)
                       (cleaned_items ++ [record])
        | Raise e => Raise e
        end
  end.

(** The records [main] writes to the clean snapshot. *)
Definition main (raw_items : list RawItem) : outcome (list CleanItem) :=
  clean_loop raw_items ∅ [].
End Price.

End Normalizer.

(** ** Step 1: collection *)
Module Scraper.

Definition BASE_SITE_URL : str := py "https://www.antiques-atlas.com".

(** An insertion-ordered [dict], iterated with [.items()]. *)
Definition CATEGORY_PATHS : list (list N * list N) :=
  [ (py "Furniture", py "/antiques/furniture/");
    (py "Ceramics", py "/antiques/ceramics/");
    (py "Decorative Art", py "/antiques/decorative/");
    (py "Silver", py "/antiques/silver/");
    (py "Jewellery", py "/antiques/jewellery/");
    (py "Lighting", py "/antiques/lighting/") ].

Definition MAX_ITEMS_PER_CATEGORY : nat := 30.
Definition MAX_PAGES_TO_SCAN : nat := 30.

Definition IMAGE_CDN : str := py "images.antiquesatlas.com".

(** *** The fetched pages *)

(** An [img] element: its [src] and [data-src] attributes. *)
Record Img := { src : option str; data_src : option str }.

(** What [json.loads] makes of the first [application/ld+json] script. *)
Inductive JsonLd :=
| LdInvalid                          (* json.loads raises *)
| LdNotDict                          (* a list, a number, ... *)
| LdDict (description : option str). (* a dict and its "description" *)

(** A parsed item page: the elements the extractor looks at.  Texts are
    already stripped, as [get_text(strip=True)] returns them. *)
Record ItemPage := {
  h1 : option str;
  og_description : option str;   (* content of meta og:description *)
  json_ld : option JsonLd;
  price_span : option str;
  dealer_location_span : option str;
  imgs : list Img
}.

(** The site as the run sees it.  [listing path n] is the list of [href]
    attributes of the links [a[href^='/antique/']] of page [n] of a
    category, [None] when [requests.get] raises; [item url] is the parsed
    item page, [None] when anything in the [try] block raises. *)
Record Site := {
  listing : list N → nat → option (list (option (list N)));
  item : list N → option ItemPage
}.

(** *** Field extraction *)

(** [a or b] on optional strings *)
Definition py_or (a b : option str) : option str := if truthy a then a else b.

Definition extract_description (page : ItemPage) : option str :=
  let description_text :=
    if truthy (og_description page)
    then Some (strip (or_empty (og_description page)))
    else None in
  if negb (truthy description_text) then
    match json_ld page with
    | Some (LdDict d) => d
    | _ => description_text
    end
  else description_text.

(** The image loop, with its accumulator [image_urls]. *)
Fixpoint image_loop (tags : list Img) (image_urls : list str) : list str :=
  match tags with
  | [] => image_urls
  | img :: tags' =>
      let s := py_or (src img) (data_src img) in
      if negb (truthy s) then image_loop tags' image_urls
      else
        let s := or_empty s in
        let s := if starts_with (py "//") s then py "https:" ++ s else s in
        if contains IMAGE_CDN s
        then image_loop tags' (image_urls ++ [s])
        else image_loop tags' image_urls
  end.

(** [list(dict.fromkeys(l))]: the keys of the dict in insertion order. *)
Definition dict_fromkeys (l : list str) : list str :=
  foldl (λ keys k, if decide (k ∈ keys) then keys else keys ++ [k]) [] l.

Definition extract_images (page : ItemPage) : list str :=
  take 5 (dict_fromkeys (image_loop (imgs page) [])).

Definition extract_record (item_url category_name : str) (page : ItemPage)
  : RawItem :=
  {| source_url := Some item_url;
     item_title := h1 page;
     category := Some category_name;
     description_raw := extract_description page;
     images := extract_images page;
     listed_price := price_span page;
     currency := Some (py "GBP");
     seller_location := dealer_location_span page |}.

(** *** The walk *)

(** What the run does on the network and on the visited set, in order;
    the category is the one being walked. *)
Inductive event :=
| FetchPage (category_name : list N) (page_number : nat)
| MarkVisited (category_name : list N) (item_url : list N)
| FetchItem (category_name : list N) (item_url : list N).

Record State := {
  collected_items : list RawItem;
  visited_item_urls : gset (list N);
  trace : list event
}.

Definition initial_state : State :=
  {| collected_items := []; visited_item_urls := ∅; trace := [] |}.

Definition log (ev : event) (st : State) : State :=
  {| collected_items := collected_items st;
     visited_item_urls := visited_item_urls st;
     trace := trace st ++ [ev] |}.

Definition add_visited (item_url : str) (st : State) : State :=
  {| collected_items := collected_items st;
     visited_item_urls := {[item_url]} ∪ visited_item_urls st;
     trace := trace st |}.

Definition append_item (r : RawItem) (st : State) : State :=
  {| collected_items := collected_items st ++ [r];
     visited_item_urls := visited_item_urls st;
     trace := trace st |}.

Inductive status :=
| Finished    (* the loop ended *)
| Crashed     (* a listing fetch raised: nothing catches it *)
| OutOfFuel.

Section Walk.
Context (site : Site).

(** [for link in item_links] *)
Fixpoint link_loop (category_name : str) (item_links : list (option str))
    (st : State) (items_collected : nat) : State * nat :=
  match item_links with
  | [] => (st, items_collected)
  | link :: item_links' =>
      if (MAX_ITEMS_PER_CATEGORY <=? items_collected)%nat
      then (st, items_collected)
      else if negb (truthy link)
      then link_loop category_name item_links' st items_collected
      else
        let item_url := BASE_SITE_URL ++ or_empty link in
        if decide (item_url ∈ visited_item_urls st)
        then link_loop category_name item_links' st items_collected
        else
          let st := log (MarkVisited category_name item_url)
                        (add_visited item_url st) in
          let st := log (FetchItem category_name item_url) st in
          match item site item_url with
          | Some page =>
              link_loop category_name item_links'
                (append_item (extract_record item_url category_name page) st)
                (S items_collected)
          | None =>
              link_loop category_name item_links' st items_collected
          end
  end.

(** [while items_collected < MAX_ITEMS_PER_CATEGORY and
    page_number <= MAX_PAGES_TO_SCAN] *)
Fixpoint page_loop (fuel : nat) (category_name category_path : str)
    (page_number : nat) (st : State) (items_collected : nat)
    : State * status :=
  if (items_collected <? MAX_ITEMS_PER_CATEGORY)%nat
     && (page_number <=? MAX_PAGES_TO_SCAN)%nat
  then
    match fuel with
    | O => (st, OutOfFuel)
    | S fuel' =>
        let st := log (FetchPage category_name page_number) st in
        match listing site category_path page_number with
        | None => (st, Crashed)
        | Some [] => (st, Finished)
        | Some item_links =>
            let '(st, items_collected) :=
              link_loop category_name item_links st items_collected in
            page_loop fuel' category_name category_path (S page_number)
                      st items_collected
        end
    end
  else (st, Finished).

(** The body of [for category_name, category_path in ...] *)
Definition category_walk (category_name category_path : str) (st : State)
  : State * status :=
  page_loop MAX_PAGES_TO_SCAN category_name category_path 1 st 0.

Fixpoint category_loop (categories : list (list N * list N)) (st : State)
  : State * status :=
  match categories with
  | [] => (st, Finished)
  | (category_name, category_path) :: categories' =>
      match category_walk category_name category_path st with
      | (st, Finished) => category_loop categories' st
      | r => r
      end
  end.

Definition run : State * status := category_loop CATEGORY_PATHS initial_state.
End Walk.

End Scraper.

(** ** Step 3: attribute enrichment

    [generate_attributes] sends a prompt to a language model and parses
    the reply with [json.loads].  The model and the network are not part of
    the repository: the call is a parameter, a function of the number of
    calls made before and of the prompt, that either returns the value
    parsed or fails with an exception.  Console output and pauses are left
    out. *)
Module Enricher.

(** A value read by [json.loads]. *)
#[local] Unset Elimination Schemes.
Inductive json :=
| JNull
| JBool (b : bool)
| JInt (n : Z)
| JFloat (negative : bool) (f : Float.float)
| JNaN
| JString (s : list N)
| JArray (items : list json)
| JObject (members : list (list N * json)).
#[local] Set Elimination Schemes.

(** [d.get(key)] on the [dict] read from an object: of several members
    with the same name the last one counts; a missing key gives [None],
    which is what a [null] member gives as well. *)
Definition dict_get (key : str) (members : list (list N * json)) : json :=
  match last (filter (λ m, m.1 = key) members) with
  | Some m => m.2
  | None => JNull
  end.

(** What a call of [generate_attributes] does: it returns the value
    parsed from the reply, or raises an exception. *)
Inductive reply :=
| Parsed (derived : json)
| Failed.

(** An enriched record, as [main] writes it. *)
Record FinalItem := {
  f_source_url : option str;
  f_item_title : list N;
  f_category_raw : option str;
  f_description_raw : option str;
  f_images : list str;
  f_listed_price_raw : option str;
  f_currency : option str;
  f_seller_location : option str;
  f_category_normalized : list N;
  f_description_clean : option str;
  f_price_value : option Float.float;
  era_or_time_period : json;
  estimated_year_range : json;
  region_of_origin : json;
  functional_use : json;
  material : json;
  style : json;
  short_summary : json;
  confidence_score : json
}.

(** The pieces of a format string: literal text and replacement fields. *)
Inductive piece :=
| Lit (text : list N)
| Field (name : list N).

Definition ITEM_PROMPT_TEMPLATE : list piece :=
  [ Lit (py "
Generate the following attributes for the item below.

Fields to generate:
- era_or_time_period
- estimated_year_range
- region_of_origin
- functional_use
- material
- style
- short_summary
- confidence_score (0" ++ [0x2013] ++ py "1)

Confidence guidance:
- 0.9" ++ [0x2013] ++ py "1.0: clearly stated
- 0.6" ++ [0x2013] ++ py "0.8: strong supporting clues
- 0.3" ++ [0x2013] ++ py "0.5: weak inference
- <0.3: largely uncertain

Item information:
Title: ");
    Field (py "title");
    Lit (py "
Category: ");
    Field (py "category");
    Lit (py "
Description: ");
    Field (py "description");
    Lit (py "
") ].

(** [template.format] with keyword arguments that are strings; every
    field of the template above is given. *)
Definition format (template : list piece) (kwargs : list (list N * list N))
  : str :=
  concat ((λ p, match p with
                | Lit text => text
                | Field name =>
                    match list_find (λ kv, kv.1 = name) kwargs with
                    | Some (_, kv) => kv.2
                    | None => []
                    end
                end) <$> template).

(** [s or "unknown"] *)
Definition or_unknown (s : str) : str :=
  match s with
  | [] => py "unknown"
  | _ => s
  end.

Definition title_of (item : CleanItem) : str :=
  or_unknown (or_empty (c_item_title item)).

Definition category_of (item : CleanItem) : str :=
  or_unknown (category_normalized item).

Definition description_of (item : CleanItem) : str :=
  or_unknown (or_empty (Scraper.py_or (description_clean item)
                                      (c_description_raw item))).

(** The prompt [main] builds for an item. *)
Definition prompt_of (item : CleanItem) : str :=
  format ITEM_PROMPT_TEMPLATE
         [ (py "title", title_of item);
           (py "category", category_of item);
           (py "description", description_of item) ].

(** The record [main] builds from an item and the [dict] derived for it. *)
Definition final_record (item : CleanItem) (derived : list (list N * json))
  : FinalItem :=
  {| f_source_url := c_source_url item;
     f_item_title := title_of item;
     f_category_raw := category_raw item;
     f_description_raw := c_description_raw item;
     f_images := c_images item;
     f_listed_price_raw := listed_price_raw item;
     f_currency := c_currency item;
     f_seller_location := c_seller_location item;
     f_category_normalized := category_of item;
     f_description_clean := description_clean item;
     f_price_value := price_value item;
     era_or_time_period := dict_get (py "era_or_time_period") derived;
     estimated_year_range := dict_get (py "estimated_year_range") derived;
     region_of_origin := dict_get (py "region_of_origin") derived;
     functional_use := dict_get (py "functional_use") derived;
     material := dict_get (py "material") derived;
     style := dict_get (py "style") derived;
     short_summary := dict_get (py "short_summary") derived;
     confidence_score := dict_get (py "confidence_score") derived |}.

(** An exception that [main] does not catch: [derived.get] on a value that
    is not a [dict]. *)
Inductive uncaught := AttributeError.

(** How [main] ends, with the prompts it has sent, in order: it writes the
    final records, or an exception ends it before anything is written. *)
Inductive ending :=
| Written (final_records : list FinalItem) (sent : list (list N))
| Aborted (e : uncaught) (sent : list (list N)).

Section Main.
Variable generate_attributes : nat → list N → reply.

(** The loop of [main]; [calls] counts the calls made so far. *)
Fixpoint enrich_loop (cleaned_items : list CleanItem) (calls : nat)
    (final_records : list FinalItem) (sent : list (list N)) : ending :=
  match cleaned_items with
  | [] => Written final_records sent
  | item :: cleaned_items' =>
      let prompt := prompt_of item in
      let sent := sent ++ [prompt] in
      match generate_attributes calls prompt with
      | Failed => enrich_loop cleaned_items' (S calls) final_records sent
      | Parsed (JObject derived) =>
          enrich_loop cleaned_items' (S calls)
                      (final_records ++ [final_record item derived]) sent
      | Parsed _ => Aborted AttributeError sent
      end
  end.

Definition main (cleaned_items : list CleanItem) : ending :=
  enrich_loop cleaned_items 0 [] [].
End Main.

End Enricher.

(** ** Notions used to state the properties *)

(** The lookup table of [normalize_category], entry by entry. *)
Definition category_table : list (list N * list N) :=
  [ (py "Furniture", py "furniture");
    (py "Ceramics", py "ceramics");
    (py "Decorative Art", py "decorative_art");
    (py "Silver", py "silver");
    (py "Jewellery", py "jewellery");
    (py "Lighting", py "lighting") ].

Definition canonical_identifiers : list (list N) := category_table.*2.

(** [single_spaced prev s]: the only whitespace in [s] is single spaces,
    none of them next to another ([prev]: the character before [s] is
    whitespace). *)
Fixpoint single_spaced (prev : bool) (s : str) : bool :=
  match s with
  | [] => true
  | c :: s' =>
      if is_whitespace c
      then negb prev && (c =? 32) && single_spaced true s'
      else single_spaced false s'
  end.

(** Strings over Basic Latin and the Latin-1 symbols. *)
Definition latin (s : str) : bool := forallb (λ c, c <? 192) s.

(** Strings of the ASCII digits [0] to [9]. *)
Definition ascii_digits (s : str) : bool :=
  forallb (λ c, (48 <=? c) && (c <=? 57)) s.

(** The price text of the specification's example: a pound sign (U+00A3)
    followed by [1,250.00]. *)
Definition pound_1250 : str := 163 :: py "1,250.00".

(** The binary64 value 1250.0 *)
Definition float_1250 : Float.float := Float.Finite 5497558138880000 (-42).


Section Duplicates.
Context `{UnicodeDB}.

(** The price an item gets: what [parse_price_value] returns. *)
Definition price_of (item : RawItem) : option Float.float :=
  match Normalizer.parse_price_value (listed_price item) with
  | Return v => v
  | Raise _ => None
  end.

(** The cleaned form of a raw record: its fields, and the three normalized
    ones. *)
Definition clean_form (item : RawItem) : CleanItem :=
  {| c_source_url := source_url item;
     c_item_title := item_title item;
     category_raw := category item;
     c_description_raw := description_raw item;
     listed_price_raw := listed_price item;
     c_currency := currency item;
     c_seller_location := seller_location item;
     c_images := images item;
     category_normalized := Normalizer.normalize_category (category item);
     description_clean := Normalizer.clean_description (description_raw item);
     price_value := price_of item |}.

(** The two parts of the dedup key: the first 40 characters of the
    lower-cased, trimmed title, and the trimmed raw price text. *)
Definition dedup_components (item : RawItem) : list N * list N :=
  (take 40 (strip (lower (or_empty (item_title item)))),
   strip (or_empty (listed_price item))).

(** No record before position [j] has the key of the record at [j]. *)
Definition first_of_its_key (raw_items : list RawItem) (j : nat) : bool :=
  match raw_items !! j with
  | Some b =>
      forallb (λ a, negb (bool_decide (Normalizer.build_dedupe_key a
                                       = Normalizer.build_dedupe_key b)))
              (take j raw_items)
  | None => false
  end.

(** The positions, in input order, of the records that are the first of
    their key. *)
Definition surviving_positions (raw_items : list RawItem) : list nat :=
  filter (λ j, first_of_its_key raw_items j = true) (seq 0 (length raw_items)).

End Duplicates.


(** The elements of a list, each at its first occurrence. *)
Fixpoint first_occurrences {A} `{EqDecision A} (l : list A) : list A :=
  match l with
  | [] => []
  | x :: l' => x :: filter (λ y, y ≠ x) (first_occurrences l')
  end.

(** *** URLs *)




(** *** Images *)

(** The URL an [img] element contributes: [src], else [data-src], with a
    protocol-relative URL made explicit; [None] when it has neither. *)
Definition image_source (img : Scraper.Img) : option str :=
  let s := Scraper.py_or (Scraper.src img) (Scraper.data_src img) in
  if truthy s then
    Some (if starts_with (py "//") (or_empty s)
          then py "https:" ++ or_empty s else or_empty s)
  else None.

(** The sources that name the image CDN, in document order. *)
Definition image_candidates (page : Scraper.ItemPage) : list (list N) :=
  filter (λ u, contains Scraper.IMAGE_CDN u = true)
         (omap image_source (Scraper.imgs page)).

(** An [img] element with a [src] attribute only. *)
Definition img_src (url : str) : Scraper.Img :=
  {| Scraper.src := Some url; Scraper.data_src := None |}.

(** An [img] element that is loaded lazily: [data-src] only. *)
Definition img_lazy (url : str) : Scraper.Img :=
  {| Scraper.src := None; Scraper.data_src := Some url |}.

(** An item page with the given images and nothing else of interest. *)
Definition page_with_images (tags : list Scraper.Img) : Scraper.ItemPage :=
  {| Scraper.h1 := Some (py "A chair");
     Scraper.og_description := None;
     Scraper.json_ld := None;
     Scraper.price_span := None;
     Scraper.dealer_location_span := None;
     Scraper.imgs := tags |}.

(** A page with eight images on the CDN, two of which repeat an earlier
    one: [chair-1] and [chair-2] occur twice. *)
Definition cdn (name : string) : str :=
  py "https://images.antiquesatlas.com/" ++ py name.

Definition eight_images : Scraper.ItemPage :=
  page_with_images
    [ img_src (cdn "chair-1.jpg");
      img_src (py "/static/logo.png");
      img_lazy (py "//images.antiquesatlas.com/chair-2.jpg");
      img_src (cdn "chair-3.jpg");
      img_src (cdn "chair-1.jpg");
      img_lazy (cdn "chair-4.jpg");
      img_src (cdn "chair-5.jpg");
      img_src (cdn "chair-2.jpg");
      img_src (cdn "chair-6.jpg") ].



(** [s] occurs in [t] as a contiguous piece. *)
Definition infix (s t : str) : Prop := ∃ k1 k2, t = k1 ++ s ++ k2.

(** *** The walk *)

(** The item URLs marked visited, and those fetched, in the order of the
    trace; the listing pages fetched for a category. *)
Definition marked (tr : list Scraper.event) : list (list N * list N) :=
  omap (λ ev, match ev with
              | Scraper.MarkVisited c u => Some (c, u)
              | _ => None
              end) tr.

Definition fetched (tr : list Scraper.event) : list (list N * list N) :=
  omap (λ ev, match ev with
              | Scraper.FetchItem c u => Some (c, u)
              | _ => None
              end) tr.

Definition marked_urls (tr : list Scraper.event) : list (list N) := (marked tr).*2.
Definition fetched_urls (tr : list Scraper.event) : list (list N) := (fetched tr).*2.

(** What the walk of a category does for the item URLs [urls], one after
    the other: mark, then fetch. *)
Definition visits (category_name : str) (urls : list (list N))
  : list Scraper.event :=
  urls ≫= λ u, [Scraper.MarkVisited category_name u;
                Scraper.FetchItem category_name u].

(** The item URL of a link of a listing page. *)
Definition link_url (link : option str) : option str :=
  if truthy link then Some (Scraper.BASE_SITE_URL ++ or_empty link) else None.

Section Discoverable.
Context (site : Scraper.Site).

(** The record of an item URL, when its page can be fetched. *)
Definition record_of (category_name item_url : str) : option RawItem :=
  Scraper.extract_record item_url category_name <$> Scraper.item site item_url.

(** The links of the listing pages from [page_number] on, [pages] pages at
    most, up to the first page that is empty or cannot be fetched. *)
Fixpoint scanned_links (category_path : str) (pages page_number : nat)
  : list (option (list N)) :=
  match pages with
  | O => []
  | S pages' =>
      match Scraper.listing site category_path page_number with
      | Some (link :: links) =>
          (link :: links) ++ scanned_links category_path pages' (S page_number)
      | _ => []
      end
  end.

(** The discoverable items among some links: the item URLs not visited
    before, each at its first occurrence, whose page can be fetched. *)
Definition discoverable_in (links : list (option (list N)))
    (visited : gset (list N)) : list (list N) :=
  filter (λ u, is_Some (Scraper.item site u))
         (first_occurrences (filter (λ u, u ∉ visited) (omap link_url links))).

(** The discoverable items of a category: those on the listing pages 1 to
    [MAX_PAGES_TO_SCAN], in page order then link order. *)
Definition discoverable (category_path : str) (visited : gset (list N))
  : list (list N) :=
  discoverable_in (scanned_links category_path Scraper.MAX_PAGES_TO_SCAN 1)
                  visited.

End Discoverable.

(** The listing pages fetched, in the order of the trace. *)
Definition fetched_pages (tr : list Scraper.event) : list nat :=
  omap (λ ev, match ev with
              | Scraper.FetchPage _ n => Some n
              | _ => None
              end) tr.

(** A trace in which every item fetch comes right after the marking of
    that item as visited, and every marking is followed by the fetch. *)
Inductive well_paired : list Scraper.event → Prop :=
| well_paired_nil : well_paired []
| well_paired_page c n tr :
    well_paired tr → well_paired (Scraper.FetchPage c n :: tr)
| well_paired_item c u tr :
    well_paired tr →
    well_paired (Scraper.MarkVisited c u :: Scraper.FetchItem c u :: tr).

(** The category and the source URL of a record. *)
Definition tag (r : RawItem) : option (list N) * option (list N) :=
  (category r, source_url r).

(** What holds of the state all along a run: the visited set is the set of
    URLs marked so far, each marked once and fetched right after; and the
    collected records are, in order, records of marked URLs, tagged with
    the category that marked them. *)
Definition run_invariant (st : Scraper.State) : Prop :=
  well_paired (Scraper.trace st)
  ∧ NoDup (marked_urls (Scraper.trace st))
  ∧ (∀ u, u ∈ Scraper.visited_item_urls st ↔ u ∈ marked_urls (Scraper.trace st))
  ∧ sublist (tag <$> Scraper.collected_items st)
            ((λ cu, (Some cu.1, Some cu.2)) <$> marked (Scraper.trace st)).

(** *** Example sites *)

Definition furniture_path : str := py "/antiques/furniture/".

(** The link of the [k]-th item of a catalogue, [k] below 100. *)
Definition item_link (k : nat) : option (list N) :=
  Some (py "/antique/chair-"
        ++ [48 + N.of_nat (k / 10); 48 + N.of_nat (k mod 10)]).

(** A catalogue of 50 furniture items, ten to a listing page, every item
    page fetchable; the pages after the fifth are empty. *)
Definition fifty_items : Scraper.Site :=
  {| Scraper.listing path page_number :=
       if bool_decide (path = furniture_path)
          && (1 <=? page_number)%nat && (page_number <=? 5)%nat
       then Some (item_link <$> seq (10 * (page_number - 1)) 10)
       else Some [];
     Scraper.item _ := Some (page_with_images []) |}.

(** A catalogue whose third furniture page is empty, although the fourth
    is not: two items on each of the pages 1, 2 and 4. *)
Definition gap_on_page_3 : Scraper.Site :=
  {| Scraper.listing path page_number :=
       if bool_decide (path = furniture_path)
          && bool_decide (page_number ∈ [1; 2; 4]%nat)
       then Some (item_link <$> seq (2 * page_number) 2)
       else Some [];
     Scraper.item _ := Some (page_with_images []) |}.

(** *** Example records *)

(** A raw record with a title and a price text. *)
Definition priced_item (url title price : str) : RawItem :=
  {| source_url := Some url;
     item_title := Some title;
     category := Some (py "Silver");
     description_raw := None;
     images := [];
     listed_price := Some price;
     currency := Some (py "GBP");
     seller_location := None |}.

(** *** Notions for the run as a whole *)

(** An item URL that a listing page of the category shows: the site's
    base URL followed by the [href] of one of its links. *)
Definition listed_on (site : Scraper.Site) (category_path : str) (u : str)
  : Prop :=
  ∃ (n : nat) (links : list (option (list N))) (href : list N),
    (1 ≤ n ≤ Scraper.MAX_PAGES_TO_SCAN)%nat
    ∧ Scraper.listing site category_path n = Some links
    ∧ Some href ∈ links
    ∧ u = Scraper.BASE_SITE_URL ++ href.

(** A record that is the extraction of a fetched item page, reached from a
    listing page of one of the configured categories. *)
Definition extracted_from (site : Scraper.Site) (r : RawItem) : Prop :=
  ∃ (name path u : list N) (page : Scraper.ItemPage),
    (name, path) ∈ Scraper.CATEGORY_PATHS
    ∧ listed_on site path u
    ∧ Scraper.item site u = Some page
    ∧ r = Scraper.extract_record u name page.

(** The records of a list that carry a category. *)
Definition tagged (name : str) (records : list RawItem) : list RawItem :=
  filter (λ r, category r = Some name) records.

(** Blocks of records, each of one category and within the cap. *)
Definition capped_block (cap : nat) (block : list RawItem)
    (cat : list N * list N) : Prop :=
  (length block ≤ cap)%nat ∧ Forall (λ r, category r = Some cat.1) block.

(** *** Words *)

(** [s.split()]: the maximal runs of characters that are not whitespace;
    [word] holds the current word, last character first. *)
Fixpoint split_go (word : str) (s : str) : list (list N) :=
  match s with
  | [] => match word with [] => [] | _ => [reverse word] end
  | c :: s' =>
      if is_whitespace c
      then match word with
           | [] => split_go [] s'
           | _ => reverse word :: split_go [] s'
           end
      else split_go (c :: word) s'
  end.

Definition split (s : str) : list (list N) := split_go [] s.

(** [sep.join(words)] *)
Fixpoint join (sep : str) (words : list (list N)) : str :=
  match words with
  | [] => []
  | [w] => w
  | w :: words' => w ++ sep ++ join sep words'
  end.

Definition not_whitespace (c : N) : Prop := is_whitespace c = false.

(** The characters of the class [[\d,.]] in Basic Latin: the ASCII digits,
    the comma and the full stop. *)
Definition ascii_price_char (c : N) : bool :=
  ((48 <=? c) && (c <=? 57)) || (c =? comma) || (c =? full_stop).

(** The number written by a string of ASCII digits. *)
Definition ascii_value (s : str) : N :=
  foldl (λ acc c, 10 * acc + (c - 48)) 0 s.

(** What [parse_price_value] makes of the outcome of [float]. *)
Definition float_or_null (o : outcome Float.float)
  : outcome (option Float.float) :=
  match o with
  | Return v => Return (Some v)
  | Raise _ => Return None
  end.

(** *** Enrichment *)

Section Enrichment.
Variable generate_attributes : nat → list N → Enricher.reply.

(** What the call made for the item at position [i] does. *)
Definition reply_for (i : nat) (item : CleanItem) : Enricher.reply :=
  generate_attributes i (Enricher.prompt_of item).

(** The reply is a JSON value, but not an object. *)
Definition not_an_object (r : Enricher.reply) : bool :=
  match r with
  | Enricher.Parsed (Enricher.JObject _) => false
  | Enricher.Parsed _ => true
  | Enricher.Failed => false
  end.

(** The record of the item at position [i], when its call returns an
    object. *)
Definition enriched (i : nat) (item : CleanItem) : option Enricher.FinalItem :=
  match reply_for i item with
  | Enricher.Parsed (Enricher.JObject derived) =>
      Some (Enricher.final_record item derived)
  | _ => None
  end.

End Enrichment.

(** Two example replies and a cleaned item. *)
Definition object_reply : Enricher.reply :=
  Enricher.Parsed (Enricher.JObject
    [(py "material", Enricher.JString (py "oak"));
     (py "confidence_score", Enricher.JFloat false (Float.of_ratio 7 10))]).

Definition array_reply : Enricher.reply :=
  Enricher.Parsed (Enricher.JArray []).

Definition cleaned_chair (title : option str) : CleanItem :=
  {| c_source_url := Some (py "https://www.antiques-atlas.com/antique/chair");
     c_item_title := title;
     category_raw := Some (py "Furniture");
     c_description_raw := Some (py "An oak chair");
     listed_price_raw := None;
     c_currency := Some (py "GBP");
     c_seller_location := None;
     c_images := [];
     category_normalized := py "furniture";
     description_clean := None;
     price_value := None |}.

(** * Properties *)

(** ** Scanning lists *)

Section ListScanFacts.
Context {A : Type} (p : A → bool).

Lemma take_drop_while l : take_while p l ++ drop_while p l = l.
Proof. induction l as [|x l IH]; simpl; [done|]. destruct (p x); simpl; congruence. Qed.

Lemma take_while_all l x : x ∈ take_while p l → p x = true.
Proof.
  induction l as [|y l IH]; simpl; [by intros ?%elem_of_nil|].
  destruct (p y) eqn:E; [|by intros ?%elem_of_nil].
  intros [->|?]%elem_of_cons; auto.
Qed.

Lemma drop_while_elem l x : x ∈ drop_while p l → x ∈ l.
Proof.
  induction l as [|y l IH]; simpl; [done|].
  destruct (p y); [|done]. intros ?. apply elem_of_cons; auto.
Qed.

Lemma drop_while_head l x l' : drop_while p l = x :: l' → p x = false.
Proof.
  induction l as [|y l IH]; simpl; [done|].
  destruct (p y) eqn:E; [done|]. by intros [= -> _].
Qed.


Lemma drop_while_nil_all l : drop_while p l = [] → ∀ x, x ∈ l → p x = true.
Proof.
  induction l as [|y l IH]; simpl; [by intros _ x ?%elem_of_nil|].
  destruct (p y) eqn:E; [|done].
  intros Hd x [->|?]%elem_of_cons; auto.
Qed.

Lemma take_while_elem l x : x ∈ take_while p l → x ∈ l.
Proof.
  induction l as [|y l IH]; simpl; [done|].
  destruct (p y); [|by intros ?%elem_of_nil].
  intros [->|?]%elem_of_cons; apply elem_of_cons; auto.
Qed.

Lemma take_while_app l1 l2 :
  (∀ x, x ∈ l1 → p x = true) →
  match l2 with [] => True | y :: _ => p y = false end →
  take_while p (l1 ++ l2) = l1.
Proof.
  intros H1 H2. induction l1 as [|x l1 IH]; simpl.
  - destruct l2 as [|y l2]; simpl; [done|]. by rewrite H2.
  - rewrite (H1 x) by (apply elem_of_cons; auto). f_equal. apply IH.
    intros z ?. apply H1, elem_of_cons; auto.
Qed.

Lemma drop_while_app l1 l2 :
  (∀ x, x ∈ l1 → p x = true) →
  match l2 with [] => True | y :: _ => p y = false end →
  drop_while p (l1 ++ l2) = l2.
Proof.
  intros H1 H2. induction l1 as [|x l1 IH]; simpl.
  - destruct l2 as [|y l2]; simpl; [done|]. by rewrite H2.
  - rewrite (H1 x) by (apply elem_of_cons; auto). apply IH.
    intros z ?. apply H1, elem_of_cons; auto.
Qed.

Lemma take_while_all_true l : (∀ x, x ∈ l → p x = true) → take_while p l = l.
Proof.
  intros Hl. rewrite <- (app_nil_r l) at 1. by apply take_while_app.
Qed.


Lemma take_while_ext (q : A → bool) l :
  (∀ x, x ∈ l → p x = q x) → take_while p l = take_while q l.
Proof.
  induction l as [|y l IH]; simpl; [done|]. intros Hpq.
  rewrite <- (Hpq y) by (apply elem_of_cons; auto).
  rewrite IH; [done|]. intros x ?. apply Hpq, elem_of_cons; auto.
Qed.

Lemma drop_while_ext (q : A → bool) l :
  (∀ x, x ∈ l → p x = q x) → drop_while p l = drop_while q l.
Proof.
  induction l as [|y l IH]; simpl; [done|]. intros Hpq.
  rewrite <- (Hpq y) by (apply elem_of_cons; auto).
  rewrite IH; [done|]. intros x ?. apply Hpq, elem_of_cons; auto.
Qed.

Lemma forallb_ext_in (q : A → bool) l :
  (∀ x, x ∈ l → p x = q x) → forallb p l = forallb q l.
Proof.
  induction l as [|y l IH]; simpl; [done|]. intros Hpq.
  rewrite <- (Hpq y) by (apply elem_of_cons; auto).
  rewrite IH; [done|]. intros x ?. apply Hpq, elem_of_cons; auto.
Qed.

End ListScanFacts.

(** ** [strip] *)

Lemma lstrip_suffix s : ∃ k, s = k ++ lstrip s.
Proof. exists (take_while is_whitespace s). symmetry. apply take_drop_while. Qed.

Lemma rstrip_prefix s : ∃ k, s = rstrip s ++ k.
Proof.
  exists (reverse (take_while is_whitespace (reverse s))). unfold rstrip.
  rewrite <- reverse_app, take_drop_while. by rewrite reverse_involutive.
Qed.

Lemma strip_infix s : ∃ k1 k2, s = k1 ++ strip s ++ k2.
Proof.
  destruct (lstrip_suffix s) as [k1 E1].
  destruct (rstrip_prefix (lstrip s)) as [k2 E2].
  exists k1, k2. unfold strip. by rewrite <- E2.
Qed.


Lemma lstrip_fixed s :
  match s with [] => True | c :: _ => is_whitespace c = false end →
  lstrip s = s.
Proof. destruct s as [|c s]; simpl; [done|]. by intros ->. Qed.

Lemma strip_head s :
  match strip s with [] => True | c :: _ => is_whitespace c = false end.
Proof.
  unfold strip. destruct (rstrip_prefix (lstrip s)) as [k E].
  destruct (rstrip (lstrip s)) as [|c r] eqn:E'; [done|].
  eapply drop_while_head. unfold lstrip in E. exact E.
Qed.


Lemma strip_nil : strip [] = [].
Proof. done. Qed.

(** ** Category normalization *)

Section CategoryFacts.
Import Normalizer.

Lemma CATEGORY_LOOKUP_table k v :
  Normalizer.CATEGORY_LOOKUP !! k = Some v ↔ (k, v) ∈ category_table.
Proof.
  unfold CATEGORY_LOOKUP, category_table.
  rewrite !lookup_insert_Some, lookup_empty, !elem_of_cons, elem_of_nil.
  split.
  - intros H. repeat (destruct H as [[<- <-]|[_ H]]; [tauto|]). done.
  - intros H.
    repeat (destruct H as [[= -> ->]|H];
            [repeat (first [left; split; [reflexivity|reflexivity]
                           |right; split; [discriminate|]])|]).
    done.
Qed.

Lemma normalize_category_lookup s label id :
  (label, id) ∈ category_table → strip s = label →
  normalize_category (Some s) = id.
Proof.
  intros Hin Hs. unfold normalize_category.
  assert (truthy (Some s) = true) as ->.
  { destruct s; [|done]. rewrite strip_nil in Hs. subst label.
    unfold category_table in Hin. rewrite !elem_of_cons, elem_of_nil in Hin.
    exfalso. repeat (destruct Hin as [Hin|Hin]; [discriminate|]). done. }
  simpl. rewrite Hs. apply CATEGORY_LOOKUP_table in Hin. by rewrite Hin.
Qed.

Lemma normalize_category_other c :
  (∀ label id, (label, id) ∈ category_table → strip (or_empty c) ≠ label) →
  normalize_category c = py "other".
Proof.
  intros Hno. unfold normalize_category. destruct (truthy c); [|done]. simpl.
  destruct (CATEGORY_LOOKUP !! strip (or_empty c)) as [v|] eqn:E; [|done].
  apply CATEGORY_LOOKUP_table in E. by destruct (Hno _ _ E).
Qed.

Lemma normalize_category_range c :
  normalize_category c ∈ canonical_identifiers ++ [py "other"].
Proof.
  unfold normalize_category. apply elem_of_app.
  destruct (truthy c); simpl; [|right; apply list_elem_of_singleton; done].
  destruct (CATEGORY_LOOKUP !! strip (or_empty c)) as [v|] eqn:E; simpl.
  - left. apply CATEGORY_LOOKUP_table in E.
    apply list_elem_of_fmap. by exists (strip (or_empty c), v).
  - right. by apply list_elem_of_singleton.
Qed.

End CategoryFacts.

(** C5.  [normalize_category] is a total function into the six canonical
    identifiers and "other": whatever the input (null, empty or any string)
    the result is one of these seven; an input whose trimmed text is exactly
    a key of the lookup table gets that key's identifier, and every other
    input gets "other". *)
Theorem normalize_category_total :
  ∀ c : option str,
    Normalizer.normalize_category c ∈ canonical_identifiers ++ [py "other"]
    ∧ (∀ label id, (label, id) ∈ category_table →
         strip (or_empty c) = label → Normalizer.normalize_category c = id)
    ∧ ((∀ label id, (label, id) ∈ category_table → strip (or_empty c) ≠ label) →
         Normalizer.normalize_category c = py "other").
Proof.
  intros c. split; [apply normalize_category_range|]. split.
  - intros label id Hin Hs. destruct c as [s|]; simpl in Hs.
    + by eapply normalize_category_lookup.
    + rewrite strip_nil in Hs. subst label. exfalso.
      unfold category_table in Hin. rewrite !elem_of_cons, elem_of_nil in Hin.
      repeat (destruct Hin as [Hin|Hin]; [discriminate|]). done.
  - apply normalize_category_other.
Qed.

(** ** Description cleaning *)

Section DescriptionFacts.
Import Normalizer.

Lemma single_spaced_weaken s : single_spaced true s = true → single_spaced false s = true.
Proof. destruct s as [|c s]; simpl; [done|]. by destruct (is_whitespace c). Qed.

Lemma single_spaced_any b s : single_spaced b s = true → single_spaced false s = true.
Proof. destruct b; [apply single_spaced_weaken|done]. Qed.

Lemma single_spaced_app_l b s1 s2 :
  single_spaced b (s1 ++ s2) = true → single_spaced b s1 = true.
Proof.
  revert b. induction s1 as [|c s1 IH]; intros b; simpl; [done|].
  destruct (is_whitespace c); [|apply IH].
  intros [? ?]%andb_prop. apply andb_true_intro. eauto.
Qed.

Lemma single_spaced_app_r b s1 s2 :
  single_spaced b (s1 ++ s2) = true → single_spaced false s2 = true.
Proof.
  revert b. induction s1 as [|c s1 IH]; intros b; simpl.
  - apply single_spaced_any.
  - destruct (is_whitespace c); [|apply IH]. intros [_ ?]%andb_prop. eauto.
Qed.

Lemma sub_whitespace_single_spaced b s :
  single_spaced b (sub_whitespace b s) = true.
Proof.
  revert b. induction s as [|c s IH]; intros b; simpl; [done|].
  destruct (is_whitespace c) eqn:E.
  - destruct b; simpl; [apply IH|]. change (is_whitespace 32) with true.
    simpl. apply IH.
  - simpl. rewrite E. apply IH.
Qed.



End DescriptionFacts.

(** ** Substrings *)

Lemma starts_with_head c needle s :
  starts_with (c :: needle) s = true → c ∈ s.
Proof.
  destruct s as [|b s]; simpl; [done|].
  intros [->%N.eqb_eq _]%andb_prop. apply elem_of_cons; auto.
Qed.


Lemma contains_head c needle s : contains (c :: needle) s = true → c ∈ s.
Proof.
  induction s as [|b s IH]; [done|].
  change (contains (c :: needle) (b :: s))
    with (starts_with (c :: needle) (b :: s) || contains (c :: needle) s).
  intros [Hs|Hc]%orb_prop.
  - by eapply starts_with_head.
  - apply elem_of_cons. auto.
Qed.




(** ** Lower-casing *)

Section LowerFacts.
Context `{UnicodeDB}.

Lemma latin_elem s c : latin s = true → c ∈ s → c < 192.
Proof.
  unfold latin. rewrite forallb_forall. intros Hs Hc.
  apply N.ltb_lt, Hs. by apply list_elem_of_In.
Qed.

Lemma latin_intro s : (∀ c, c ∈ s → c < 192) → latin s = true.
Proof.
  intros Hs. unfold latin. apply forallb_forall. intros c Hc.
  apply N.ltb_lt, Hs. by apply list_elem_of_In.
Qed.

Lemma do_lower_latin before s :
  latin s = true → do_lower before s = latin_lower <$> s.
Proof.
  revert before. induction s as [|c s IH]; intros before; simpl; [done|].
  intros [Hc%N.ltb_lt Hs]%andb_prop. unfold lower_ucs4.
  destruct (c =? 0x3A3) eqn:E; [nbool; lia|].
  rewrite to_lower_full_latin by done. simpl. f_equal. by apply IH.
Qed.

Lemma lower_latin s : latin s = true → lower s = latin_lower <$> s.
Proof. apply do_lower_latin. Qed.


Lemma latin_lower_latin s : latin s = true → latin (latin_lower <$> s) = true.
Proof.
  intros Hs. apply latin_intro. intros c (c0 & -> & Hc0)%list_elem_of_fmap.
  pose proof (latin_elem _ _ Hs Hc0). unfold latin_lower.
  case_match; [nbool|]; lia.
Qed.

End LowerFacts.

(** ** Price parsing *)

Section PriceFacts.
Import Normalizer.

(** Two databases that agree on the characters of a string parse it alike. *)
Section Agree.
Context (D1 D2 : UnicodeDB).

Lemma is_decimal_agree c :
  @to_decimal D1 c = @to_decimal D2 c → @is_decimal D1 c = @is_decimal D2 c.
Proof. unfold is_decimal. by intros ->. Qed.

Lemma is_price_char_agree c :
  @to_decimal D1 c = @to_decimal D2 c →
  @is_price_char D1 c = @is_price_char D2 c.
Proof. unfold is_price_char. by intros ->%is_decimal_agree. Qed.

Lemma digits_value_agree s :
  (∀ c, c ∈ s → @to_decimal D1 c = @to_decimal D2 c) →
  @digits_value D1 s = @digits_value D2 s.
Proof.
  intros Hs. unfold digits_value.
  enough (∀ acc,
    foldl (λ acc c, 10 * acc + default 0 (@to_decimal D1 c)) acc s =
    foldl (λ acc c, 10 * acc + default 0 (@to_decimal D2 c)) acc s) by done.
  induction s as [|c s IH]; intros acc; [done|].
  simpl. rewrite (Hs c) by (apply elem_of_cons; auto).
  apply IH. intros c' ?. apply Hs, elem_of_cons; auto.
Qed.

Lemma py_float_agree s :
  (∀ c, c ∈ s → @to_decimal D1 c = @to_decimal D2 c) →
  @py_float D1 s = @py_float D2 s.
Proof.
  intros Hs. unfold py_float.
  assert (∀ c, c ∈ s → @is_decimal D1 c = @is_decimal D2 c) as Hd
    by (intros; by apply is_decimal_agree, Hs).
  rewrite (take_while_ext _ _ _ Hd), (drop_while_ext _ _ _ Hd).
  pose proof (take_drop_while (@is_decimal D2) s) as Hsplit.
  set (int_part := take_while (@is_decimal D2) s) in *.
  destruct (drop_while (@is_decimal D2) s) as [|c frac_part].
  - rewrite (digits_value_agree int_part).
    + by destruct int_part.
    + intros c Hc. apply Hs. rewrite <- Hsplit. apply elem_of_app; auto.
  - assert (∀ x, x ∈ int_part ++ frac_part → x ∈ s) as Hsub.
    { intros x Hx. rewrite <- Hsplit.
      apply elem_of_app in Hx as [?|?]; apply elem_of_app; [by left|right].
      apply elem_of_cons; auto. }
    rewrite (forallb_ext_in (@is_decimal D1) (@is_decimal D2)).
    + rewrite (digits_value_agree (int_part ++ frac_part)); [done|].
      intros x Hx. by apply Hs, Hsub.
    + intros x Hx. apply Hd, Hsub, elem_of_app. by right.
Qed.

Lemma search_price_run_agree s :
  (∀ c, c ∈ s → @to_decimal D1 c = @to_decimal D2 c) →
  @search_price_run D1 s = @search_price_run D2 s.
Proof.
  intros Hs. unfold search_price_run.
  rewrite (drop_while_ext _ (λ c, negb (@is_price_char D2 c))).
  2:{ intros c Hc. f_equal. by apply is_price_char_agree, Hs. }
  destruct (drop_while _ s) as [|c run] eqn:E; [done|]. f_equal.
  apply take_while_ext. intros x Hx. apply is_price_char_agree, Hs.
  eapply drop_while_elem. by rewrite E.
Qed.

End Agree.

Section RunFacts.
Context `{UnicodeDB}.

Lemma search_price_run_elem s g c : search_price_run s = Some g → c ∈ g → c ∈ s.
Proof.
  unfold search_price_run.
  destruct (drop_while _ s) as [|x run] eqn:E; [done|]. intros Hg Hc.
  assert (g = take_while is_price_char (x :: run)) as -> by congruence.
  apply take_while_elem in Hc. eapply drop_while_elem. by rewrite E.
Qed.

Lemma search_price_run_chars s g c :
  search_price_run s = Some g → c ∈ g → is_price_char c = true.
Proof.
  unfold search_price_run.
  destruct (drop_while _ s) as [|x run] eqn:E; [done|]. intros Hg Hc.
  assert (g = take_while is_price_char (x :: run)) as -> by congruence.
  by apply take_while_all in Hc.
Qed.

Lemma remove_commas_elem s c : c ∈ remove_commas s → c ∈ s ∧ c ≠ comma.
Proof. unfold remove_commas. rewrite list_elem_of_filter. tauto. Qed.

End RunFacts.

Section AnyDB.
Context `{UnicodeDB}.

(** On a Latin string the parse does not depend on the rest of the
    database. *)
Lemma parse_price_value_latin s :
  latin s = true →
  parse_price_value (Some s) = @parse_price_value latin_db (Some s).
Proof.
  intros Hs. unfold parse_price_value. destruct (truthy (Some s)); [|done].
  cbn [negb or_empty]. rewrite !lower_latin by done.
  set (t := latin_lower <$> s).
  assert (∀ c, c ∈ t → to_decimal c = @to_decimal latin_db c) as Ht.
  { intros c Hc. apply to_decimal_latin.
    eapply latin_elem; [|done]. by apply latin_lower_latin. }
  destruct (contains (py "poa") t); [done|].
  rewrite (search_price_run_agree _ latin_db) by done.
  destruct (@search_price_run latin_db t) as [g|] eqn:E; [|done].
  rewrite (py_float_agree _ latin_db); [done|].
  intros c [Hc _]%remove_commas_elem. apply Ht.
  by eapply (@search_price_run_elem latin_db).
Qed.

(** [parse_price_value] returns, whatever the text. *)
Lemma parse_price_value_returns t : ∃ v, parse_price_value t = Return v.
Proof.
  unfold parse_price_value. destruct (negb (truthy t)); [by eexists|].
  destruct (contains _ _); [by eexists|].
  destruct (search_price_run _) as [g|]; [|by eexists].
  destruct (py_float _) as [v|[]]; by eexists.
Qed.

(** A price character of the lower-cased text was in the text. *)
Lemma do_lower_price_char before s c :
  c ∈ do_lower before s → is_price_char c = true → c ∈ s.
Proof.
  revert before. induction s as [|x s IH]; intros before; simpl; [done|].
  intros [Hc|Hc]%elem_of_app Hp; [|apply elem_of_cons; eauto].
  apply elem_of_cons. left. unfold lower_ucs4 in Hc.
  destruct (decide (c = x)) as [|Hne]; [done|]. exfalso.
  assert (is_price_char c = false) as Hno; [|congruence].
  unfold is_price_char, is_decimal.
  destruct (x =? 931) eqn:Ex.
  - apply list_elem_of_singleton in Hc. unfold handle_capital_sigma in Hc.
    destruct small_sigma_not_decimal as [H2 H3].
    destruct (match drop_while is_case_ignorable before with
              | [] => false | _ => _ end); subst c.
    + rewrite H2. done.
    + rewrite H3. done.
  - destruct (to_lower_full_fresh _ _ Hc Hne) as (Hd & Hcomma & Hstop).
    rewrite Hd. apply N.eqb_neq in Hcomma, Hstop. rewrite Hcomma, Hstop.
    rewrite bool_decide_eq_false_2; [done|]. by intros [? ?].
Qed.

Lemma parse_price_value_no_price_char s :
  (∀ c, c ∈ s → is_price_char c = false) →
  parse_price_value (Some s) = Return None.
Proof.
  intros Hs. unfold parse_price_value. destruct (negb (truthy (Some s))); [done|].
  destruct (contains _ _); [done|].
  destruct (search_price_run _) as [g|] eqn:E; [|done]. exfalso.
  unfold search_price_run in E. cbn [or_empty] in E.
  destruct (drop_while _ (lower s)) as [|c run] eqn:Ed; [done|].
  pose proof (drop_while_head _ _ _ _ Ed) as Hc. apply negb_false_iff in Hc.
  assert (c ∈ lower s) as Hin.
  { eapply drop_while_elem. rewrite Ed. apply elem_of_cons; auto. }
  apply do_lower_price_char in Hin; [|done]. apply Hs in Hin. congruence.
Qed.

Lemma parse_price_value_float_failure t g :
  truthy t = true → contains (py "poa") (lower (or_empty t)) = false →
  search_price_run (lower (or_empty t)) = Some g →
  py_float (remove_commas g) = Raise ValueError →
  parse_price_value t = Return None.
Proof.
  intros Ht Hpoa Hg Hf. unfold parse_price_value.
  by rewrite Ht, Hpoa, Hg, Hf.
Qed.

End AnyDB.
End PriceFacts.

Section PriceTotal.
Import Normalizer.
Context `{UnicodeDB}.

(** C4.  [parse_price_value] returns for every null-or-string input, and
    never raises.  The pound-sign text [1,250.00] gives 1250.0; "POA" and
    "Price on application" give null; the empty string and null give null;
    a text without decimal digits, commas and full stops (such as "contact
    for price") gives null; and when [float] rejects the extracted run (as
    for "1.2.3") the result is null as well. *)
Theorem parse_price_value_never_raises :
  (∀ t : option str, ∃ v, parse_price_value t = Return v)
  ∧ parse_price_value (Some pound_1250) = Return (Some float_1250)
  ∧ Float.is_integer float_1250 1250
  ∧ parse_price_value (Some (py "POA")) = Return None
  ∧ parse_price_value (Some (py "Price on application")) = Return None
  ∧ parse_price_value (Some []) = Return None
  ∧ parse_price_value None = Return None
  ∧ (∀ s : str, (∀ c, c ∈ s → is_price_char c = false) →
       parse_price_value (Some s) = Return None)
  ∧ parse_price_value (Some (py "contact for price")) = Return None
  ∧ (∀ (t : option str) (g : str),
       truthy t = true →
       contains (py "poa") (lower (or_empty t)) = false →
       search_price_run (lower (or_empty t)) = Some g →
       py_float (remove_commas g) = Raise ValueError →
       parse_price_value t = Return None)
  ∧ parse_price_value (Some (py "1.2.3")) = Return None.
Proof.
  split; [apply parse_price_value_returns|].
  split; [by rewrite parse_price_value_latin by done|].
  split; [left; split; [done|by vm_compute]|].
  split; [by rewrite parse_price_value_latin by done|].
  split; [by rewrite parse_price_value_latin by done|].
  split; [done|]. split; [done|].
  split; [apply parse_price_value_no_price_char|].
  split; [by rewrite parse_price_value_latin by done|].
  split; [apply parse_price_value_float_failure|].
  by rewrite parse_price_value_latin by done.
Qed.

End PriceTotal.

(** ** Normalizing twice *)

Section Positional.
Import Normalizer.
Context `{UnicodeDB}.

Lemma ascii_digits_elem s c : ascii_digits s = true → c ∈ s → 48 ≤ c ≤ 57.
Proof.
  unfold ascii_digits. rewrite forallb_forall. intros Hs Hc%list_elem_of_In.
  apply Hs in Hc. nbool. lia.
Qed.

Lemma ascii_digit_decimal c : 48 ≤ c ≤ 57 → is_decimal c = true.
Proof.
  intros Hc. unfold is_decimal. rewrite to_decimal_latin by lia.
  unfold latin_decimal.
  destruct ((48 <=? c) && (c <=? 57)) eqn:E.
  - apply bool_decide_eq_true_2. by eexists.
  - nbool; lia.
Qed.




End Positional.



(** ** Deduplication *)

Section DedupFacts.
Import Normalizer.
Context `{UnicodeDB}.

Lemma build_dedupe_key_components a b :
  dedup_components a = dedup_components b →
  build_dedupe_key a = build_dedupe_key b.
Proof. unfold dedup_components, build_dedupe_key. by intros [= -> ->]. Qed.

Lemma first_of_its_key_spec (raw_items : list RawItem) j b :
  raw_items !! j = Some b →
  first_of_its_key raw_items j = true ↔
  ∀ i a, (i < j)%nat → raw_items !! i = Some a →
         build_dedupe_key a ≠ build_dedupe_key b.
Proof.
  intros Hb. unfold first_of_its_key. rewrite Hb, forallb_forall. split.
  - intros Hall i a Hij Ha.
    assert (In a (take j raw_items)) as Hin.
    { apply list_elem_of_In, list_elem_of_lookup. exists i.
      by rewrite lookup_take_lt. }
    apply Hall in Hin. apply negb_true_iff, bool_decide_eq_false in Hin. done.
  - intros Hall a [i Hi]%list_elem_of_In%list_elem_of_lookup.
    apply negb_true_iff, bool_decide_eq_false.
    pose proof (lookup_lt_Some _ _ _ Hi) as Hlt. rewrite length_take in Hlt.
    rewrite lookup_take_lt in Hi by lia. eapply Hall; [|done]. lia.
Qed.

Lemma first_of_its_key_fresh (prefix : list RawItem) (item : RawItem)
    (rest : list RawItem) (seen : gset (list N)) :
  (∀ k, k ∈ seen ↔ k ∈ build_dedupe_key <$> prefix) →
  first_of_its_key (prefix ++ item :: rest) (length prefix) = true ↔
  build_dedupe_key item ∉ seen.
Proof.
  intros Hseen.
  rewrite (first_of_its_key_spec _ _ item) by (by rewrite list_lookup_middle).
  rewrite Hseen, list_elem_of_fmap. split.
  - intros Hall (a & Hk & [i Hi]%list_elem_of_lookup).
    apply (Hall i a); [by eapply lookup_lt_Some| |done].
    by rewrite lookup_app_l by (by eapply lookup_lt_Some).
  - intros Hno i a Hi Ha Hk. apply Hno. exists a. split; [done|].
    rewrite lookup_app_l in Ha by done. by eapply list_elem_of_lookup_2.
Qed.

(** Building the record of an item never raises. *)
Lemma cleaned_record_returns item : cleaned_record item = Return (clean_form item).
Proof.
  unfold cleaned_record, clean_form, price_of.
  by destruct (parse_price_value_returns (listed_price item)) as [v ->].
Qed.

Lemma clean_loop_spec (rest : list RawItem) :
  ∀ (prefix : list RawItem) (seen : gset (list N)) (acc : list CleanItem),
    (∀ k, k ∈ seen ↔ k ∈ build_dedupe_key <$> prefix) →
    clean_loop rest seen acc =
    Return (acc ++ omap (λ j, clean_form <$> (prefix ++ rest) !! j)
                     (filter (λ j, first_of_its_key (prefix ++ rest) j = true)
                             (seq (length prefix) (length rest)))).
Proof.
  induction rest as [|item rest IH]; intros prefix seen acc Hseen.
  - simpl. by rewrite app_nil_r.
  - cbn [clean_loop length seq].
    pose proof (first_of_its_key_fresh prefix item rest seen Hseen) as Hfirst.
    assert (prefix ++ item :: rest = (prefix ++ [item]) ++ rest) as Happ
      by (by rewrite <- app_assoc).
    assert (S (length prefix) = length (prefix ++ [item])) as Hlen
      by (rewrite length_app; simpl; lia).
    destruct (decide (build_dedupe_key item ∈ seen)) as [Hin|Hnotin].
    + rewrite filter_cons_False by (rewrite Hfirst; tauto).
      rewrite Happ, Hlen. apply IH. intros k.
      rewrite fmap_app, elem_of_app, <- Hseen. simpl.
      rewrite list_elem_of_singleton. split; [tauto|]. by intros [?| ->].
    + rewrite filter_cons_True by (by apply Hfirst).
      rewrite cleaned_record_returns.
      cbn [omap list_omap]. rewrite list_lookup_middle by done. cbn [fmap option_fmap option_map].
      rewrite Happ, Hlen.
      rewrite (IH (prefix ++ [item]) ({[build_dedupe_key item]} ∪ seen)).
      * by rewrite <- app_assoc.
      * intros k. rewrite fmap_app, elem_of_app, <- Hseen. simpl.
        rewrite list_elem_of_singleton, elem_of_union, elem_of_singleton.
        tauto.
Qed.

(** The records [main] writes are those at the surviving positions. *)
Lemma main_surviving raw_items :
  main raw_items =
  Return (omap (λ j, clean_form <$> raw_items !! j)
               (surviving_positions raw_items)).
Proof.
  unfold main, surviving_positions.
  rewrite (clean_loop_spec raw_items [] ∅ []); [done|].
  intros k. simpl. rewrite elem_of_nil. set_solver.
Qed.

Lemma surviving_positions_elem raw_items j :
  j ∈ surviving_positions raw_items ↔ first_of_its_key raw_items j = true.
Proof.
  unfold surviving_positions. rewrite list_elem_of_filter, elem_of_seq.
  split; [tauto|]. intros Hj. split; [done|].
  unfold first_of_its_key in Hj. destruct (raw_items !! j) eqn:E; [|done].
  apply lookup_lt_Some in E. lia.
Qed.

Lemma surviving_positions_sorted raw_items :
  StronglySorted lt (surviving_positions raw_items).
Proof.
  unfold surviving_positions.
  generalize 0%nat. induction (length raw_items) as [|n IH]; intros k.
  - constructor.
  - cbn [seq].
    assert (Forall (lt k)
              (filter (λ j, first_of_its_key raw_items j = true) (seq (S k) n)))
      as Hgt.
    { apply Forall_forall.
      intros i [_ Hi%elem_of_seq]%list_elem_of_filter. lia. }
    destruct (decide (first_of_its_key raw_items k = true)).
    + rewrite filter_cons_True by done. apply StronglySorted_cons. auto.
    + rewrite filter_cons_False by done. apply IH.
Qed.

Lemma later_duplicate_dropped raw_items i j a b :
  (i < j)%nat → raw_items !! i = Some a → raw_items !! j = Some b →
  build_dedupe_key a = build_dedupe_key b →
  j ∉ surviving_positions raw_items.
Proof.
  intros Hij Ha Hb Hk. rewrite surviving_positions_elem.
  rewrite (first_of_its_key_spec _ _ b) by done.
  intros Hall. by apply (Hall i a).
Qed.

(** The key is made of its two parts, joined by "::". *)
Lemma build_dedupe_key_parts a :
  build_dedupe_key a
  = (dedup_components a).1 ++ py "::" ++ (dedup_components a).2.
Proof. done. Qed.

(** Two texts joined by "::" can be told apart again when the second
    has no colon. *)
Lemma joined_parts_inj (t1 p1 t2 p2 : list N) :
  58 ∉ p1 → 58 ∉ p2 →
  t1 ++ py "::" ++ p1 = t2 ++ py "::" ++ p2 → t1 = t2 ∧ p1 = p2.
Proof.
  intros H1 H2 Heq.
  assert (∀ (t q : list N), 58 ∉ q →
            take_while (λ c, negb (c =? 58)) (reverse (t ++ py "::" ++ q))
            = reverse q) as Htake.
  { intros t q Hq. rewrite !reverse_app. rewrite <- app_assoc.
    apply take_while_app.
    - intros x Hx. rewrite elem_of_reverse in Hx.
      apply negb_true_iff, N.eqb_neq. intros E. subst x. by apply Hq.
    - by vm_compute. }
  assert (reverse p1 = reverse p2) as Hp.
  { rewrite <- (Htake t1 p1 H1), <- (Htake t2 p2 H2). by rewrite Heq. }
  apply (f_equal reverse) in Hp. rewrite !reverse_involutive in Hp. subst p2.
  split; [|done]. by apply app_inv_tail in Heq.
Qed.

Lemma build_dedupe_key_inj a b :
  58 ∉ (dedup_components a).2 → 58 ∉ (dedup_components b).2 →
  build_dedupe_key a = build_dedupe_key b ↔ dedup_components a = dedup_components b.
Proof.
  intros Ha Hb. split; [|apply build_dedupe_key_components].
  rewrite !build_dedupe_key_parts. intros Heq.
  destruct (joined_parts_inj _ _ _ _ Ha Hb Heq) as [H1 H2].
  destruct (dedup_components a), (dedup_components b). simpl in *. congruence.
Qed.

End DedupFacts.

(** C3.  [main] returns, and the records it writes are the cleaned forms
    of the raw records at the surviving positions, in input order, each
    built from its own raw record alone.  A record survives exactly when no earlier record
    has its dedup key; so of two records that agree on the first 40
    characters of the lower-cased, trimmed title and on the trimmed raw
    price text, the later one is dropped.  The key is these two parts
    joined by "::"; where the price texts have no colon, two records have
    the same key exactly when they agree on both parts, so that a record
    survives exactly when no earlier record agrees with it on both. *)
Theorem dedup_first_survives `{UnicodeDB} (raw_items : list RawItem) :
  Normalizer.main raw_items
  = Return (omap (λ j, clean_form <$> raw_items !! j)
                 (surviving_positions raw_items))
  ∧ StronglySorted lt (surviving_positions raw_items)
  ∧ (∀ j b, raw_items !! j = Some b →
       ((j ∈ surviving_positions raw_items) ↔
        (∀ i a, (i < j)%nat → raw_items !! i = Some a →
                Normalizer.build_dedupe_key a ≠ Normalizer.build_dedupe_key b)))
  ∧ (∀ i j a b,
       (i < j)%nat → raw_items !! i = Some a → raw_items !! j = Some b →
       dedup_components a = dedup_components b →
       j ∉ surviving_positions raw_items)
  ∧ (∀ a : RawItem,
       Normalizer.build_dedupe_key a
       = take 40 (strip (lower (or_empty (item_title a))))
         ++ py "::" ++ strip (or_empty (listed_price a)))
  ∧ (∀ a b : RawItem,
       58 ∉ strip (or_empty (listed_price a)) →
       58 ∉ strip (or_empty (listed_price b)) →
       (Normalizer.build_dedupe_key a = Normalizer.build_dedupe_key b
        ↔ take 40 (strip (lower (or_empty (item_title a))))
          = take 40 (strip (lower (or_empty (item_title b))))
          ∧ strip (or_empty (listed_price a))
            = strip (or_empty (listed_price b))))
  ∧ ((∀ r, r ∈ raw_items → 58 ∉ strip (or_empty (listed_price r))) →
     ∀ j b, raw_items !! j = Some b →
       ((j ∈ surviving_positions raw_items) ↔
        (∀ i a, (i < j)%nat → raw_items !! i = Some a →
                dedup_components a ≠ dedup_components b))).
Proof.
  assert (∀ j b, raw_items !! j = Some b →
            ((j ∈ surviving_positions raw_items) ↔
             (∀ i a, (i < j)%nat → raw_items !! i = Some a →
                     Normalizer.build_dedupe_key a
                     ≠ Normalizer.build_dedupe_key b))) as Hsurv.
  { intros j b Hb. rewrite surviving_positions_elem.
    by apply first_of_its_key_spec. }
  split_and!.
  - apply main_surviving.
  - apply surviving_positions_sorted.
  - exact Hsurv.
  - intros i j a b Hij Ha Hb Hc.
    eauto using later_duplicate_dropped, build_dedupe_key_components.
  - done.
  - intros a b Ha Hb. rewrite (build_dedupe_key_inj a b Ha Hb).
    unfold dedup_components. split; [by intros [= -> ->]|by intros [-> ->]].
  - intros Hcolon j b Hb. rewrite (Hsurv j b Hb).
    assert (b ∈ raw_items) as Hbin by (by eapply list_elem_of_lookup_2).
    split; intros Hall i a Hij Ha.
    + rewrite <- build_dedupe_key_inj; [by eapply Hall| |]; apply Hcolon;
        [by eapply list_elem_of_lookup_2|done].
    + rewrite build_dedupe_key_inj; [by eapply Hall| |]; apply Hcolon;
        [by eapply list_elem_of_lookup_2|done].
Qed.



(** ** First occurrences *)

Section FirstOccurrences.
Context {A : Type} `{EqDecision A}.
Implicit Types l : list A.

Lemma first_occurrences_elem l x : x ∈ first_occurrences l ↔ x ∈ l.
Proof.
  induction l as [|y l IH]; [done|]. cbn [first_occurrences].
  rewrite !elem_of_cons, list_elem_of_filter, IH.
  destruct (decide (x = y)); tauto.
Qed.

Lemma first_occurrences_NoDup l : NoDup (first_occurrences l).
Proof.
  induction l as [|y l IH]; [constructor|]. cbn [first_occurrences].
  apply NoDup_cons. split; [|by apply NoDup_filter].
  rewrite list_elem_of_filter. tauto.
Qed.

Lemma first_occurrences_filter (P : A → Prop) `{∀ x, Decision (P x)} l :
  filter P (first_occurrences l) = first_occurrences (filter P l).
Proof.
  induction l as [|y l IH]; [done|]. cbn [first_occurrences].
  destruct (decide (P y)).
  - rewrite !filter_cons_True by done. cbn [first_occurrences]. f_equal.
    rewrite <- IH, !list_filter_filter. apply list_filter_iff. tauto.
  - rewrite !filter_cons_False by done. rewrite <- IH.
    apply list_filter_filter_l. by intros x ? ->.
Qed.

Lemma first_occurrences_sublist l : sublist (first_occurrences l) l.
Proof.
  induction l as [|y l IH]; [done|]. cbn [first_occurrences].
  apply sublist_skip. etrans; [apply sublist_filter|done].
Qed.

(** The fold behind [dict.fromkeys] keeps what it has and appends the new
    keys at their first occurrence. *)
Lemma fromkeys_fold l : ∀ keys,
  foldl (λ keys k, if decide (k ∈ keys) then keys else keys ++ [k]) keys l
  = keys ++ filter (λ y, y ∉ keys) (first_occurrences l).
Proof.
  induction l as [|x l IH]; intros keys.
  - by rewrite app_nil_r.
  - cbn [foldl first_occurrences]. rewrite IH. destruct (decide (x ∈ keys)).
    + rewrite filter_cons_False by tauto. f_equal.
      symmetry. apply list_filter_filter_l. by intros y ? ->.
    + rewrite filter_cons_True by done. rewrite <- app_assoc. cbn [app].
      do 2 f_equal. rewrite list_filter_filter. apply list_filter_iff.
      intros y. rewrite elem_of_app, list_elem_of_singleton. tauto.
Qed.

End FirstOccurrences.

(** ** Image extraction *)

Section ImageFacts.
Import Scraper.

Lemma dict_fromkeys_first_occurrences l : dict_fromkeys l = first_occurrences l.
Proof.
  unfold dict_fromkeys. rewrite fromkeys_fold. simpl.
  induction (first_occurrences l) as [|x k IH]; [done|].
  rewrite filter_cons_True by apply not_elem_of_nil. by f_equal.
Qed.

Lemma image_loop_candidates tags : ∀ image_urls,
  image_loop tags image_urls
  = image_urls ++ filter (λ u, contains IMAGE_CDN u = true) (omap image_source tags).
Proof.
  induction tags as [|img tags IH]; intros image_urls.
  - by rewrite app_nil_r.
  - cbn [image_loop omap list_omap]. unfold image_source at 1.
    destruct (truthy (py_or (src img) (data_src img))); cbn [negb]; [|apply IH].
    set (s := if starts_with _ _ then _ else _).
    destruct (contains IMAGE_CDN s) eqn:E.
    + rewrite filter_cons_True by done. rewrite IH, <- app_assoc. done.
    + rewrite filter_cons_False by (by rewrite E). apply IH.
Qed.

Lemma extract_images_candidates page :
  extract_images page = take 5 (first_occurrences (image_candidates page)).
Proof.
  unfold extract_images. rewrite image_loop_candidates.
  by rewrite dict_fromkeys_first_occurrences.
Qed.

Lemma extract_images_elem page u :
  u ∈ extract_images page → u ∈ image_candidates page.
Proof.
  rewrite extract_images_candidates. intros Hu.
  apply first_occurrences_elem. eapply elem_of_sublist; [done|].
  apply sublist_take.
Qed.


End ImageFacts.

(** ** The host of a URL *)

Lemma infix_refl s : infix s s.
Proof. exists [], []. by rewrite app_nil_r. Qed.











(** C9.  The image list of a page is made of the first occurrences of the
    candidate sources, in document order, cut after five: it has no
    duplicates and at most five entries.  A protocol-relative source enters
    the candidates with [https:] in front.  Of eight CDN images of which
    two repeat an earlier one, the first five distinct ones are kept. *)
Theorem image_list_construction :
  (∀ page : Scraper.ItemPage,
     Scraper.extract_images page
     = take 5 (first_occurrences (image_candidates page))
     ∧ NoDup (Scraper.extract_images page)
     ∧ (length (Scraper.extract_images page) ≤ 5)%nat
     ∧ sublist (Scraper.extract_images page) (image_candidates page))
  ∧ (∀ (img : Scraper.Img) (s : str),
       Scraper.py_or (Scraper.src img) (Scraper.data_src img) = Some s →
       starts_with (py "//") s = true →
       image_source img = Some (py "https:" ++ s))
  ∧ Scraper.extract_images eight_images
    = [ cdn "chair-1.jpg"; cdn "chair-2.jpg"; cdn "chair-3.jpg";
        cdn "chair-4.jpg"; cdn "chair-5.jpg" ].
Proof.
  split; [|split].
  - intros page. rewrite extract_images_candidates.
    split; [done|]. split; [|split].
    + eapply sublist_NoDup; [apply first_occurrences_NoDup|apply sublist_take].
    + rewrite length_take. lia.
    + etrans; [apply sublist_take|apply first_occurrences_sublist].
  - intros img s Hs Hrel. unfold image_source. rewrite Hs.
    destruct s as [|c s]; [done|]. cbn [truthy or_empty]. by rewrite Hrel.
  - by vm_compute.
Qed.

(** ** Discoverable items *)

Section DiscoverableFacts.
Import Scraper.
Context (site : Site).
Implicit Types (link : option (list N)) (links : list (option (list N))).
Implicit Types (u : list N).

Lemma discoverable_in_nil (V : gset (list N)) : discoverable_in site [] V = [].
Proof. done. Qed.

Lemma discoverable_in_skip link links (V : gset (list N)) :
  link_url link = None →
  discoverable_in site (link :: links) V = discoverable_in site links V.
Proof. intros Hl. unfold discoverable_in. cbn [omap list_omap]. by rewrite Hl. Qed.

Lemma discoverable_in_visited link links (V : gset (list N)) u :
  link_url link = Some u → u ∈ V →
  discoverable_in site (link :: links) V = discoverable_in site links V.
Proof.
  intros Hl Hu. unfold discoverable_in. cbn [omap list_omap]. rewrite Hl.
  by rewrite filter_cons_False by tauto.
Qed.

Lemma discoverable_in_new link links (V : gset (list N)) u :
  link_url link = Some u → u ∉ V →
  discoverable_in site (link :: links) V
  = (match item site u with Some _ => [u] | None => [] end)
    ++ discoverable_in site links ({[u]} ∪ V).
Proof.
  intros Hl Hu. unfold discoverable_in. cbn [omap list_omap]. rewrite Hl.
  rewrite filter_cons_True by done. cbn [first_occurrences].
  rewrite first_occurrences_filter, list_filter_filter.
  rewrite (list_filter_iff (λ x, x ≠ u ∧ x ∉ V)
                           (λ x, x ∉ ({[u]} ∪ V : gset (list N)))).
  2:{ intros x. rewrite elem_of_union, elem_of_singleton. tauto. }
  destruct (item site u) eqn:E.
  - by rewrite filter_cons_True by (by rewrite E).
  - by rewrite filter_cons_False by (rewrite E; by intros [? ?]).
Qed.

Lemma discoverable_in_app links1 links2 (V : gset (list N)) :
  discoverable_in site (links1 ++ links2) V
  = discoverable_in site links1 V
    ++ discoverable_in site links2 (list_to_set (omap link_url links1) ∪ V).
Proof.
  revert V. induction links1 as [|link links1 IH]; intros V.
  - cbn. by rewrite (left_id_L ∅ (∪)).
  - cbn [app]. destruct (link_url link) as [u|] eqn:Hl.
    + cbn [omap list_omap]. rewrite Hl. cbn [list_to_set].
      destruct (decide (u ∈ V)).
      * rewrite !(discoverable_in_visited _ _ _ u) by done. rewrite IH.
        do 2 f_equal. set_ext. intuition (subst; tauto).
      * rewrite !(discoverable_in_new _ _ _ u) by done. rewrite IH, <- app_assoc.
        do 3 f_equal. set_ext. intuition (subst; tauto).
    + rewrite !discoverable_in_skip by done. cbn [omap list_omap].
      rewrite Hl. apply IH.
Qed.

Lemma discoverable_in_fetchable links (V : gset (list N)) u :
  u ∈ discoverable_in site links V → is_Some (item site u).
Proof. unfold discoverable_in. rewrite list_elem_of_filter. tauto. Qed.

End DiscoverableFacts.

(** ** The link loop *)

Section LinkLoop.
Import Scraper.
Context (site : Site).
Implicit Types (link : option (list N)) (links : list (option (list N))).
Implicit Types (u : list N) (urls : list (list N)) (st : State).

#[local] Arguments MAX_ITEMS_PER_CATEGORY : simpl never.
#[local] Arguments discoverable_in : simpl never.

Lemma link_url_some link :
  truthy link = true → link_url link = Some (BASE_SITE_URL ++ or_empty link).
Proof. unfold link_url. by intros ->. Qed.

Lemma link_url_none link : truthy link = false → link_url link = None.
Proof. unfold link_url. by intros ->. Qed.

Lemma visits_cons name u urls :
  visits name (u :: urls)
  = MarkVisited name u :: FetchItem name u :: visits name urls.
Proof. done. Qed.

Lemma visits_app name urls1 urls2 :
  visits name (urls1 ++ urls2) = visits name urls1 ++ visits name urls2.
Proof. unfold visits. apply bind_app. Qed.

Lemma last_cons_some {A} (x y : A) (l : list A) :
  last l = Some y → last (x :: l) = Some y.
Proof. destruct l; [done|]. by rewrite last_cons_cons. Qed.

(** What one run of the link loop does: it visits some item URLs [urls],
    new and pairwise distinct, and collects the records of those whose
    page can be fetched; these are the first discoverable items of the
    links, as many as the cap leaves room for. *)
Lemma link_loop_visits name links : ∀ st n st' n',
  link_loop site name links st n = (st', n') →
  (n ≤ MAX_ITEMS_PER_CATEGORY)%nat →
  ∃ urls,
    trace st' = trace st ++ visits name urls
    ∧ visited_item_urls st' = list_to_set urls ∪ visited_item_urls st
    ∧ collected_items st' = collected_items st ++ omap (record_of site name) urls
    ∧ n' = (n + length (omap (record_of site name) urls))%nat
    ∧ (n' ≤ MAX_ITEMS_PER_CATEGORY)%nat
    ∧ NoDup urls
    ∧ (∀ u, u ∈ urls → (u ∉ visited_item_urls st) ∧ (u ∈ omap link_url links))
    ∧ filter (λ u, is_Some (item site u)) urls
      = take (MAX_ITEMS_PER_CATEGORY - n)
             (discoverable_in site links (visited_item_urls st))
    ∧ ((n' < MAX_ITEMS_PER_CATEGORY)%nat →
       ∀ u, u ∈ omap link_url links → u ∈ urls ∨ u ∈ visited_item_urls st)
    ∧ ((MAX_ITEMS_PER_CATEGORY ≤ n)%nat → urls = [])
    ∧ ((n < MAX_ITEMS_PER_CATEGORY)%nat → n' = MAX_ITEMS_PER_CATEGORY →
       ∃ u, last urls = Some u ∧ is_Some (item site u)).
Proof.
  induction links as [|link links IH]; intros st n st' n' Hloop Hn.
  { injection Hloop as <- <-. exists []. cbn.
    rewrite !app_nil_r, (left_id_L ∅ (∪)), discoverable_in_nil, take_nil.
    split_and!; try done; try lia.
    - constructor.
    - by intros ? ?%elem_of_nil.
    - by intros ? ? ?%elem_of_nil. }
  cbn [link_loop] in Hloop.
  destruct (MAX_ITEMS_PER_CATEGORY <=? n)%nat eqn:Hcap.
  { apply Nat.leb_le in Hcap. injection Hloop as <- <-. exists []. cbn.
    rewrite !app_nil_r, (left_id_L ∅ (∪)).
    replace (MAX_ITEMS_PER_CATEGORY - n)%nat with 0%nat by lia.
    split_and!; try done; try lia.
    - constructor.
    - by intros ? ?%elem_of_nil. }
  apply Nat.leb_gt in Hcap.
  destruct (truthy link) eqn:Ht; cbn [negb] in Hloop.
  2:{ apply IH in Hloop as (urls & ? & ? & ? & ? & ? & ? & Hin & ? & Hall & ? & ?);
        [|done].
      pose proof (link_url_none _ Ht) as Hl.
      exists urls. rewrite discoverable_in_skip by done.
      cbn [omap list_omap]. rewrite Hl. by split_and!. }
  pose proof (link_url_some _ Ht) as Hl.
  set (u0 := BASE_SITE_URL ++ or_empty link) in *.
  destruct (decide (u0 ∈ visited_item_urls st)) as [Hvis|Hnew].
  { apply IH in Hloop as (urls & ? & ? & ? & ? & ? & ? & Hin & ? & Hall & ? & ?);
      [|done].
    exists urls. rewrite (discoverable_in_visited _ _ _ _ u0) by done.
    cbn [omap list_omap]. rewrite Hl.
    split_and!; try done.
    - intros u Hu. split; [by apply Hin|].
      apply elem_of_cons. right. by apply Hin.
    - intros Hlt u [->|Hu]%elem_of_cons; [by right|by apply Hall]. }
  rewrite (discoverable_in_new _ _ _ _ u0) by done.
  destruct (item site u0) as [page|] eqn:Hitem.
  - apply IH in Hloop
      as (urls & Htr & Hv & Hc & Hn' & Hle & Hnd & Hin & Hf & Hall & Hnil & Hlast);
      [|lia].
    cbn in Htr, Hv, Hc, Hin, Hf, Hall.
    exists (u0 :: urls). cbn [omap list_omap]. rewrite Hl.
    assert (record_of site name u0 = Some (extract_record u0 name page)) as Hrec
      by (unfold record_of; by rewrite Hitem).
    rewrite Hrec. cbn [length]. split_and!.
    + rewrite Htr, visits_cons, <- !app_assoc. done.
    + rewrite Hv. set_ext. tauto.
    + rewrite Hc, <- app_assoc. done.
    + lia.
    + done.
    + apply NoDup_cons. split; [|done]. intros Hu0%Hin.
      destruct Hu0 as [Hu0 _]. apply Hu0, elem_of_union. left.
      by apply elem_of_singleton.
    + intros u [->|Hu%Hin]%elem_of_cons.
      * split; [done|]. apply elem_of_cons. auto.
      * destruct Hu as [Hu ?]. split; [|apply elem_of_cons; auto].
        intros ?. apply Hu, elem_of_union. by right.
    + rewrite filter_cons_True by (by rewrite Hitem). rewrite Hf.
      replace (MAX_ITEMS_PER_CATEGORY - n)%nat
        with (S (MAX_ITEMS_PER_CATEGORY - S n)) by lia.
      done.
    + intros Hlt u [->|Hu]%elem_of_cons; [left; apply elem_of_cons; auto|].
      destruct (Hall Hlt u Hu) as [?|[->%elem_of_singleton|?]%elem_of_union];
        [left|left|right]; try done; apply elem_of_cons; auto.
    + lia.
    + intros _ Hmax.
      destruct (decide (S n < MAX_ITEMS_PER_CATEGORY)%nat) as [Hlt|Hge].
      * destruct (Hlast Hlt Hmax) as (u & Hu & Hsome).
        exists u. split; [by apply last_cons_some|done].
      * rewrite Hnil by lia. exists u0. split; [done|]. by rewrite Hitem.
  - apply IH in Hloop
      as (urls & Htr & Hv & Hc & Hn' & Hle & Hnd & Hin & Hf & Hall & Hnil & Hlast);
      [|lia].
    cbn in Htr, Hv, Hc, Hin, Hf, Hall.
    exists (u0 :: urls). cbn [omap list_omap]. rewrite Hl.
    assert (record_of site name u0 = None) as Hrec
      by (unfold record_of; by rewrite Hitem).
    rewrite Hrec. split_and!.
    + rewrite Htr, visits_cons, <- !app_assoc. done.
    + rewrite Hv. set_ext. tauto.
    + done.
    + done.
    + done.
    + apply NoDup_cons. split; [|done]. intros Hu0%Hin.
      destruct Hu0 as [Hu0 _]. apply Hu0, elem_of_union. left.
      by apply elem_of_singleton.
    + intros u [->|Hu%Hin]%elem_of_cons.
      * split; [done|]. apply elem_of_cons. auto.
      * destruct Hu as [Hu ?]. split; [|apply elem_of_cons; auto].
        intros ?. apply Hu, elem_of_union. by right.
    + rewrite filter_cons_False by (rewrite Hitem; by intros [? ?]). done.
    + intros Hlt u [->|Hu]%elem_of_cons; [left; apply elem_of_cons; auto|].
      destruct (Hall Hlt u Hu) as [?|[->%elem_of_singleton|?]%elem_of_union];
        [left|left|right]; try done; apply elem_of_cons; auto.
    + lia.
    + intros Hlt Hmax. destruct (Hlast Hlt Hmax) as (u & Hu & Hsome).
      exists u. split; [by apply last_cons_some|done].
Qed.

End LinkLoop.

(** ** The page loop *)

Section PageLoop.
Import Scraper.
Context (site : Site).
Implicit Types (link : option (list N)) (links : list (option (list N))).
Implicit Types (u : list N) (urls : list (list N)) (st : State).

#[local] Arguments MAX_ITEMS_PER_CATEGORY : simpl never.
#[local] Arguments MAX_PAGES_TO_SCAN : simpl never.
#[local] Arguments discoverable_in : simpl never.

Lemma omap_record_of_filter name urls :
  omap (record_of site name) urls
  = omap (record_of site name) (filter (λ u, is_Some (item site u)) urls).
Proof.
  induction urls as [|u urls IH]; [done|]. cbn [omap list_omap].
  destruct (item site u) as [page|] eqn:E.
  - assert (record_of site name u = Some (extract_record u name page)) as Hr
      by (unfold record_of; by rewrite E).
    rewrite filter_cons_True by (cbv beta; by rewrite E).
    cbn [omap list_omap]. rewrite !Hr. by f_equal.
  - assert (record_of site name u = None) as Hr
      by (unfold record_of; by rewrite E).
    rewrite filter_cons_False by (cbv beta; rewrite E; by intros [? ?]).
    by rewrite Hr.
Qed.

Lemma length_omap_record_of name urls :
  (∀ u, u ∈ urls → is_Some (item site u)) →
  length (omap (record_of site name) urls) = length urls.
Proof.
  induction urls as [|u urls IH]; intros Hall; [done|]. cbn [omap list_omap].
  destruct (Hall u) as [page E]; [apply elem_of_cons; auto|].
  unfold record_of at 1. rewrite E. cbn. f_equal. apply IH.
  intros ? ?. apply Hall, elem_of_cons. auto.
Qed.

Lemma source_url_omap_record_of name urls :
  (∀ u, u ∈ urls → is_Some (item site u)) →
  source_url <$> omap (record_of site name) urls = Some <$> urls.
Proof.
  induction urls as [|u urls IH]; intros Hall; [done|]. cbn [omap list_omap].
  destruct (Hall u) as [page E]; [apply elem_of_cons; auto|].
  unfold record_of at 1. rewrite E. cbn. f_equal. apply IH.
  intros ? ?. apply Hall, elem_of_cons. auto.
Qed.

Lemma category_omap_record_of name urls r :
  r ∈ omap (record_of site name) urls → category r = Some name.
Proof.
  intros (u & _ & Hr)%list_elem_of_omap. unfold record_of in Hr.
  destruct (item site u); [|done]. by injection Hr as <-.
Qed.

Lemma last_filter {A} (P : A → Prop) `{∀ x, Decision (P x)} (l : list A) x :
  last l = Some x → P x → last (filter P l) = Some x.
Proof.
  intros Hl HP. destruct l as [|y l _] using rev_ind; [done|].
  rewrite last_snoc in Hl. injection Hl as ->.
  by rewrite filter_app, filter_cons_True, filter_nil, last_snoc.
Qed.

Lemma last_visits name urls u :
  last urls = Some u → last (visits name urls) = Some (FetchItem name u).
Proof.
  destruct urls as [|y l _] using rev_ind; [done|].
  rewrite last_snoc. intros [= ->]. rewrite visits_app.
  change (visits name [u]) with [MarkVisited name u; FetchItem name u].
  by rewrite last_app_cons.
Qed.

Lemma page_loop_done fuel name path p st n :
  (MAX_ITEMS_PER_CATEGORY ≤ n)%nat →
  page_loop site fuel name path p st n = (st, Finished).
Proof.
  intros Hn. destruct fuel; cbn [page_loop];
    by rewrite (proj2 (Nat.ltb_ge _ _) Hn).
Qed.

Lemma take_full {A} (l : list A) k :
  (length (take k l) < k)%nat → take k l = l.
Proof. rewrite length_take. intros ?. apply take_ge. lia. Qed.

(** When enough items are discoverable the walk ends with the cap
    reached, having collected the first ones. *)
Lemma page_loop_cap name path : ∀ fuel p st n,
  (n ≤ MAX_ITEMS_PER_CATEGORY)%nat →
  (p + fuel = MAX_PAGES_TO_SCAN + 1)%nat →
  let found :=
    discoverable_in site (scanned_links site path fuel p) (visited_item_urls st) in
  (MAX_ITEMS_PER_CATEGORY - n ≤ length found)%nat →
  ∃ st',
    page_loop site fuel name path p st n = (st', Finished)
    ∧ collected_items st'
      = collected_items st
        ++ omap (record_of site name) (take (MAX_ITEMS_PER_CATEGORY - n) found)
    ∧ ((n < MAX_ITEMS_PER_CATEGORY)%nat →
       ∃ u, last (take (MAX_ITEMS_PER_CATEGORY - n) found) = Some u
            ∧ last (trace st') = Some (FetchItem name u)).
Proof.
  induction fuel as [|fuel IH]; intros p st n Hn Hp found Hfound.
  { subst found. cbn [scanned_links] in *.
    rewrite discoverable_in_nil in *. cbn [length] in Hfound.
    assert (n = MAX_ITEMS_PER_CATEGORY) as -> by lia.
    exists st. rewrite page_loop_done by done.
    rewrite take_nil, app_nil_r. split_and!; [done|done|lia]. }
  destruct (decide (n < MAX_ITEMS_PER_CATEGORY)%nat) as [Hlt|Hge].
  2:{ exists st. rewrite page_loop_done by lia.
      replace (MAX_ITEMS_PER_CATEGORY - n)%nat with 0%nat by lia.
      rewrite take_0, app_nil_r. split_and!; [done|done|lia]. }
  cbn [page_loop].
  rewrite (proj2 (Nat.ltb_lt _ _) Hlt), (proj2 (Nat.leb_le p _)) by lia.
  cbn [andb]. subst found. cbn [scanned_links] in *.
  destruct (listing site path p) as [[|link links]|] eqn:Hpage;
    [rewrite discoverable_in_nil in Hfound; cbn [length] in Hfound; lia| |
     rewrite discoverable_in_nil in Hfound; cbn [length] in Hfound; lia].
  set (st0 := log (FetchPage name p) st).
  destruct (link_loop site name (link :: links) st0 n) as [st1 n1] eqn:Hloop.
  destruct (link_loop_visits site name _ _ _ _ _ Hloop Hn)
    as (urls & Htr & Hv & Hc & Hn1 & Hle & Hnd & Hin & Hf & Hall & _ & Hlast).
  change (visited_item_urls st0) with (visited_item_urls st) in *.
  change (collected_items st0) with (collected_items st) in *.
  rewrite discoverable_in_app in *.
  set (found1 := discoverable_in site (link :: links) (visited_item_urls st)) in *.
  set (found2 := discoverable_in site _ (_ ∪ visited_item_urls st)) in *.
  rewrite omap_record_of_filter, Hf in Hc, Hn1.
  assert (length (omap (record_of site name)
                       (take (MAX_ITEMS_PER_CATEGORY - n) found1))
          = length (take (MAX_ITEMS_PER_CATEGORY - n) found1)) as Hlen.
  { apply length_omap_record_of. intros u Hu.
    apply (discoverable_in_fetchable site (link :: links) (visited_item_urls st)).
    eapply elem_of_sublist; [done|apply sublist_take]. }
  rewrite Hlen in Hn1.
  destruct (decide (n1 < MAX_ITEMS_PER_CATEGORY)%nat) as [Hlt1|Hge1].
  - assert (take (MAX_ITEMS_PER_CATEGORY - n) found1 = found1) as Hall1
      by (apply take_full; lia).
    rewrite Hall1 in *.
    assert (list_to_set (omap link_url (link :: links)) ∪ visited_item_urls st
            = visited_item_urls st1) as Hvis.
    { rewrite Hv. apply set_eq. intros x.
      rewrite !elem_of_union, !elem_of_list_to_set. split.
      - intros [Hx|Hx]; [|by right]. destruct (Hall Hlt1 x Hx); auto.
      - intros [Hx%Hin|Hx]; [left; tauto|by right]. }
    subst found2. rewrite Hvis in *.
    destruct (IH (S p) st1 n1) as (st' & Hrun & Hc' & Hlast'); [done|lia| |].
    { rewrite length_app in Hfound. lia. }
    exists st'. split_and!; [done| |].
    + rewrite Hc', Hc, take_app, omap_app, <- app_assoc.
      rewrite (take_ge found1) by lia.
      by replace (MAX_ITEMS_PER_CATEGORY - n - length found1)%nat
        with (MAX_ITEMS_PER_CATEGORY - n1)%nat by lia.
    + intros _. destruct (Hlast' Hlt1) as (u & Hu & Htrace).
      exists u. split; [|done]. rewrite take_app, (take_ge found1) by lia.
      replace (MAX_ITEMS_PER_CATEGORY - n - length found1)%nat
        with (MAX_ITEMS_PER_CATEGORY - n1)%nat by lia.
      rewrite last_app, Hu. done.
  - assert (n1 = MAX_ITEMS_PER_CATEGORY) as Hmax by lia.
    exists st1. rewrite page_loop_done by lia.
    assert (take (MAX_ITEMS_PER_CATEGORY - n) (found1 ++ found2)
            = take (MAX_ITEMS_PER_CATEGORY - n) found1) as ->.
    { apply take_app_le. rewrite length_take in Hn1. lia. }
    split_and!; [done|done|]. intros _.
    destruct (Hlast Hlt Hmax) as (u & Hu & Hsome). exists u. split.
    + rewrite <- Hf. by apply last_filter.
    + rewrite Htr. rewrite last_app, (last_visits _ _ _ Hu). done.
Qed.

End PageLoop.

(** C6.  When the listing pages a walk can reach expose at least as many
    discoverable items as the cap (30), the walk of the category ends
    normally with exactly that many new records: those of the first
    discoverable items, in page order then link order, each tagged with the
    category; and the fetch of the last of them is the last thing the walk
    does. *)
Theorem cap_enforcement (site : Scraper.Site) (name path : str)
    (st : Scraper.State) :
  (Scraper.MAX_ITEMS_PER_CATEGORY
   ≤ length (discoverable site path (Scraper.visited_item_urls st)))%nat →
  ∃ (st' : Scraper.State) (records : list RawItem) (u : str),
    Scraper.category_walk site name path st = (st', Scraper.Finished)
    ∧ Scraper.collected_items st' = Scraper.collected_items st ++ records
    ∧ length records = 30%nat
    ∧ source_url <$> records
      = Some <$> take 30 (discoverable site path (Scraper.visited_item_urls st))
    ∧ (∀ r, r ∈ records → category r = Some name)
    ∧ last (take 30 (discoverable site path (Scraper.visited_item_urls st)))
      = Some u
    ∧ last (Scraper.trace st') = Some (Scraper.FetchItem name u).
Proof.
  intros Hfound. unfold Scraper.category_walk.
  destruct (page_loop_cap site name path Scraper.MAX_PAGES_TO_SCAN 1 st 0)
    as (st' & Hrun & Hc & Hlast); [unfold Scraper.MAX_ITEMS_PER_CATEGORY; lia|lia| |].
  { fold (discoverable site path (Scraper.visited_item_urls st)). lia. }
  fold (discoverable site path (Scraper.visited_item_urls st)) in Hc, Hlast.
  rewrite Nat.sub_0_r in Hc, Hlast.
  destruct Hlast as (u & Hu & Htrace); [unfold Scraper.MAX_ITEMS_PER_CATEGORY; lia|].
  set (found := take Scraper.MAX_ITEMS_PER_CATEGORY
                     (discoverable site path (Scraper.visited_item_urls st))) in *.
  assert (∀ u, u ∈ found → is_Some (Scraper.item site u)) as Hfetch.
  { intros x Hx. eapply discoverable_in_fetchable.
    eapply elem_of_sublist; [exact Hx|apply sublist_take]. }
  exists st', (omap (record_of site name) found), u. split_and!; try done.
  - rewrite length_omap_record_of by done. unfold found.
    rewrite length_take. unfold Scraper.MAX_ITEMS_PER_CATEGORY in *. lia.
  - by apply source_url_omap_record_of.
  - intros r. apply category_omap_record_of.
Qed.

Lemma cap_enforcement_witness :
  length (discoverable fifty_items furniture_path ∅) = 50%nat
  ∧ ∃ (st' : Scraper.State) (records : list RawItem) (u : str),
      Scraper.category_walk fifty_items (py "Furniture") furniture_path
                            Scraper.initial_state
      = (st', Scraper.Finished)
      ∧ Scraper.collected_items st' = [] ++ records
      ∧ length records = 30%nat
      ∧ source_url <$> records
        = Some <$> take 30 (discoverable fifty_items furniture_path ∅)
      ∧ (∀ r, r ∈ records → category r = Some (py "Furniture"))
      ∧ last (take 30 (discoverable fifty_items furniture_path ∅)) = Some u
      ∧ last (Scraper.trace st') = Some (Scraper.FetchItem (py "Furniture") u).
Proof.
  split; [by vm_compute|].
  apply (cap_enforcement fifty_items (py "Furniture") furniture_path
                         Scraper.initial_state).
  vm_compute. lia.
Defined.

(** ** The listing pages of a walk *)

Section Pages.
Import Scraper.
Context (site : Site).
Implicit Types (u : list N) (urls : list (list N)) (st : State).

#[local] Arguments MAX_ITEMS_PER_CATEGORY : simpl never.
#[local] Arguments MAX_PAGES_TO_SCAN : simpl never.

Lemma visits_no_page name urls c m : FetchPage c m ∉ visits name urls.
Proof.
  induction urls as [|u urls IH]; [apply not_elem_of_nil|].
  rewrite visits_cons, !not_elem_of_cons. done.
Qed.

(** The listing pages of a walk are fetched in order, each after a page
    with links; an empty page is the last thing the walk fetches; and the
    walk crashes only on a page that cannot be fetched. *)
Lemma page_loop_pages name path : ∀ fuel p st n st' status,
  page_loop site fuel name path p st n = (st', status) →
  (n ≤ MAX_ITEMS_PER_CATEGORY)%nat →
  ∃ evs,
    trace st' = trace st ++ evs
    ∧ (∀ c m, FetchPage c m ∈ evs →
         c = name ∧ (p ≤ m)%nat
         ∧ ∀ q, (p ≤ q < m)%nat →
                ∃ link links, listing site path q = Some (link :: links))
    ∧ (∀ m, FetchPage name m ∈ evs → listing site path m = Some [] →
         last evs = Some (FetchPage name m))
    ∧ (status = Crashed →
       ∃ m, FetchPage name m ∈ evs ∧ listing site path m = None)
    ∧ (status = OutOfFuel → (p + fuel ≤ MAX_PAGES_TO_SCAN)%nat).
Proof.
  induction fuel as [|fuel IH]; intros p st n st' status Hrun Hn;
    cbn [page_loop] in Hrun;
    destruct ((n <? MAX_ITEMS_PER_CATEGORY)%nat
              && (p <=? MAX_PAGES_TO_SCAN)%nat) eqn:Hcond.
  - apply andb_prop in Hcond as [_ Hp%Nat.leb_le].
    injection Hrun as <- <-. exists []. rewrite app_nil_r.
    split_and!; try done; try (by intros ? ? ?%elem_of_nil);
      try (by intros ? ?%elem_of_nil). intros _. lia.
  - injection Hrun as <- <-. exists []. rewrite app_nil_r.
    split_and!; try done; try (by intros ? ? ?%elem_of_nil);
      by intros ? ?%elem_of_nil.
  - destruct (listing site path p) as [[|link links]|] eqn:Hpage.
    + injection Hrun as <- <-. exists [FetchPage name p].
      split_and!; try done.
      * intros c m [= -> ->]%list_elem_of_singleton. split_and!; [done|lia|].
        intros q ?. lia.
      * by intros m [= ->]%list_elem_of_singleton _.
    + destruct (link_loop site name (link :: links)
                  (log (FetchPage name p) st) n) as [st1 n1] eqn:Hloop.
      destruct (link_loop_visits site name _ _ _ _ _ Hloop Hn)
        as (urls & Htr & _ & _ & _ & Hle & _).
      apply IH in Hrun as (evs & Htr' & Hpages & Hempty & Hcrash & Hfuel);
        [|done].
      exists (FetchPage name p :: visits name urls ++ evs).
      split_and!.
      * rewrite Htr', Htr. cbn [log trace]. by rewrite <- !app_assoc.
      * intros c m [[= -> ->]|[Hv|Hm]%elem_of_app]%elem_of_cons.
        -- split_and!; [done|lia|]. intros q ?. lia.
        -- by apply visits_no_page in Hv.
        -- destruct (Hpages c m Hm) as (-> & Hle' & Hq).
           split_and!; [done|lia|]. intros q Hrange.
           destruct (decide (q = p)) as [->|]; [eauto|]. apply Hq. lia.
      * intros m [[= ->]|[Hv|Hm]%elem_of_app]%elem_of_cons Hnone.
        -- congruence.
        -- by apply visits_no_page in Hv.
        -- rewrite (last_cons_some _ (FetchPage name m)); [done|].
           rewrite last_app, (Hempty m Hm Hnone). done.
      * intros Hst. destruct (Hcrash Hst) as (m & Hm & Hnone).
        exists m. split; [|done]. apply elem_of_cons. right.
        apply elem_of_app. by right.
      * intros Hst. specialize (Hfuel Hst). lia.
    + injection Hrun as <- <-. exists [FetchPage name p].
      split_and!; try done.
      * intros c m [= -> ->]%list_elem_of_singleton. split_and!; [done|lia|].
        intros q ?. lia.
      * intros m [= ->]%list_elem_of_singleton ?. congruence.
      * intros _. exists p. split; [|done]. by apply list_elem_of_singleton.
  - injection Hrun as <- <-. exists []. rewrite app_nil_r.
    split_and!; try done; try (by intros ? ? ?%elem_of_nil);
      by intros ? ?%elem_of_nil.
Qed.

End Pages.

(** C7.  A listing page without item links ends the walk of its category:
    no page after it is fetched, the walk ends normally when it reaches
    that page, and fetching it is then the last thing the walk does.  The
    walk never runs out of fuel. *)
Theorem empty_page_stops_walk (site : Scraper.Site) (name path : str)
    (st : Scraper.State) (k : nat) :
  (1 ≤ k)%nat → Scraper.listing site path k = Some [] →
  ∃ (st' : Scraper.State) (status : Scraper.status) (evs : list Scraper.event),
    Scraper.category_walk site name path st = (st', status)
    ∧ Scraper.trace st' = Scraper.trace st ++ evs
    ∧ status ≠ Scraper.OutOfFuel
    ∧ (∀ m, Scraper.FetchPage name m ∈ evs → (m ≤ k)%nat)
    ∧ (Scraper.FetchPage name k ∈ evs →
       status = Scraper.Finished
       ∧ last evs = Some (Scraper.FetchPage name k)).
Proof.
  intros Hk Hempty. unfold Scraper.category_walk.
  destruct (Scraper.page_loop site Scraper.MAX_PAGES_TO_SCAN name path 1 st 0)
    as [st' status] eqn:Hrun.
  destruct (page_loop_pages site name path _ _ _ _ _ _ Hrun)
    as (evs & Htr & Hpages & Hlast & Hcrash & Hfuel);
    [unfold Scraper.MAX_ITEMS_PER_CATEGORY; lia|].
  assert (∀ m, Scraper.FetchPage name m ∈ evs → (m ≤ k)%nat) as Hbound.
  { intros m Hm. destruct (Hpages _ _ Hm) as (_ & _ & Hq).
    destruct (decide (m ≤ k)%nat); [done|].
    destruct (Hq k) as (? & ? & ?); [lia|congruence]. }
  exists st', status, evs. split_and!; try done.
  - intros ->. specialize (Hfuel eq_refl). lia.
  - intros Hin. split; [|by apply Hlast].
    destruct status; [done| |].
    + destruct Hcrash as (m & Hm & Hnone); [done|].
      destruct (Hpages _ _ Hin) as (_ & _ & Hq).
      specialize (Hbound m Hm).
      destruct (decide (m = k)) as [->|]; [congruence|].
      destruct (Hq m) as (? & ? & ?); [|congruence].
      destruct (Hpages _ _ Hm) as (_ & ? & _). lia.
    + specialize (Hfuel eq_refl). lia.
Qed.

Lemma empty_page_stops_walk_witness :
  ∃ (st' : Scraper.State) (status : Scraper.status) (evs : list Scraper.event),
    Scraper.category_walk gap_on_page_3 (py "Furniture") furniture_path
                          Scraper.initial_state
    = (st', status)
    ∧ Scraper.trace st' = [] ++ evs
    ∧ status ≠ Scraper.OutOfFuel
    ∧ (∀ m, Scraper.FetchPage (py "Furniture") m ∈ evs → (m ≤ 3)%nat)
    ∧ (Scraper.FetchPage (py "Furniture") 3 ∈ evs →
       status = Scraper.Finished
       ∧ last evs = Some (Scraper.FetchPage (py "Furniture") 3)).
Proof.
  apply (empty_page_stops_walk gap_on_page_3 (py "Furniture") furniture_path
                               Scraper.initial_state 3).
  - lia.
  - reflexivity.
Defined.

(** ** The visited set *)

Section Visited.
Import Scraper.
Context (site : Site).
Implicit Types (u : list N) (urls : list (list N)) (st : State).
Implicit Types (tr : list event).

#[local] Arguments MAX_ITEMS_PER_CATEGORY : simpl never.
#[local] Arguments MAX_PAGES_TO_SCAN : simpl never.

Lemma well_paired_app tr1 tr2 :
  well_paired tr1 → well_paired tr2 → well_paired (tr1 ++ tr2).
Proof. induction 1; intros; cbn [app]; [done|constructor; auto..]. Qed.

Lemma well_paired_visits name urls : well_paired (visits name urls).
Proof.
  induction urls as [|u urls IH]; [constructor|].
  rewrite visits_cons. by constructor.
Qed.

Lemma well_paired_fetched tr : well_paired tr → fetched tr = marked tr.
Proof. induction 1; cbn; [done|done|by f_equal]. Qed.

Lemma well_paired_preceded tr : well_paired tr →
  ∀ tr1 c u tr2, tr = tr1 ++ FetchItem c u :: tr2 →
  ∃ tr0, tr1 = tr0 ++ [MarkVisited c u].
Proof.
  induction 1 as [|c' n tr Hwp IH|c' u' tr Hwp IH]; intros tr1 c u tr2 Heq.
  - by destruct tr1.
  - destruct tr1 as [|ev tr1]; [done|]. simplify_eq/=.
    destruct (IH _ _ _ _ eq_refl) as [tr0 ->].
    by exists (FetchPage c' n :: tr0).
  - destruct tr1 as [|ev1 [|ev2 tr1]]; simplify_eq/=.
    + by exists [].
    + destruct (IH _ _ _ _ eq_refl) as [tr0 ->].
      by exists (MarkVisited c' u' :: FetchItem c' u' :: tr0).
Qed.

Lemma marked_app tr1 tr2 : marked (tr1 ++ tr2) = marked tr1 ++ marked tr2.
Proof. apply omap_app. Qed.

Lemma marked_visits name urls : marked (visits name urls) = (name,.) <$> urls.
Proof.
  induction urls as [|u urls IH]; [done|].
  rewrite visits_cons. cbn. by f_equal.
Qed.

Lemma marked_urls_app tr1 tr2 :
  marked_urls (tr1 ++ tr2) = marked_urls tr1 ++ marked_urls tr2.
Proof. unfold marked_urls. by rewrite marked_app, fmap_app. Qed.

Lemma marked_urls_visits name urls : marked_urls (visits name urls) = urls.
Proof.
  unfold marked_urls. rewrite marked_visits, <- list_fmap_compose.
  apply list_fmap_id.
Qed.

Lemma tag_omap_record_of name urls :
  tag <$> omap (record_of site name) urls
  = (λ u, (Some name, Some u)) <$> filter (λ u, is_Some (item site u)) urls.
Proof.
  induction urls as [|u urls IH]; [done|]. cbn [omap list_omap].
  unfold record_of at 1. destruct (item site u) as [page|] eqn:E.
  - rewrite filter_cons_True by (cbv beta; by rewrite E). cbn. by f_equal.
  - by rewrite filter_cons_False by (cbv beta; rewrite E; by intros [? ?]).
Qed.

Lemma run_invariant_initial : run_invariant initial_state.
Proof.
  unfold run_invariant. cbn. split_and!; [constructor|constructor| |done].
  intros u. by rewrite elem_of_empty, elem_of_nil.
Qed.

Lemma run_invariant_page st c n :
  run_invariant st → run_invariant (log (FetchPage c n) st).
Proof.
  intros (Hwp & Hnd & Hv & Hsub). unfold run_invariant. cbn [log trace
    visited_item_urls collected_items].
  rewrite marked_urls_app, marked_app. cbn. rewrite !app_nil_r.
  split_and!; try done. apply well_paired_app; [done|repeat constructor].
Qed.

Lemma run_invariant_link_loop name links st n st' n' :
  link_loop site name links st n = (st', n') →
  (n ≤ MAX_ITEMS_PER_CATEGORY)%nat →
  run_invariant st → run_invariant st'.
Proof.
  intros Hloop Hn (Hwp & Hnd & Hv & Hsub).
  destruct (link_loop_visits site name _ _ _ _ _ Hloop Hn)
    as (urls & Htr & Hv' & Hc & _ & _ & Hnd' & Hin & _).
  unfold run_invariant. rewrite Htr, Hv', Hc, marked_urls_app, marked_app.
  rewrite marked_urls_visits, marked_visits. split_and!.
  - apply well_paired_app; [done|apply well_paired_visits].
  - apply NoDup_app. split_and!; [done| |done].
    intros u Hu%Hv Hu'%Hin. tauto.
  - intros u. rewrite elem_of_union, elem_of_list_to_set, elem_of_app, Hv. tauto.
  - rewrite !fmap_app. apply sublist_app; [done|].
    rewrite tag_omap_record_of, <- list_fmap_compose.
    apply fmap_sublist, sublist_filter.
Qed.

Lemma run_invariant_page_loop name path : ∀ fuel p st n st' status,
  page_loop site fuel name path p st n = (st', status) →
  (n ≤ MAX_ITEMS_PER_CATEGORY)%nat →
  run_invariant st → run_invariant st'.
Proof.
  induction fuel as [|fuel IH]; intros p st n st' status Hrun Hn Hinv;
    cbn [page_loop] in Hrun;
    destruct ((n <? MAX_ITEMS_PER_CATEGORY)%nat
              && (p <=? MAX_PAGES_TO_SCAN)%nat);
    try (by injection Hrun as <- <-).
  destruct (listing site path p) as [[|link links]|];
    try (injection Hrun as <- <-; by apply run_invariant_page).
  destruct (link_loop site name (link :: links)
              (log (FetchPage name p) st) n) as [st1 n1] eqn:Hloop.
  destruct (link_loop_visits site name _ _ _ _ _ Hloop Hn)
    as (urls & _ & _ & _ & _ & Hle & _).
  eapply IH; [done|done|].
  eapply run_invariant_link_loop; [done|done|by apply run_invariant_page].
Qed.

Lemma run_invariant_category_loop categories : ∀ st st' status,
  category_loop site categories st = (st', status) →
  run_invariant st → run_invariant st'.
Proof.
  induction categories as [|[name path] categories IH];
    intros st st' status Hrun Hinv; cbn [category_loop] in Hrun.
  - by injection Hrun as <- <-.
  - destruct (category_walk site name path st) as [st1 status1] eqn:Hwalk.
    assert (run_invariant st1) as Hinv1.
    { eapply run_invariant_page_loop; [exact Hwalk| |done].
      unfold MAX_ITEMS_PER_CATEGORY. lia. }
    destruct status1; [by eapply IH|by injection Hrun as <- <-..].
Qed.

End Visited.

Section VisitedFacts.
Import Scraper.
Implicit Types (u c : list N) (tr : list event).

Lemma elem_of_marked tr c u : (c, u) ∈ marked tr ↔ MarkVisited c u ∈ tr.
Proof.
  unfold marked. rewrite list_elem_of_omap. split.
  - intros (ev & Hev & Heq). destruct ev; by simplify_eq.
  - intros Hev. by exists (MarkVisited c u).
Qed.

Lemma elem_of_fetched tr c u : (c, u) ∈ fetched tr ↔ FetchItem c u ∈ tr.
Proof.
  unfold fetched. rewrite list_elem_of_omap. split.
  - intros (ev & Hev & Heq). destruct ev; by simplify_eq.
  - intros Hev. by exists (FetchItem c u).
Qed.

Lemma NoDup_snd_eq {A B} (l : list (A * B)) a b y :
  NoDup l.*2 → (a, y) ∈ l → (b, y) ∈ l → a = b.
Proof.
  induction l as [|[a' y'] l IH]; cbn; [by intros _ ?%elem_of_nil|].
  rewrite NoDup_cons, !elem_of_cons.
  intros [Hy Hnd] [Ha|Ha] [Hb|Hb]; simplify_eq; auto.
  - destruct Hy. apply list_elem_of_fmap. by exists (b, y').
  - destruct Hy. apply list_elem_of_fmap. by exists (a, y').
Qed.

End VisitedFacts.

(** C8.  At the end of a run, however it ends: the collected records have
    pairwise distinct source URLs; no item URL was fetched twice; every
    record carries the category whose walk fetched its URL, and no other
    walk marked or fetched that URL; and every item fetch comes right after
    the insertion of its URL into the visited set, which did not hold it
    before. *)
Theorem visited_set_invariant (site : Scraper.Site) :
  let st := (Scraper.run site).1 in
  NoDup (source_url <$> Scraper.collected_items st)
  ∧ NoDup (fetched_urls (Scraper.trace st))
  ∧ (∀ r, r ∈ Scraper.collected_items st →
       ∃ c u, category r = Some c ∧ source_url r = Some u
              ∧ Scraper.FetchItem c u ∈ Scraper.trace st
              ∧ ∀ c', Scraper.MarkVisited c' u ∈ Scraper.trace st
                      ∨ Scraper.FetchItem c' u ∈ Scraper.trace st → c' = c)
  ∧ (∀ tr1 c u tr2,
       Scraper.trace st = tr1 ++ Scraper.FetchItem c u :: tr2 →
       ∃ tr0, tr1 = tr0 ++ [Scraper.MarkVisited c u]
              ∧ ∀ c', Scraper.MarkVisited c' u ∉ tr0).
Proof.
  intros st.
  assert (run_invariant st) as (Hwp & Hnd & Hv & Hsub).
  { subst st. unfold Scraper.run.
    destruct (Scraper.category_loop site Scraper.CATEGORY_PATHS
                                    Scraper.initial_state) as [st' status] eqn:E.
    eapply run_invariant_category_loop; [exact E|apply run_invariant_initial]. }
  pose proof (well_paired_fetched _ Hwp) as Hfetched.
  split_and!.
  - eapply sublist_NoDup; [apply (NoDup_fmap_2 Some), Hnd|].
    assert (source_url <$> Scraper.collected_items st
            = snd <$> (tag <$> Scraper.collected_items st)) as ->
      by (by rewrite <- list_fmap_compose).
    assert (Some <$> marked_urls (Scraper.trace st)
            = snd <$> ((λ cu : list N * list N, (Some cu.1, Some cu.2))
                       <$> marked (Scraper.trace st))) as ->
      by (unfold marked_urls; by rewrite <- !list_fmap_compose).
    by apply fmap_sublist.
  - unfold fetched_urls. by rewrite Hfetched.
  - intros r Hr.
    assert (tag r ∈ tag <$> Scraper.collected_items st) as Htag
      by (by apply list_elem_of_fmap_2).
    eapply elem_of_sublist in Htag; [|exact Hsub].
    apply list_elem_of_fmap in Htag as ([c u] & Heq & Hcu).
    unfold tag in Heq. injection Heq as Hc Hu. exists c, u.
    split_and!; [done|done| |].
    + apply elem_of_fetched. by rewrite Hfetched.
    + intros c' Hc'. eapply (NoDup_snd_eq (marked (Scraper.trace st))); [done| |done].
      destruct Hc' as [?|?]; [by apply elem_of_marked|].
      rewrite <- Hfetched. by apply elem_of_fetched.
  - intros tr1 c u tr2 Htr.
    destruct (well_paired_preceded _ Hwp _ _ _ _ Htr) as [tr0 ->].
    exists tr0. split; [done|]. intros c' Hin.
    rewrite Htr, <- app_assoc, marked_urls_app in Hnd.
    apply NoDup_app in Hnd as (_ & Hdisj & _).
    apply (Hdisj u).
    + apply list_elem_of_fmap. exists (c', u). split; [done|].
      by apply elem_of_marked.
    + cbn. apply elem_of_cons. by left.
Qed.

(** ** Examples *)

(** The walk of a category always comes to an end within its fuel. *)
Lemma category_walk_fuel (site : Scraper.Site) (name path : str)
    (st : Scraper.State) :
  (Scraper.category_walk site name path st).2 ≠ Scraper.OutOfFuel.
Proof.
  unfold Scraper.category_walk.
  destruct (Scraper.page_loop site Scraper.MAX_PAGES_TO_SCAN name path 1 st 0)
    as [st' status] eqn:Hrun.
  destruct (page_loop_pages site name path _ _ _ _ _ _ Hrun)
    as (evs & _ & _ & _ & _ & Hfuel);
    [unfold Scraper.MAX_ITEMS_PER_CATEGORY; lia|].
  intros Hst. specialize (Hfuel Hst). lia.
Qed.

(** With an empty third page the walk fetches the pages 1, 2 and 3 and
    collects the four items of the first two. *)
Example gap_on_page_3_walk :
  let r := Scraper.category_walk gap_on_page_3 (py "Furniture") furniture_path
                                 Scraper.initial_state in
  r.2 = Scraper.Finished
  ∧ fetched_pages (Scraper.trace r.1) = [1; 2; 3]%nat
  ∧ source_url <$> Scraper.collected_items r.1
    = (λ k, (Scraper.BASE_SITE_URL ++.) <$> item_link k) <$> [2; 3; 4; 5]%nat.
Proof. by vm_compute. Qed.

(** A record that repeats the title (up to case and outer whitespace) and
    the price of an earlier one is dropped; the others stay in order. *)
Example duplicate_dropped :
  let a := priced_item (py "https://www.antiques-atlas.com/antique/a")
                       (py "Georgian Silver Spoon") (163 :: py "120") in
  let b := priced_item (py "https://www.antiques-atlas.com/antique/b")
                       (py "  GEORGIAN silver spoon ") (163 :: py "120 ") in
  let c := priced_item (py "https://www.antiques-atlas.com/antique/c")
                       (py "Georgian Silver Spoon") (163 :: py "95") in
  @surviving_positions latin_db [a; b; c] = [0; 2]%nat
  ∧ @Normalizer.main latin_db [a; b; c]
    = Return [@clean_form latin_db a; @clean_form latin_db c].
Proof. by vm_compute. Qed.

(** The key joins its two parts with "::", so two records with different
    parts can have the same key. *)
Example dedup_key_collision :
  let a := priced_item (py "https://www.antiques-atlas.com/antique/a")
                       (py "vase::pair") (py "90") in
  let b := priced_item (py "https://www.antiques-atlas.com/antique/b")
                       (py "vase") (py "pair::90") in
  @dedup_components latin_db a ≠ @dedup_components latin_db b
  ∧ @Normalizer.build_dedupe_key latin_db a = @Normalizer.build_dedupe_key latin_db b.
Proof. split; [by vm_compute|by vm_compute]. Qed.

(** 1250.0 is written [1250.0] and read back as 1250.0. *)
Example price_1250_reads_back :
  Float.of_N 1250 = float_1250
  ∧ Float.repr float_1250 = py "1250.0"
  ∧ @Normalizer.parse_price_value latin_db (Some (Float.repr float_1250))
    = Return (Some float_1250).
Proof. split_and!; by vm_compute. Qed.

(** * Further properties of the collection *)

Section WalkOutput.
Import Scraper.
Context (site : Site).
Implicit Types (link : option (list N)) (links : list (option (list N))).
Implicit Types (u : list N) (urls : list (list N)) (st : State).

#[local] Arguments MAX_ITEMS_PER_CATEGORY : simpl never.
#[local] Arguments MAX_PAGES_TO_SCAN : simpl never.
#[local] Arguments discoverable_in : simpl never.

(** Whatever the pages hold, the page loop collects the first discoverable
    items, as many as the cap leaves room for, and nothing else. *)
Lemma page_loop_collects name path : ∀ fuel p st n,
  (n ≤ MAX_ITEMS_PER_CATEGORY)%nat →
  (p + fuel = MAX_PAGES_TO_SCAN + 1)%nat →
  ∃ st' status,
    page_loop site fuel name path p st n = (st', status)
    ∧ status ≠ OutOfFuel
    ∧ collected_items st'
      = collected_items st
        ++ omap (record_of site name)
             (take (MAX_ITEMS_PER_CATEGORY - n)
                (discoverable_in site (scanned_links site path fuel p)
                                 (visited_item_urls st)))
    ∧ visited_item_urls st ⊆ visited_item_urls st'.
Proof.
  induction fuel as [|fuel IH]; intros p st n Hn Hp.
  { exists st, Finished. cbn [page_loop scanned_links].
    rewrite (proj2 (Nat.leb_gt _ _)) by lia. rewrite andb_false_r.
    rewrite discoverable_in_nil, take_nil, app_nil_r. done. }
  destruct (decide (n < MAX_ITEMS_PER_CATEGORY)%nat) as [Hlt|Hge].
  2:{ exists st, Finished. rewrite page_loop_done by lia.
      replace (MAX_ITEMS_PER_CATEGORY - n)%nat with 0%nat by lia.
      rewrite take_0, app_nil_r. done. }
  cbn [page_loop].
  rewrite (proj2 (Nat.ltb_lt _ _) Hlt), (proj2 (Nat.leb_le p _)) by lia.
  cbn [andb scanned_links].
  destruct (listing site path p) as [[|link links]|] eqn:Hpage.
  { eexists _, Finished. rewrite discoverable_in_nil, take_nil, app_nil_r. done. }
  2:{ eexists _, Crashed. rewrite discoverable_in_nil, take_nil, app_nil_r. done. }
  set (st0 := log (FetchPage name p) st).
  destruct (link_loop site name (link :: links) st0 n) as [st1 n1] eqn:Hloop.
  destruct (link_loop_visits site name _ _ _ _ _ Hloop Hn)
    as (urls & Htr & Hv & Hc & Hn1 & Hle & Hnd & Hin & Hf & Hall & _ & Hlast).
  change (visited_item_urls st0) with (visited_item_urls st) in *.
  change (collected_items st0) with (collected_items st) in *.
  rewrite discoverable_in_app.
  set (found1 := discoverable_in site (link :: links) (visited_item_urls st)) in *.
  set (found2 := discoverable_in site _ (_ ∪ visited_item_urls st)) in *.
  rewrite omap_record_of_filter, Hf in Hc, Hn1.
  assert (length (omap (record_of site name)
                       (take (MAX_ITEMS_PER_CATEGORY - n) found1))
          = length (take (MAX_ITEMS_PER_CATEGORY - n) found1)) as Hlen.
  { apply length_omap_record_of. intros u Hu.
    apply (discoverable_in_fetchable site (link :: links) (visited_item_urls st)).
    eapply elem_of_sublist; [done|apply sublist_take]. }
  rewrite Hlen in Hn1.
  assert (visited_item_urls st ⊆ visited_item_urls st1) as Hsub.
  { rewrite Hv. intros x Hx. apply elem_of_union. by right. }
  destruct (decide (n1 < MAX_ITEMS_PER_CATEGORY)%nat) as [Hlt1|Hge1].
  - assert (take (MAX_ITEMS_PER_CATEGORY - n) found1 = found1) as Hall1
      by (apply take_full; lia).
    rewrite Hall1 in *.
    assert (list_to_set (omap link_url (link :: links)) ∪ visited_item_urls st
            = visited_item_urls st1) as Hvis.
    { rewrite Hv. apply set_eq. intros x.
      rewrite !elem_of_union, !elem_of_list_to_set. split.
      - intros [Hx|Hx]; [|by right]. destruct (Hall Hlt1 x Hx); auto.
      - intros [Hx%Hin|Hx]; [left; tauto|by right]. }
    subst found2. rewrite Hvis.
    destruct (IH (S p) st1 n1) as (st' & status & Hrun & Hst & Hc' & Hsub');
      [done|lia|].
    exists st', status. split_and!; [done|done| |by etrans].
    rewrite Hc', Hc, take_app, omap_app, <- app_assoc.
    rewrite (take_ge found1) by lia.
    by replace (MAX_ITEMS_PER_CATEGORY - n - length found1)%nat
      with (MAX_ITEMS_PER_CATEGORY - n1)%nat by lia.
  - exists st1, Finished. rewrite page_loop_done by lia.
    assert (take (MAX_ITEMS_PER_CATEGORY - n) (found1 ++ found2)
            = take (MAX_ITEMS_PER_CATEGORY - n) found1) as ->.
    { apply take_app_le. rewrite length_take in Hn1. lia. }
    done.
Qed.

Lemma category_walk_collects name path st :
  ∃ st' status,
    category_walk site name path st = (st', status)
    ∧ status ≠ OutOfFuel
    ∧ collected_items st'
      = collected_items st
        ++ omap (record_of site name)
             (take MAX_ITEMS_PER_CATEGORY
                (discoverable site path (visited_item_urls st)))
    ∧ visited_item_urls st ⊆ visited_item_urls st'.
Proof.
  unfold category_walk, discoverable.
  destruct (page_loop_collects name path MAX_PAGES_TO_SCAN 1 st 0)
    as (st' & status & Hrun & Hst & Hc & Hsub);
    [unfold MAX_ITEMS_PER_CATEGORY; lia|lia|].
  rewrite Nat.sub_0_r in Hc. by exists st', status.
Qed.

End WalkOutput.

Section RunOutput.
Import Scraper.
Context (site : Site).
Implicit Types (link : option (list N)) (links : list (option (list N))).
Implicit Types (u : list N) (urls : list (list N)) (st : State).
Implicit Types (name path : list N).

#[local] Arguments MAX_ITEMS_PER_CATEGORY : simpl never.
#[local] Arguments MAX_PAGES_TO_SCAN : simpl never.
#[local] Arguments discoverable_in : simpl never.

Lemma scanned_links_elem path link : ∀ fuel p,
  link ∈ scanned_links site path fuel p →
  ∃ n links, (p ≤ n < p + fuel)%nat
             ∧ listing site path n = Some links ∧ link ∈ links.
Proof.
  induction fuel as [|fuel IH]; intros p; cbn [scanned_links];
    [by intros ?%elem_of_nil|].
  destruct (listing site path p) as [[|l ls]|] eqn:Hpage;
    [by intros ?%elem_of_nil| |by intros ?%elem_of_nil].
  intros [Hl|Hl]%elem_of_app.
  - exists p, (l :: ls). split_and!; [lia|lia|done|done].
  - destruct (IH _ Hl) as (n & links & ? & ? & ?).
    exists n, links. split_and!; [lia|lia|done|done].
Qed.

Lemma link_url_inv link u :
  link_url link = Some u → ∃ href, link = Some href ∧ u = BASE_SITE_URL ++ href.
Proof.
  unfold link_url. destruct link as [href|]; [|done].
  destruct (truthy (Some href)); [|done]. intros [= <-]. by exists href.
Qed.

Lemma discoverable_in_elem links (V : gset (list N)) u :
  u ∈ discoverable_in site links V →
  u ∈ omap link_url links ∧ (u ∉ V) ∧ is_Some (item site u).
Proof.
  unfold discoverable_in.
  rewrite list_elem_of_filter, first_occurrences_elem, list_elem_of_filter.
  tauto.
Qed.

Lemma discoverable_listed path (V : gset (list N)) u :
  u ∈ discoverable site path V → listed_on site path u.
Proof.
  unfold discoverable. intros (Hu & _ & _)%discoverable_in_elem.
  apply list_elem_of_omap in Hu as (link & Hlink & Hurl).
  apply scanned_links_elem in Hlink as (n & links & Hn & Hpage & Hin).
  apply link_url_inv in Hurl as (href & -> & ->).
  exists n, links, href. split_and!; [lia|lia|done|done|done].
Qed.

(** The records a walk adds, one by one. *)
Lemma walk_records_elem name path (V : gset (list N)) r :
  r ∈ omap (record_of site name)
        (take MAX_ITEMS_PER_CATEGORY (discoverable site path V)) →
  ∃ u page, listed_on site path u ∧ (u ∉ V) ∧ item site u = Some page
            ∧ r = extract_record u name page.
Proof.
  intros (u & Hu & Hr)%list_elem_of_omap.
  apply (elem_of_sublist _ (discoverable site path V)) in Hu;
    [|apply sublist_take].
  pose proof (discoverable_listed _ _ _ Hu) as Hlisted.
  unfold discoverable in Hu. apply discoverable_in_elem in Hu as (_ & HV & _).
  unfold record_of in Hr. destruct (item site u) as [page|] eqn:E; [|done].
  injection Hr as <-. by exists u, page.
Qed.

(** The records of a run come in blocks, one for each category walked, in
    the order of the categories; each block is what the walk of its
    category collects. *)
Lemma category_loop_blocks categories : ∀ st st' status,
  category_loop site categories st = (st', status) →
  ∃ blocks : list (list RawItem),
    collected_items st' = collected_items st ++ concat blocks
    ∧ Forall2 (λ block cat,
                 ∃ V : gset (list N),
                   visited_item_urls st ⊆ V
                   ∧ block = omap (record_of site cat.1)
                               (take MAX_ITEMS_PER_CATEGORY
                                  (discoverable site cat.2 V)))
              blocks (take (length blocks) categories)
    ∧ status ≠ OutOfFuel
    ∧ (status = Finished → length blocks = length categories).
Proof.
  induction categories as [|[name path] categories IH];
    intros st st' status Hrun; cbn [category_loop] in Hrun.
  { injection Hrun as <- <-. exists []. rewrite app_nil_r.
    split_and!; [done|constructor|done|done]. }
  destruct (category_walk_collects site name path st)
    as (st1 & status1 & Hwalk & Hfuel & Hc & Hsub).
  rewrite Hwalk in Hrun.
  set (block := omap (record_of site name)
                  (take MAX_ITEMS_PER_CATEGORY
                     (discoverable site path (visited_item_urls st)))) in *.
  assert (∃ V : gset (list N), visited_item_urls st ⊆ V
            ∧ block = omap (record_of site (name, path).1)
                        (take MAX_ITEMS_PER_CATEGORY
                           (discoverable site (name, path).2 V))) as Hblock
    by (by exists (visited_item_urls st)).
  destruct status1.
  - apply IH in Hrun as (blocks & Hc' & Hall & Hst & Hlen).
    exists (block :: blocks). cbn [concat length take].
    split_and!; [by rewrite Hc', Hc, <- app_assoc| |done|intros ?; f_equal; auto].
    constructor; [done|].
    eapply Forall2_impl; [exact Hall|].
    intros b c (V & HV & Hb). exists V. split; [by etrans|done].
  - injection Hrun as <- <-. exists [block]. cbn [concat length take].
    rewrite take_0, app_nil_r.
    split_and!; [done|by repeat constructor|done|done].
  - done.
Qed.

End RunOutput.

Section Blocks.
Implicit Types (name : list N) (block : list RawItem).
Implicit Types (blocks : list (list RawItem)) (cats : list (list N * list N)).

Lemma tagged_app name (l1 l2 : list RawItem) :
  tagged name (l1 ++ l2) = tagged name l1 ++ tagged name l2.
Proof. apply filter_app. Qed.

Lemma tagged_other name name' block :
  Forall (λ r, category r = Some name') block → name ≠ name' →
  tagged name block = [].
Proof.
  intros Hall Hne. induction Hall as [|r block Hr _ IH]; [done|].
  unfold tagged in *. rewrite filter_cons_False; [done|]. congruence.
Qed.

Lemma tagged_concat_absent cap name blocks : ∀ cats,
  name ∉ cats.*1 →
  Forall2 (capped_block cap) blocks (take (length blocks) cats) →
  tagged name (concat blocks) = [].
Proof.
  induction blocks as [|block blocks IH]; intros cats Hname Hall; [done|].
  destruct cats as [|cat cats]; [by inversion Hall|].
  cbn [length take concat] in *. apply Forall2_cons in Hall as [[_ Hb] Hall].
  cbn in Hname. apply not_elem_of_cons in Hname as [Hne Hname].
  rewrite tagged_app, (tagged_other _ _ _ Hb Hne). by eapply IH.
Qed.

Lemma tagged_concat_bound cap name blocks : ∀ cats,
  NoDup cats.*1 →
  Forall2 (capped_block cap) blocks (take (length blocks) cats) →
  (length (tagged name (concat blocks)) ≤ cap)%nat.
Proof.
  induction blocks as [|block blocks IH]; intros cats Hnd Hall; [cbn; lia|].
  destruct cats as [|cat cats]; [by inversion Hall|].
  cbn [length take concat] in *.
  apply Forall2_cons in Hall as [[Hlen Hb] Hall].
  cbn in Hnd. apply NoDup_cons in Hnd as [Hfresh Hnd].
  rewrite tagged_app, length_app.
  destruct (decide (name = cat.1)) as [->|Hne].
  - rewrite (tagged_concat_absent cap _ _ cats) by done.
    cbn. pose proof (length_filter (λ r, category r = Some cat.1) block).
    unfold tagged. lia.
  - rewrite (tagged_other _ _ _ Hb Hne). cbn. by eapply IH.
Qed.

Lemma concat_length_bound cap blocks : ∀ cats,
  Forall2 (capped_block cap) blocks (take (length blocks) cats) →
  (length (concat blocks) ≤ cap * length cats)%nat.
Proof.
  induction blocks as [|block blocks IH]; intros cats Hall; [cbn; lia|].
  destruct cats as [|cat cats]; [by inversion Hall|].
  cbn [length take concat] in *.
  apply Forall2_cons in Hall as [[Hlen _] Hall].
  rewrite length_app. specialize (IH _ Hall). lia.
Qed.

End Blocks.

Section RunTheorems.
Import Scraper.
Implicit Types (u name path : list N) (st : State).

#[local] Arguments MAX_ITEMS_PER_CATEGORY : simpl never.

Lemma length_omap_le {A B} (f : A → option B) (l : list A) :
  (length (omap f l) ≤ length l)%nat.
Proof.
  induction l as [|x l IH]; [done|]. cbn [omap list_omap].
  destruct (f x); cbn [length]; lia.
Qed.

Lemma elem_of_concat {A} (x : A) (ls : list (list A)) :
  x ∈ concat ls → ∃ l, x ∈ l ∧ l ∈ ls.
Proof.
  induction ls as [|l ls IH]; cbn [concat]; [by intros ?%elem_of_nil|].
  intros [Hx|Hx]%elem_of_app.
  - exists l. split; [done|]. apply elem_of_cons. auto.
  - destruct (IH Hx) as (l' & ? & ?). exists l'. split; [done|].
    apply elem_of_cons. auto.
Qed.

Lemma walk_block_capped (site : Site) name path (V : gset (list N)) :
  capped_block MAX_ITEMS_PER_CATEGORY
    (omap (record_of site name)
       (take MAX_ITEMS_PER_CATEGORY (discoverable site path V)))
    (name, path).
Proof.
  split.
  - etrans; [apply length_omap_le|]. rewrite length_take. lia.
  - apply Forall_forall. intros r Hr. by eapply category_omap_record_of.
Qed.

Lemma CATEGORY_PATHS_NoDup : NoDup CATEGORY_PATHS.*1.
Proof. apply (bool_decide_unpack _). by vm_compute. Qed.

(** The blocks of a whole run. *)
Lemma run_blocks (site : Site) :
  ∃ blocks : list (list RawItem),
    collected_items (run site).1 = concat blocks
    ∧ Forall2 (λ block cat,
                 ∃ V : gset (list N),
                   block = omap (record_of site cat.1)
                             (take MAX_ITEMS_PER_CATEGORY
                                (discoverable site cat.2 V)))
              blocks (take (length blocks) CATEGORY_PATHS)
    ∧ (run site).2 ≠ OutOfFuel
    ∧ ((run site).2 = Finished → length blocks = length CATEGORY_PATHS).
Proof.
  unfold run.
  destruct (category_loop site CATEGORY_PATHS initial_state)
    as [st' status] eqn:Hrun.
  apply category_loop_blocks in Hrun as (blocks & Hc & Hall & Hst & Hlen).
  exists blocks. split_and!; try done.
  eapply Forall2_impl; [exact Hall|]. intros b c (V & _ & Hb). by exists V.
Qed.

Lemma run_blocks_capped (site : Site) (blocks : list (list RawItem)) :
  Forall2 (λ block cat,
             ∃ V : gset (list N),
               block = omap (record_of site cat.1)
                         (take MAX_ITEMS_PER_CATEGORY
                            (discoverable site cat.2 V)))
          blocks (take (length blocks) CATEGORY_PATHS) →
  Forall2 (capped_block MAX_ITEMS_PER_CATEGORY)
          blocks (take (length blocks) CATEGORY_PATHS).
Proof.
  intros Hall. eapply Forall2_impl; [exact Hall|].
  intros b [name path] (V & ->). apply walk_block_capped.
Qed.

End RunTheorems.

(** X1.  Whatever the site returns, the walk of a category ends (within its
    page budget) having added exactly the records of the first discoverable
    items of the category, 30 of them at most, in page order then link
    order and tagged with the category; each is the extraction of a fetched
    page of a listed, not yet visited item. *)
Theorem walk_collects_first_discoverable (site : Scraper.Site)
    (name path : str) (st : Scraper.State) :
  ∃ (st' : Scraper.State) (status : Scraper.status) (records : list RawItem),
    Scraper.category_walk site name path st = (st', status)
    ∧ status ≠ Scraper.OutOfFuel
    ∧ Scraper.collected_items st' = Scraper.collected_items st ++ records
    ∧ source_url <$> records
      = Some <$> take 30 (discoverable site path (Scraper.visited_item_urls st))
    ∧ length records
      = (30 `min` length (discoverable site path (Scraper.visited_item_urls st)))%nat
    ∧ (∀ r, r ∈ records →
         category r = Some name
         ∧ ∃ u page, listed_on site path u
                     ∧ (u ∉ Scraper.visited_item_urls st)
                     ∧ Scraper.item site u = Some page
                     ∧ r = Scraper.extract_record u name page).
Proof.
  destruct (category_walk_collects site name path st)
    as (st' & status & Hwalk & Hst & Hc & _).
  set (found := take Scraper.MAX_ITEMS_PER_CATEGORY
                  (discoverable site path (Scraper.visited_item_urls st))) in *.
  assert (∀ u, u ∈ found → is_Some (Scraper.item site u)) as Hfetch.
  { intros x Hx. eapply discoverable_in_fetchable.
    eapply elem_of_sublist; [exact Hx|apply sublist_take]. }
  exists st', status, (omap (record_of site name) found).
  split_and!; try done.
  - by apply source_url_omap_record_of.
  - rewrite length_omap_record_of by done. unfold found. apply length_take.
  - intros r Hr. split; [by eapply category_omap_record_of|].
    by apply walk_records_elem.
Qed.

(** X2.  A run never collects more than 30 records for a category, nor more
    than 180 in all, whatever the site returns and however the run ends. *)
Theorem run_respects_cap (site : Scraper.Site) :
  (∀ name : str,
     (length (tagged name (Scraper.collected_items (Scraper.run site).1)) ≤ 30)%nat)
  ∧ (length (Scraper.collected_items (Scraper.run site).1) ≤ 180)%nat.
Proof.
  destruct (run_blocks site) as (blocks & -> & Hall%run_blocks_capped & _).
  split.
  - intros name.
    apply (tagged_concat_bound Scraper.MAX_ITEMS_PER_CATEGORY name blocks
             Scraper.CATEGORY_PATHS); [apply CATEGORY_PATHS_NoDup|done].
  - apply (concat_length_bound Scraper.MAX_ITEMS_PER_CATEGORY blocks
             Scraper.CATEGORY_PATHS Hall).
Qed.

(** X3.  The records of a run stand in the order of the configured
    categories: they split into consecutive blocks, the [i]-th holding only
    records tagged with the [i]-th category; when the run finishes there is
    a block (possibly empty) for each of the six categories. *)
Theorem run_records_grouped (site : Scraper.Site) :
  ∃ blocks : list (list RawItem),
    Scraper.collected_items (Scraper.run site).1 = concat blocks
    ∧ (length blocks ≤ 6)%nat
    ∧ ((Scraper.run site).2 = Scraper.Finished → length blocks = 6%nat)
    ∧ (∀ i block r, blocks !! i = Some block → r ∈ block →
         ∃ name path, Scraper.CATEGORY_PATHS !! i = Some (name, path)
                      ∧ category r = Some name).
Proof.
  destruct (run_blocks site) as (blocks & Hc & Hall%run_blocks_capped & _ & Hlen).
  exists blocks. split_and!; [done| |done|].
  - apply Forall2_length in Hall. rewrite length_take in Hall.
    change (length Scraper.CATEGORY_PATHS) with 6%nat in Hall. lia.
  - intros i block r Hi Hr.
    destruct (Forall2_lookup_l _ _ _ _ _ Hall Hi) as ([name path] & Hcat & _ & Hb).
    exists name, path. split.
    + apply lookup_take_Some in Hcat. tauto.
    + rewrite Forall_forall in Hb. by apply Hb.
Qed.

(** X4.  Every record of a run is the extraction of an item page that was
    fetched, for an item URL shown on one of the first 30 listing pages of
    one of the configured categories; so an item whose fetch fails leaves
    no record, the source URL starts with the site's base URL, the currency
    is GBP, and the images are at most five distinct URLs that contain the
    CDN host name. *)
Theorem run_records_extracted (site : Scraper.Site) (r : RawItem) :
  r ∈ Scraper.collected_items (Scraper.run site).1 →
  extracted_from site r
  ∧ (∃ href, source_url r = Some (Scraper.BASE_SITE_URL ++ href))
  ∧ currency r = Some (py "GBP")
  ∧ (length (images r) ≤ 5)%nat
  ∧ NoDup (images r)
  ∧ (∀ i, i ∈ images r → contains Scraper.IMAGE_CDN i = true).
Proof.
  destruct (run_blocks site) as (blocks & -> & Hall & _).
  intros Hr. apply elem_of_concat in Hr as (block & Hr & Hblock).
  apply list_elem_of_lookup in Hblock as [i Hi].
  destruct (Forall2_lookup_l _ _ _ _ _ Hall Hi)
    as ([name path] & Hcat & V & ->).
  apply walk_records_elem in Hr as (u & page & Hlisted & _ & Hitem & ->).
  assert (extracted_from site (Scraper.extract_record u name page)) as Hex.
  { exists name, path, u, page. split_and!; try done.
    apply lookup_take_Some in Hcat as [Hcat _].
    by eapply list_elem_of_lookup_2. }
  split_and!; try done.
  - destruct Hlisted as (n & links & href & _ & _ & _ & ->). by exists href.
  - cbn. rewrite extract_images_candidates, length_take. lia.
  - cbn. rewrite extract_images_candidates.
    eapply sublist_NoDup; [apply first_occurrences_NoDup|apply sublist_take].
  - cbn. intros img Himg%extract_images_elem. unfold image_candidates in Himg.
    apply list_elem_of_filter in Himg. tauto.
Qed.

Lemma run_records_extracted_witness :
  let site := gap_on_page_3 in
  ∃ r, r ∈ Scraper.collected_items (Scraper.run site).1
       ∧ extracted_from site r
       ∧ currency r = Some (py "GBP").
Proof.
  intros site.
  exists (Scraper.extract_record
            (Scraper.BASE_SITE_URL ++ py "/antique/chair-02")
            (py "Furniture") (page_with_images [])).
  assert (Scraper.extract_record
            (Scraper.BASE_SITE_URL ++ py "/antique/chair-02")
            (py "Furniture") (page_with_images [])
          ∈ Scraper.collected_items (Scraper.run site).1) as Hin.
  { apply list_elem_of_lookup. exists 0%nat. by vm_compute. }
  split; [exact Hin|].
  destruct (run_records_extracted site _ Hin) as (Hex & _ & Hcur & _).
  by split.
Defined.

Section Endings.
Import Scraper.
Context (site : Site).
Implicit Types (u name path : list N) (urls : list (list N)) (st : State).

#[local] Arguments MAX_ITEMS_PER_CATEGORY : simpl never.
#[local] Arguments MAX_PAGES_TO_SCAN : simpl never.

Lemma fetched_pages_app tr1 tr2 :
  fetched_pages (tr1 ++ tr2) = fetched_pages tr1 ++ fetched_pages tr2.
Proof. apply omap_app. Qed.

Lemma fetched_pages_visits name urls : fetched_pages (visits name urls) = [].
Proof. induction urls as [|u urls IH]; [done|]. by rewrite visits_cons. Qed.

(** A walk ends normally or on a listing page that cannot be fetched; that
    fetch is then the last thing it does.  The pages it fetches are
    consecutive. *)
Lemma page_loop_ending name path : ∀ fuel p st n st' status,
  page_loop site fuel name path p st n = (st', status) →
  (n ≤ MAX_ITEMS_PER_CATEGORY)%nat →
  (p + fuel = MAX_PAGES_TO_SCAN + 1)%nat →
  ∃ evs k,
    trace st' = trace st ++ evs
    ∧ fetched_pages evs = seq p k
    ∧ (k ≤ fuel)%nat
    ∧ ((n < MAX_ITEMS_PER_CATEGORY)%nat → (0 < fuel)%nat → (0 < k)%nat)
    ∧ (status = Finished
       ∨ status = Crashed
         ∧ ∃ m, (p ≤ m ≤ MAX_PAGES_TO_SCAN)%nat
                ∧ listing site path m = None
                ∧ last (trace st') = Some (FetchPage name m)).
Proof.
  induction fuel as [|fuel IH]; intros p st n st' status Hrun Hn Hp;
    cbn [page_loop] in Hrun;
    destruct ((n <? MAX_ITEMS_PER_CATEGORY)%nat
              && (p <=? MAX_PAGES_TO_SCAN)%nat) eqn:Hcond.
  - apply andb_prop in Hcond as [_ Hp'%Nat.leb_le]. lia.
  - injection Hrun as <- <-. exists [], 0%nat. rewrite app_nil_r.
    split_and!; first [done|lia|by left].
  - apply andb_prop in Hcond as [Hlt%Nat.ltb_lt Hp'%Nat.leb_le].
    destruct (listing site path p) as [[|link links]|] eqn:Hpage.
    + injection Hrun as <- <-. exists [FetchPage name p], 1%nat.
      split_and!; first [done|lia|by left].
    + destruct (link_loop site name (link :: links)
                  (log (FetchPage name p) st) n) as [st1 n1] eqn:Hloop.
      destruct (link_loop_visits site name _ _ _ _ _ Hloop Hn)
        as (urls & Htr & _ & _ & _ & Hle & _).
      apply IH in Hrun as (evs & k & Htr' & Hpages & Hk & _ & Hend);
        [|done|lia].
      exists (FetchPage name p :: visits name urls ++ evs), (S k).
      split_and!.
      * rewrite Htr', Htr. cbn [log trace]. by rewrite <- !app_assoc.
      * change (fetched_pages (FetchPage name p :: visits name urls ++ evs))
          with (p :: fetched_pages (visits name urls ++ evs)).
        by rewrite fetched_pages_app, fetched_pages_visits, Hpages.
      * lia.
      * lia.
      * destruct Hend as [->|(-> & m & Hm & Hnone & Hlast)]; [by left|right].
        split; [done|]. exists m. split_and!; [lia|lia|done|done].
    + injection Hrun as <- <-. exists [FetchPage name p], 1%nat.
      split_and!; try first [done|lia].
      right. split; [done|]. exists p. split_and!; [lia|lia|done|].
      cbn [log trace]. apply last_snoc.
  - injection Hrun as <- <-. exists [], 0%nat. rewrite app_nil_r.
    apply andb_false_iff in Hcond as [Hc%Nat.ltb_ge|Hc%Nat.leb_gt].
    + split_and!; first [done|lia|by left].
    + lia.
Qed.

Lemma category_loop_ending categories : ∀ st st' status,
  category_loop site categories st = (st', status) →
  status = Finished
  ∨ status = Crashed
    ∧ ∃ name path m,
        (name, path) ∈ categories
        ∧ (1 ≤ m ≤ MAX_PAGES_TO_SCAN)%nat
        ∧ listing site path m = None
        ∧ last (trace st') = Some (FetchPage name m).
Proof.
  induction categories as [|[name path] categories IH];
    intros st st' status Hrun; cbn [category_loop] in Hrun.
  { injection Hrun as <- <-. by left. }
  destruct (category_walk site name path st) as [st1 status1] eqn:Hwalk.
  unfold category_walk in Hwalk.
  apply page_loop_ending in Hwalk as (evs & k & _ & _ & _ & _ & Hend);
    [|unfold MAX_ITEMS_PER_CATEGORY; lia|lia].
  destruct Hend as [->|(-> & m & Hm & Hnone & Hlast)].
  - apply IH in Hrun as [->|(-> & name' & path' & m & Hin & ?)]; [by left|right].
    split; [done|]. exists name', path', m. split; [|done].
    apply elem_of_cons. by right.
  - injection Hrun as <- <-. right. split; [done|].
    exists name, path, m. split; [|done]. apply elem_of_cons. by left.
Qed.

End Endings.

(** X5.  A run ends in one of two ways: normally, or on a category listing
    page that cannot be fetched, the attempt to fetch it being the last
    thing the run does (no later page, item or category is tried).  Item
    pages that cannot be fetched never end a run: when every listing page
    can be fetched, the run ends normally. *)
Theorem run_ending (site : Scraper.Site) :
  ((Scraper.run site).2 = Scraper.Finished
   ∨ (Scraper.run site).2 = Scraper.Crashed
     ∧ ∃ name path m,
         (name, path) ∈ Scraper.CATEGORY_PATHS
         ∧ (1 ≤ m ≤ 30)%nat
         ∧ Scraper.listing site path m = None
         ∧ last (Scraper.trace (Scraper.run site).1)
           = Some (Scraper.FetchPage name m))
  ∧ ((∀ name path m, (name, path) ∈ Scraper.CATEGORY_PATHS →
        (1 ≤ m ≤ 30)%nat → Scraper.listing site path m ≠ None) →
     (Scraper.run site).2 = Scraper.Finished).
Proof.
  assert ((Scraper.run site).2 = Scraper.Finished
          ∨ (Scraper.run site).2 = Scraper.Crashed
            ∧ ∃ name path m,
                (name, path) ∈ Scraper.CATEGORY_PATHS
                ∧ (1 ≤ m ≤ 30)%nat
                ∧ Scraper.listing site path m = None
                ∧ last (Scraper.trace (Scraper.run site).1)
                  = Some (Scraper.FetchPage name m)) as Hend.
  { unfold Scraper.run.
    destruct (Scraper.category_loop site Scraper.CATEGORY_PATHS
                Scraper.initial_state) as [st' status] eqn:Hrun.
    by apply category_loop_ending in Hrun. }
  split; [done|]. intros Hok.
  destruct Hend as [?|(_ & name & path & m & Hin & Hm & Hnone & _)]; [done|].
  by destruct (Hok name path m).
Qed.

(** X6.  The walk of a category fetches the listing pages 1, 2, ..., k in
    this order, each once and none skipped, for some k between 1 and 30. *)
Theorem walk_pages_consecutive (site : Scraper.Site) (name path : str)
    (st : Scraper.State) :
  ∃ (evs : list Scraper.event) (k : nat),
    Scraper.trace (Scraper.category_walk site name path st).1
    = Scraper.trace st ++ evs
    ∧ fetched_pages evs = seq 1 k
    ∧ (1 ≤ k ≤ 30)%nat.
Proof.
  unfold Scraper.category_walk.
  destruct (Scraper.page_loop site Scraper.MAX_PAGES_TO_SCAN name path 1 st 0)
    as [st' status] eqn:Hrun.
  apply page_loop_ending in Hrun as (evs & k & Htr & Hpages & Hk & Hpos & _);
    [|unfold Scraper.MAX_ITEMS_PER_CATEGORY; lia|lia].
  exists evs, k. split_and!; [done|done| |].
  - apply Hpos; unfold Scraper.MAX_ITEMS_PER_CATEGORY,
      Scraper.MAX_PAGES_TO_SCAN; lia.
  - unfold Scraper.MAX_PAGES_TO_SCAN in Hk. lia.
Qed.

(** * Further properties of the normalization *)

(** ** Description cleaning, word by word *)

Section DescriptionWords.
Import Normalizer.
Implicit Types (s w : list N) (words : list (list N)).

Lemma drop_while_app_cases {A} (p : A → bool) (l1 l2 : list A) :
  drop_while p (l1 ++ l2)
  = match drop_while p l1 with
    | [] => drop_while p l2
    | _ => drop_while p l1 ++ l2
    end.
Proof.
  induction l1 as [|x l1 IH]; cbn [app drop_while].
  - by destruct (drop_while p l2).
  - destruct (p x); [apply IH|done].
Qed.

Lemma rstrip_app s1 s2 :
  rstrip (s1 ++ s2)
  = match rstrip s2 with [] => rstrip s1 | _ => s1 ++ rstrip s2 end.
Proof.
  unfold rstrip. rewrite reverse_app, drop_while_app_cases.
  destruct (drop_while is_whitespace (reverse s2)) as [|c r] eqn:E.
  - done.
  - rewrite reverse_app, reverse_involutive.
    destruct (reverse (c :: r)) eqn:E'; [|done].
    apply (f_equal reverse) in E'. by rewrite reverse_involutive in E'.
Qed.

Lemma rstrip_word w : Forall not_whitespace w → rstrip (reverse w) = reverse w.
Proof.
  intros Hw. unfold rstrip. rewrite reverse_involutive.
  destruct Hw as [|c w Hc _]; [done|]. cbn [drop_while]. by rewrite Hc.
Qed.

Lemma rstrip_space : rstrip [32] = [].
Proof. done. Qed.

Lemma lstrip_sub_whitespace b s :
  lstrip (sub_whitespace b s) = sub_whitespace true s.
Proof.
  destruct s as [|c s]; [done|]. cbn [sub_whitespace].
  destruct (is_whitespace c) eqn:Hc.
  - assert (lstrip (sub_whitespace true s) = sub_whitespace true s) as Hl.
    { apply lstrip_fixed. destruct s as [|c' s]; [done|]. cbn [sub_whitespace].
      destruct (is_whitespace c') eqn:Hc'; cbn [app]; [|done].
      pose proof (sub_whitespace_single_spaced true s) as Hs.
      destruct (sub_whitespace true s) as [|x r] eqn:E; [done|].
      cbn [single_spaced] in Hs. by destruct (is_whitespace x). }
    destruct b; cbn [app]; [done|]. unfold lstrip in *. cbn [drop_while].
    change (is_whitespace 32) with true. cbv iota. exact Hl.
  - unfold lstrip. cbn [drop_while]. by rewrite Hc.
Qed.

Lemma split_go_words s : ∀ w,
  Forall not_whitespace w →
  Forall (λ x, x ≠ [] ∧ Forall not_whitespace x) (split_go w s).
Proof.
  induction s as [|c s IH]; intros w Hw; cbn [split_go].
  - destruct w as [|x w]; [constructor|]. constructor; [|constructor].
    split; [|by apply Forall_reverse].
    intros E. apply (f_equal reverse) in E. by rewrite reverse_involutive in E.
  - destruct (is_whitespace c) eqn:Hc.
    + destruct w as [|x w]; [by apply IH|]. constructor; [|by apply IH].
      split; [|by apply Forall_reverse].
      intros E. apply (f_equal reverse) in E. by rewrite reverse_involutive in E.
    + apply IH. by constructor.
Qed.

Lemma join_nil_inv words :
  Forall (λ x, x ≠ [] ∧ Forall not_whitespace x) words →
  join [32] words = [] → words = [].
Proof.
  destruct 1 as [|w words [Hw _] _]; [done|]. cbn [join].
  destruct words; [done|]. by destruct w.
Qed.

Lemma join_cons w words :
  join [32] (w :: words)
  = match words with [] => w | _ => w ++ 32 :: join [32] words end.
Proof. by destruct words. Qed.

(** The collapsed text without its last space, word by word. *)
Lemma rstrip_sub_whitespace s : ∀ w,
  Forall not_whitespace w →
  rstrip (reverse w ++ sub_whitespace (bool_decide (w = [])) s)
  = join [32] (split_go w s).
Proof.
  induction s as [|c s IH]; intros w Hw; cbn [split_go sub_whitespace].
  - rewrite app_nil_r. destruct w as [|x w]; [done|]. by apply rstrip_word.
  - destruct (is_whitespace c) eqn:Hc.
    + assert (rstrip (sub_whitespace true s) = join [32] (split_go [] s))
        as IH0 by exact (IH [] (Forall_nil_2 _)).
      pose proof (split_go_words s [] (Forall_nil_2 _)) as Hwords.
      destruct w as [|x w].
      * exact IH0.
      * rewrite bool_decide_eq_false_2 by done. cbn [app].
        rewrite join_cons, rstrip_app.
        change (32 :: sub_whitespace true s) with ([32] ++ sub_whitespace true s).
        rewrite rstrip_app, IH0.
        destruct (join [32] (split_go [] s)) as [|y r] eqn:E.
        -- rewrite (join_nil_inv _ Hwords E), rstrip_space.
           by apply rstrip_word.
        -- destruct (split_go [] s); [done|]. done.
    + specialize (IH (c :: w)). rewrite bool_decide_eq_false_2 in IH by done.
      rewrite <- IH by (by constructor).
      rewrite reverse_cons, <- app_assoc. cbn [app].
      by destruct (bool_decide (w = [])).
Qed.

(** [clean_description] is [" ".join(text.split())], kept when it has 20
    characters or more. *)
Lemma clean_description_join t :
  clean_description t
  = let joined := join [32] (split (or_empty t)) in
    if (length joined <? 20)%nat then None else Some joined.
Proof.
  unfold clean_description.
  assert (strip (sub_whitespace false (or_empty t))
          = join [32] (split (or_empty t))) as Hj.
  { unfold strip. rewrite lstrip_sub_whitespace.
    apply (rstrip_sub_whitespace (or_empty t) [] (Forall_nil_2 _)). }
  destruct (truthy t) eqn:Ht; cbn [negb]; [by rewrite Hj|].
  by destruct t as [[|]|].
Qed.

End DescriptionWords.

Section DescriptionOutput.
Import Normalizer.
Implicit Types (s d : list N).

Lemma filter_sub_whitespace b s :
  filter not_whitespace (sub_whitespace b s) = filter not_whitespace s.
Proof.
  revert b. induction s as [|c s IH]; intros b; [done|]. cbn [sub_whitespace].
  destruct (is_whitespace c) eqn:Hc.
  - rewrite filter_app, IH, (filter_cons_False _ c) by (unfold not_whitespace; congruence).
    destruct b; [done|]. by rewrite filter_cons_False by done.
  - by rewrite !filter_cons_True, IH by done.
Qed.

Lemma filter_take_while_whitespace s :
  filter not_whitespace (take_while is_whitespace s) = [].
Proof.
  induction s as [|c s IH]; [done|]. cbn [take_while].
  destruct (is_whitespace c) eqn:Hc; [|done].
  by rewrite filter_cons_False by (unfold not_whitespace; congruence).
Qed.

Lemma filter_lstrip s : filter not_whitespace (lstrip s) = filter not_whitespace s.
Proof.
  rewrite <- (take_drop_while is_whitespace s) at 2.
  by rewrite filter_app, filter_take_while_whitespace.
Qed.

Lemma filter_rstrip s : filter not_whitespace (rstrip s) = filter not_whitespace s.
Proof.
  unfold rstrip. rewrite filter_reverse.
  change (drop_while is_whitespace (reverse s)) with (lstrip (reverse s)).
  by rewrite filter_lstrip, filter_reverse, reverse_involutive.
Qed.

Lemma filter_strip s : filter not_whitespace (strip s) = filter not_whitespace s.
Proof. unfold strip. by rewrite filter_rstrip, filter_lstrip. Qed.

Lemma length_sub_whitespace b s : (length (sub_whitespace b s) ≤ length s)%nat.
Proof.
  revert b. induction s as [|c s IH]; intros b; [done|]. cbn [sub_whitespace].
  destruct (is_whitespace c).
  - rewrite length_app. specialize (IH true). destruct b; cbn [length]; lia.
  - cbn [length]. specialize (IH false). lia.
Qed.

Lemma length_strip s : (length (strip s) ≤ length s)%nat.
Proof.
  destruct (strip_infix s) as (k1 & k2 & E). rewrite E at 2.
  rewrite !length_app. lia.
Qed.

Lemma strip_last s c : last (strip s) = Some c → is_whitespace c = false.
Proof.
  unfold strip, rstrip. rewrite last_reverse.
  destruct (drop_while is_whitespace (reverse (lstrip s))) as [|x r] eqn:E;
    [done|].
  intros [= <-]. by eapply drop_while_head.
Qed.

Lemma single_spaced_lookup d : ∀ b i c,
  single_spaced b d = true → d !! i = Some c → is_whitespace c = true →
  c = 32 ∧ ∀ c', d !! S i = Some c' → is_whitespace c' = false.
Proof.
  induction d as [|x d IH]; intros b i c Hd Hi Hc; [done|].
  cbn [single_spaced] in Hd. destruct i as [|i].
  - injection Hi as ->. rewrite Hc in Hd.
    apply andb_prop in Hd as [[_ ->%N.eqb_eq]%andb_prop Hd]. split; [done|].
    intros c' Hc'. destruct d as [|y d]; [done|]. injection Hc' as ->.
    cbn [single_spaced] in Hd. by destruct (is_whitespace c').
  - destruct (is_whitespace x).
    + apply andb_prop in Hd as [_ Hd]. by eapply IH.
    + by eapply IH.
Qed.

Lemma clean_description_some t d :
  clean_description t = Some d →
  d = strip (sub_whitespace false (or_empty t)) ∧ (20 ≤ length d)%nat.
Proof.
  unfold clean_description. destruct (truthy t); [|done]. cbn [negb].
  destruct (length _ <? 20)%nat eqn:E; [done|]. intros [= <-].
  apply Nat.ltb_ge in E. done.
Qed.

End DescriptionOutput.

(** X7.  [clean_description] computes [" ".join(text.split())] and keeps it
    when it has at least 20 characters: the result depends only on the
    words of the text, not on how much or which whitespace stands between
    and around them. *)
Theorem clean_description_words (t : option str) :
  Normalizer.clean_description t
  = (let joined := join [32] (split (or_empty t)) in
     if (length joined <? 20)%nat then None else Some joined)
  ∧ (∀ t' : option str,
       split (or_empty t) = split (or_empty t') →
       Normalizer.clean_description t = Normalizer.clean_description t').
Proof.
  split; [apply clean_description_join|].
  intros t' Hwords. by rewrite !clean_description_join, Hwords.
Qed.

(** X8.  A cleaned description has at least 20 characters and is never
    longer than the raw text; it neither starts nor ends with whitespace;
    its only whitespace is single spaces (U+0020), never two in a row; and
    its other characters are exactly those of the raw text, in order. *)
Theorem clean_description_output (t : option str) (d : str) :
  Normalizer.clean_description t = Some d →
  (20 ≤ length d ≤ length (or_empty t))%nat
  ∧ (∀ c, head d = Some c ∨ last d = Some c → is_whitespace c = false)
  ∧ (∀ i c, d !! i = Some c → is_whitespace c = true →
       c = 32 ∧ ∀ c', d !! S i = Some c' → is_whitespace c' = false)
  ∧ filter not_whitespace d = filter not_whitespace (or_empty t).
Proof.
  intros (-> & Hlen)%clean_description_some.
  set (u := Normalizer.sub_whitespace false (or_empty t)) in *. split_and!.
  - done.
  - etrans; [apply length_strip|apply length_sub_whitespace].
  - intros c [Hc|Hc]; [|by eapply strip_last].
    pose proof (strip_head u) as Hh. by destruct (strip u); simplify_eq/=.
  - intros i c. apply (single_spaced_lookup _ false).
    destruct (strip_infix u) as (k1 & k2 & E).
    pose proof (sub_whitespace_single_spaced false (or_empty t)) as Hu.
    fold u in Hu. rewrite E in Hu.
    apply single_spaced_app_r in Hu. by apply single_spaced_app_l in Hu.
  - unfold u. by rewrite filter_strip, filter_sub_whitespace.
Qed.

Lemma clean_description_output_witness :
  let t := Some (py "  A  fine
 Georgian	silver   spoon.  ") in
  Normalizer.clean_description t = Some (py "A fine Georgian silver spoon.")
  ∧ (20 ≤ length (py "A fine Georgian silver spoon.") ≤ length (or_empty t))%nat.
Proof.
  intros t.
  assert (Normalizer.clean_description t
          = Some (py "A fine Georgian silver spoon.")) as H by (by vm_compute).
  split; [exact H|]. by destruct (clean_description_output _ _ H) as [? _].
Defined.

(** ** Prices *)

Section FloatFacts.

Lemma round_half_even_1 n : Float.round_half_even n 1 = n.
Proof. unfold Float.round_half_even. by rewrite N.mod_1_r, N.div_1_r. Qed.

(** A natural number below 2^53 is a binary64 value. *)
Lemma of_ratio_exact n : n < 2 ^ 53 → Float.is_integer (Float.of_ratio n 1) n.
Proof.
  intros Hn. unfold Float.of_ratio.
  destruct (n =? 0) eqn:E0.
  { apply N.eqb_eq in E0 as ->. left. split; [lia|done]. }
  apply N.eqb_neq in E0.
  assert (0 < n) as Hpos by lia.
  pose proof (N.log2_spec n Hpos) as [Hlo Hhi].
  assert (N.log2 n < 53) as HL by (by apply N.log2_lt_pow2).
  set (L := N.log2 n) in *.
  change (N.log2 1) with 0.
  replace (Z.max (Z.of_N L - Z.of_N 0 - 53) (-1074))%Z
    with (Z.of_N L - 53)%Z by lia.
  unfold Float.scale at 1.
  replace (0 <=? Z.of_N L - 53)%Z with false by (symmetry; apply Z.leb_gt; lia).
  replace (Z.to_N (- (Z.of_N L - 53))) with (53 - L) by lia.
  assert (2 ^ 53 ≤ n * 2 ^ (53 - L)) as Hge.
  { replace (2 ^ 53) with (2 ^ L * 2 ^ (53 - L)).
    - by apply N.mul_le_mono_r.
    - rewrite <- N.pow_add_r. f_equal. lia. }
  rewrite N.div_1_r.
  replace (n * 2 ^ (53 - L) <? 2 ^ 53) with false
    by (symmetry; by apply N.ltb_ge).
  assert (n * 2 ^ (52 - L) < 2 ^ 53) as Hlt.
  { replace (2 ^ 53) with (2 ^ N.succ L * 2 ^ (52 - L)).
    - apply N.mul_lt_mono_pos_r; [|done].
      apply N.neq_0_lt_0, N.pow_nonzero. lia.
    - rewrite <- N.pow_add_r. f_equal. lia. }
  assert (Float.scale n 1 (Z.of_N L - 53 + 1) = (n * 2 ^ (52 - L), 1)) as ->.
  { unfold Float.scale. destruct (0 <=? Z.of_N L - 53 + 1)%Z eqn:E.
    - apply Z.leb_le in E.
      replace (Z.to_N (Z.of_N L - 53 + 1)) with 0 by lia.
      replace (52 - L) with 0 by lia. rewrite N.pow_0_r. f_equal; lia.
    - f_equal. f_equal. f_equal. lia. }
  rewrite round_half_even_1.
  replace (n * 2 ^ (52 - L) =? 2 ^ 53) with false
    by (symmetry; by apply N.eqb_neq, N.lt_neq).
  replace (971 <? Z.of_N L - 53 + 1)%Z with false
    by (symmetry; apply Z.ltb_ge; lia).
  left. split; [lia|]. f_equal. f_equal. lia.
Qed.

(** From 2^1024 on a natural number is read as infinity. *)
Lemma of_ratio_overflow a : 2 ^ 1024 ≤ a → Float.of_ratio a 1 = Float.Infinity.
Proof.
  intros Ha. unfold Float.of_ratio.
  assert (0 < a) as Hpos.
  { eapply N.lt_le_trans; [|exact Ha]. apply N.neq_0_lt_0, N.pow_nonzero. lia. }
  destruct (a =? 0) eqn:E0; [apply N.eqb_eq in E0; lia|].
  pose proof (N.log2_spec a Hpos) as [Hlo Hhi].
  assert (1024 ≤ N.log2 a) as HL by (by apply N.log2_le_pow2).
  set (L := N.log2 a) in *.
  change (N.log2 1) with 0.
  replace (Z.max (Z.of_N L - Z.of_N 0 - 53) (-1074))%Z
    with (Z.of_N L - 53)%Z by lia.
  unfold Float.scale at 1.
  replace (0 <=? Z.of_N L - 53)%Z with true by (symmetry; apply Z.leb_le; lia).
  replace (Z.to_N (Z.of_N L - 53)) with (L - 53) by lia.
  rewrite N.mul_1_l.
  assert (2 ^ 53 ≤ a / 2 ^ (L - 53)) as Hge.
  { apply N.div_le_lower_bound; [apply N.pow_nonzero; lia|].
    rewrite <- N.pow_add_r. by replace (L - 53 + 53) with L by lia. }
  replace (a / 2 ^ (L - 53) <? 2 ^ 53) with false
    by (symmetry; by apply N.ltb_ge).
  destruct (Float.scale a 1 (Z.of_N L - 53 + 1)) as [n d].
  destruct (Float.round_half_even n d =? 2 ^ 53).
  - by replace (971 <? Z.of_N L - 53 + 1 + 1)%Z with true
      by (symmetry; apply Z.ltb_lt; lia).
  - by replace (971 <? Z.of_N L - 53 + 1)%Z with true
      by (symmetry; apply Z.ltb_lt; lia).
Qed.

End FloatFacts.

Section PriceRuns.
Import Normalizer.
Context `{UnicodeDB}.
Implicit Types (s pre run rest : list N).

Lemma is_price_char_latin c : c < 192 → is_price_char c = ascii_price_char c.
Proof.
  intros Hc. unfold is_price_char, ascii_price_char, is_decimal.
  rewrite to_decimal_latin by done. unfold latin_decimal.
  destruct ((48 <=? c) && (c <=? 57)); [|done].
  by rewrite bool_decide_eq_true_2 by (by eexists).
Qed.

Lemma ascii_price_char_latin c : ascii_price_char c = true → c < 192.
Proof. unfold ascii_price_char, comma, full_stop. intros Hc. nbool; lia. Qed.

Lemma ascii_price_char_fixed c : ascii_price_char c = true → latin_lower c = c.
Proof.
  unfold ascii_price_char, latin_lower, comma, full_stop. intros Hc.
  case_match; [|done]. nbool; lia.
Qed.

Lemma ascii_price_char_lower c :
  ascii_price_char (latin_lower c) = ascii_price_char c.
Proof.
  unfold latin_lower. destruct ((65 <=? c) && (c <=? 90)) eqn:E; [|done].
  unfold ascii_price_char, comma, full_stop.
  apply andb_prop in E as [E1%N.leb_le E2%N.leb_le].
  assert ((c + 32 <=? 57) = false) as -> by (apply N.leb_gt; lia).
  assert ((c + 32 =? 44) = false) as -> by (apply N.eqb_neq; lia).
  assert ((c + 32 =? 46) = false) as -> by (apply N.eqb_neq; lia).
  assert ((c <=? 57) = false) as -> by (apply N.leb_gt; lia).
  assert ((c =? 44) = false) as -> by (apply N.eqb_neq; lia).
  assert ((c =? 46) = false) as -> by (apply N.eqb_neq; lia).
  by rewrite !andb_false_r.
Qed.

Lemma fmap_latin_lower_fixed run :
  (∀ c, c ∈ run → ascii_price_char c = true) → latin_lower <$> run = run.
Proof.
  intros Hrun. rewrite <- (list_fmap_id run) at 2. apply list_fmap_ext.
  intros i c Hc%list_elem_of_lookup_2. by apply ascii_price_char_fixed, Hrun.
Qed.

(** The leftmost run of price characters. *)
Lemma search_price_run_app pre run rest :
  (∀ c, c ∈ pre → is_price_char c = false) →
  run ≠ [] → (∀ c, c ∈ run → is_price_char c = true) →
  (∀ c, head rest = Some c → is_price_char c = false) →
  search_price_run (pre ++ run ++ rest) = Some run.
Proof.
  intros Hpre Hne Hrun Hrest. unfold search_price_run.
  destruct run as [|c run]; [done|].
  rewrite drop_while_app.
  - cbn [app]. f_equal.
    change (c :: run ++ rest) with ((c :: run) ++ rest).
    apply take_while_app; [done|]. destruct rest; [done|]. by apply Hrest.
  - intros x Hx. by rewrite Hpre.
  - cbn [app]. rewrite Hrun by (apply elem_of_cons; auto). done.
Qed.

Lemma no_poa_in_run run :
  (∀ c, c ∈ run → ascii_price_char c = true) → contains (py "poa") run = false.
Proof.
  intros Hrun. destruct (contains (py "poa") run) eqn:E; [|done].
  change (py "poa") with [112; 111; 97] in E.
  apply contains_head, Hrun in E. discriminate.
Qed.

(** The value of a Latin text that does not mention "poa" is read from
    its leftmost run of price characters, commas removed. *)
Lemma parse_price_value_run pre run rest :
  latin (pre ++ run ++ rest) = true →
  (∀ c, c ∈ pre → ascii_price_char c = false) →
  run ≠ [] → (∀ c, c ∈ run → ascii_price_char c = true) →
  (∀ c, head rest = Some c → ascii_price_char c = false) →
  contains (py "poa") (latin_lower <$> pre ++ run ++ rest) = false →
  parse_price_value (Some (pre ++ run ++ rest))
  = float_or_null (py_float (remove_commas run)).
Proof.
  intros Hlatin Hpre Hne Hrun Hrest Hpoa. unfold parse_price_value.
  assert (truthy (Some (pre ++ run ++ rest)) = true) as ->.
  { destruct pre; [|done]. by destruct run. }
  cbn [negb or_empty]. rewrite lower_latin, Hpoa by done.
  rewrite !fmap_app, (fmap_latin_lower_fixed run) by done.
  assert (∀ c, c ∈ pre ++ run ++ rest → c < 192) as Hlt
    by (intros c; by apply latin_elem).
  rewrite search_price_run_app;
    [by destruct (py_float _) as [?|[]]| |done| |].
  - intros c (c0 & -> & Hc0)%list_elem_of_fmap.
    assert (c0 < 192) as Hc by (apply Hlt, elem_of_app; auto).
    rewrite is_price_char_latin, ascii_price_char_lower by
      (unfold latin_lower; case_match; [nbool|]; lia).
    by apply Hpre.
  - intros c Hc. rewrite is_price_char_latin; eauto using ascii_price_char_latin.
  - intros c Hc. destruct rest as [|c0 rest]; [done|]. injection Hc as <-.
    assert (c0 < 192) as Hc.
    { apply Hlt. rewrite !elem_of_app, elem_of_cons. auto. }
    rewrite is_price_char_latin, ascii_price_char_lower by
      (unfold latin_lower; case_match; [nbool|]; lia).
    by apply Hrest.
Qed.

(** A text of price characters alone. *)
Lemma parse_price_value_price_chars s :
  (∀ c, c ∈ s → ascii_price_char c = true) →
  parse_price_value (Some s) = float_or_null (py_float (remove_commas s)).
Proof.
  intros Hs. destruct (decide (s = [])) as [->|Hne]; [done|].
  pose proof (parse_price_value_run [] s []) as Hrun.
  rewrite app_nil_r in Hrun. cbn [app] in Hrun. apply Hrun; try done.
  - apply latin_intro. eauto using ascii_price_char_latin.
  - by intros c ?%elem_of_nil.
  - rewrite fmap_latin_lower_fixed by done. by apply no_poa_in_run.
Qed.

Lemma ascii_digits_price_char s c :
  ascii_digits (remove_commas s) = true → c ∈ s → ascii_price_char c = true.
Proof.
  intros Hs Hc. unfold ascii_price_char.
  destruct (decide (c = comma)) as [->|Hne]; [done|].
  assert (c ∈ remove_commas s) as Hin by (by apply list_elem_of_filter).
  pose proof (ascii_digits_elem _ _ Hs Hin) as [H1%N.leb_le H2%N.leb_le].
  by rewrite H1, H2.
Qed.

Lemma digits_value_ascii s :
  ascii_digits s = true → digits_value s = ascii_value s.
Proof.
  intros Hs. unfold digits_value, ascii_value.
  enough (∀ acc, foldl (λ acc c, 10 * acc + default 0 (to_decimal c)) acc s
                 = foldl (λ acc c, 10 * acc + (c - 48)) acc s) as Hacc
    by apply Hacc.
  induction s as [|c s IH]; intros acc; [done|].
  apply andb_prop in Hs as [Hc Hs]. cbn [foldl]. rewrite IH by done.
  do 2 f_equal. rewrite to_decimal_latin by (nbool; lia).
  unfold latin_decimal. by rewrite Hc.
Qed.

Lemma py_float_digits s :
  ascii_digits s = true → s ≠ [] →
  py_float s = Return (Float.of_ratio (ascii_value s) 1).
Proof.
  intros Hs Hne. unfold py_float.
  assert (∀ c, c ∈ s → is_decimal c = true) as Hdec
    by eauto using ascii_digit_decimal, ascii_digits_elem.
  pose proof (take_drop_while is_decimal s) as Hsplit.
  assert (take_while is_decimal s = s) as -> by (by apply take_while_all_true).
  assert (drop_while is_decimal s = []) as ->.
  { rewrite <- (app_nil_r s) at 1. by apply drop_while_app. }
  rewrite digits_value_ascii by done. by destruct s.
Qed.

(** A whole number written in ASCII digits, with commas anywhere. *)
Lemma parse_price_value_whole s :
  ascii_digits (remove_commas s) = true → remove_commas s ≠ [] →
  parse_price_value (Some s)
  = Return (Some (Float.of_ratio (ascii_value (remove_commas s)) 1)).
Proof.
  intros Hs Hne. rewrite parse_price_value_price_chars
    by eauto using ascii_digits_price_char.
  by rewrite py_float_digits.
Qed.

End PriceRuns.

(** X9.  Only the first run of digits, commas and full stops of a price
    text is read.  For a Latin text that does not mention "poa" and is made
    of a part without price characters, a non-empty run of them, and a rest
    that does not start with one, the value is that of the run alone: a
    range such as "100 to 200" after a pound sign is read as 100, whatever
    follows. *)
Theorem parse_price_value_first_run `{UnicodeDB} (pre run rest : str) :
  latin (pre ++ run ++ rest) = true →
  contains (py "poa") (latin_lower <$> pre ++ run ++ rest) = false →
  forallb (λ c, negb (ascii_price_char c)) pre = true →
  run ≠ [] →
  forallb ascii_price_char run = true →
  forallb (λ c, negb (ascii_price_char c)) (take 1 rest) = true →
  Normalizer.parse_price_value (Some (pre ++ run ++ rest))
  = Normalizer.parse_price_value (Some run).
Proof.
  rewrite !forallb_forall. intros Hlatin Hpoa Hpre Hne Hrun Hrest.
  assert (∀ c, c ∈ run → ascii_price_char c = true) as Hrun'
    by (intros c Hc%list_elem_of_In; auto).
  rewrite parse_price_value_run, parse_price_value_price_chars; try done.
  - intros c Hc%list_elem_of_In. by apply negb_true_iff, Hpre.
  - intros c Hc. apply negb_true_iff, Hrest.
    destruct rest; simplify_eq/=. by left.
Qed.

Lemma parse_price_value_first_run_witness :
  @Normalizer.parse_price_value latin_db (Some ([163] ++ py "100" ++ py " to 200"))
  = @Normalizer.parse_price_value latin_db (Some (py "100"))
  ∧ @Normalizer.parse_price_value latin_db (Some (py "100"))
    = Return (Some (Float.of_N 100)).
Proof.
  split; [|reflexivity].
  apply (@parse_price_value_first_run latin_db [163] (py "100") (py " to 200"));
    first [reflexivity | discriminate].
Defined.

(** X10.  Commas are dropped wherever they stand.  Two texts of ASCII
    digits, commas and full stops that agree once their commas are removed
    get the same value; so a comma used as a decimal mark is not read as
    one ("12,50" is 1250), and a text of commas alone has no value. *)
Theorem parse_price_value_ignores_commas `{UnicodeDB} (s s' : str) :
  forallb ascii_price_char s = true →
  forallb ascii_price_char s' = true →
  Normalizer.remove_commas s = Normalizer.remove_commas s' →
  Normalizer.parse_price_value (Some s) = Normalizer.parse_price_value (Some s').
Proof.
  rewrite !forallb_forall. intros Hs Hs' Heq.
  rewrite !parse_price_value_price_chars, Heq; [done| |];
    intros c Hc%list_elem_of_In; auto.
Qed.

Lemma parse_price_value_ignores_commas_witness :
  @Normalizer.parse_price_value latin_db (Some (py "12,50"))
  = @Normalizer.parse_price_value latin_db (Some (py "1,250"))
  ∧ @Normalizer.parse_price_value latin_db (Some (py "1,250"))
    = Return (Some (Float.of_N 1250)).
Proof.
  split; [|reflexivity].
  apply (@parse_price_value_ignores_commas latin_db (py "12,50") (py "1,250"));
    reflexivity.
Defined.

(** X11.  A whole-number price below 2^53, written in ASCII digits with
    commas anywhere, is read exactly: the value is that integer. *)
Theorem parse_price_value_whole_exact `{UnicodeDB} (s : str) :
  ascii_digits (Normalizer.remove_commas s) = true →
  Normalizer.remove_commas s ≠ [] →
  ascii_value (Normalizer.remove_commas s) < 2 ^ 53 →
  ∃ v, Normalizer.parse_price_value (Some s) = Return (Some v)
       ∧ Float.is_integer v (ascii_value (Normalizer.remove_commas s)).
Proof.
  intros Hs Hne Hlt. eexists. split; [by apply parse_price_value_whole|].
  by apply of_ratio_exact.
Qed.

Lemma parse_price_value_whole_exact_witness :
  ascii_value (Normalizer.remove_commas (py "1,250")) = 1250
  ∧ ∃ v, @Normalizer.parse_price_value latin_db (Some (py "1,250"))
         = Return (Some v)
         ∧ Float.is_integer v (ascii_value (Normalizer.remove_commas (py "1,250"))).
Proof.
  split; [reflexivity|].
  apply (@parse_price_value_whole_exact latin_db (py "1,250"));
    first [reflexivity | discriminate].
Defined.

(** X12.  A whole-number price of 2^1024 or more is read as infinity:
    [float] does not reject it, so the record's price is an infinite
    value, not null. *)
Theorem parse_price_value_overflow `{UnicodeDB} (s : str) :
  ascii_digits (Normalizer.remove_commas s) = true →
  2 ^ 1024 ≤ ascii_value (Normalizer.remove_commas s) →
  Normalizer.parse_price_value (Some s) = Return (Some Float.Infinity).
Proof.
  intros Hs Hge. rewrite parse_price_value_whole; [|done|].
  - by rewrite of_ratio_overflow.
  - intros E. rewrite E in Hge. by vm_compute in Hge.
Qed.

Lemma parse_price_value_overflow_witness :
  @Normalizer.parse_price_value latin_db (Some (49 :: repeat 48 309))
  = Return (Some Float.Infinity).
Proof.
  apply (@parse_price_value_overflow latin_db (49 :: repeat 48 309)).
  - reflexivity.
  - by vm_compute.
Defined.

(** ** The cleaning loop *)

Section MainFacts.
Import Normalizer.
Context `{UnicodeDB}.
Implicit Types (raw_items kept : list RawItem) (seen : gset (list N)).

(** The loop keeps a subsequence of its input: one record for each key
    not seen before. *)
Lemma clean_loop_kept (raw_items : list RawItem) :
  ∀ seen (acc : list CleanItem),
    ∃ kept,
      clean_loop raw_items seen acc = Return (acc ++ (clean_form <$> kept))
      ∧ sublist kept raw_items
      ∧ NoDup (build_dedupe_key <$> kept)
      ∧ (∀ a, a ∈ kept → build_dedupe_key a ∉ seen)
      ∧ (∀ a, a ∈ raw_items →
           build_dedupe_key a ∈ seen
           ∨ build_dedupe_key a ∈ build_dedupe_key <$> kept)
      ∧ (NoDup (build_dedupe_key <$> raw_items) →
         (∀ a, a ∈ raw_items → build_dedupe_key a ∉ seen) →
         kept = raw_items).
Proof.
  induction raw_items as [|item raw_items IH]; intros seen acc.
  { exists []. cbn. rewrite app_nil_r. split_and!; try done.
    - constructor.
    - by intros a ?%elem_of_nil.
    - by intros a ?%elem_of_nil. }
  cbn [clean_loop].
  destruct (decide (build_dedupe_key item ∈ seen)) as [Hin|Hnotin].
  - destruct (IH seen acc) as (kept & Hrun & Hsub & Hnd & Hfresh & Hcov & _).
    exists kept. split_and!; try done.
    + by apply sublist_cons.
    + intros a [->|Ha]%elem_of_cons; auto.
    + intros _ Hall. exfalso. apply (Hall item); [by left|done].
  - rewrite cleaned_record_returns.
    destruct (IH ({[build_dedupe_key item]} ∪ seen) (acc ++ [clean_form item]))
      as (kept & Hrun & Hsub & Hnd & Hfresh & Hcov & Hall).
    exists (item :: kept). split_and!.
    + rewrite Hrun, <- app_assoc. done.
    + by apply sublist_skip.
    + rewrite fmap_cons. apply NoDup_cons. split; [|done].
      intros (a & Hk & Ha)%list_elem_of_fmap. apply (Hfresh a Ha).
      rewrite elem_of_union, elem_of_singleton. auto.
    + intros a [->|Ha]%elem_of_cons; [done|].
      intros Hs. apply (Hfresh a Ha). rewrite elem_of_union. auto.
    + intros a [->|Ha]%elem_of_cons.
      * right. rewrite fmap_cons. by left.
      * rewrite fmap_cons, elem_of_cons.
        destruct (Hcov a Ha) as [Hs|Hk]; [|auto].
        apply elem_of_union in Hs as [Hs%elem_of_singleton|Hs]; auto.
    + rewrite fmap_cons. intros [Hitem Hrest]%NoDup_cons Hno. f_equal.
      apply Hall; [done|]. intros a Ha.
      rewrite elem_of_union, elem_of_singleton. intros [Hk|Hs].
      * apply Hitem. rewrite <- Hk. apply list_elem_of_fmap. eauto.
      * apply (Hno a); [by right|done].
Qed.

(** Records already seen do not come back: the loop on a longer input
    goes on from where the loop on the shorter one ended. *)
Lemma clean_loop_app (l1 l2 : list RawItem) :
  ∀ seen (acc : list CleanItem),
    ∃ seen' out,
      clean_loop l1 seen acc = Return out
      ∧ clean_loop (l1 ++ l2) seen acc = clean_loop l2 seen' out.
Proof.
  induction l1 as [|item l1 IH]; intros seen acc.
  { by exists seen, acc. }
  cbn [clean_loop app].
  destruct (decide (build_dedupe_key item ∈ seen)); [apply IH|].
  rewrite cleaned_record_returns. apply IH.
Qed.

Lemma length_sublist {A} (l1 l2 : list A) :
  sublist l1 l2 → (length l1 ≤ length l2)%nat.
Proof. induction 1; cbn; lia. Qed.

End MainFacts.

(** X13.  [main] keeps one record for each dedup key of its input: the
    records written are the cleaned forms of a subsequence of the raw
    records, in input order; no two of the records kept share a key; every
    key of the input is the key of a record kept; and nothing is dropped
    exactly when the keys of the input are pairwise distinct. *)
Theorem main_one_record_per_key `{UnicodeDB} (raw_items : list RawItem) :
  ∃ kept : list RawItem,
    Normalizer.main raw_items = Return (clean_form <$> kept)
    ∧ sublist kept raw_items
    ∧ NoDup (Normalizer.build_dedupe_key <$> kept)
    ∧ (∀ a, a ∈ raw_items →
         Normalizer.build_dedupe_key a ∈ Normalizer.build_dedupe_key <$> kept)
    ∧ (kept = raw_items ↔ NoDup (Normalizer.build_dedupe_key <$> raw_items)).
Proof.
  destruct (clean_loop_kept raw_items ∅ [])
    as (kept & Hrun & Hsub & Hnd & _ & Hcov & Hall).
  exists kept. split_and!; try done.
  - intros a Ha. destruct (Hcov a Ha) as [Hs|Hk]; [|done].
    by apply elem_of_empty in Hs.
  - split; [by intros <-|]. intros Hraw. apply Hall; [done|].
    intros a _. apply not_elem_of_empty.
Qed.

(** X14.  Appending records to the raw snapshot leaves the records written
    for the earlier ones as they were: the output for [l1 ++ l2] is the
    output for [l1], followed by at most one record for each record of
    [l2]. *)
Theorem main_extends `{UnicodeDB} (l1 l2 : list RawItem) :
  ∃ out1 out2 : list CleanItem,
    Normalizer.main l1 = Return out1
    ∧ Normalizer.main (l1 ++ l2) = Return (out1 ++ out2)
    ∧ (length out2 ≤ length l2)%nat.
Proof.
  unfold Normalizer.main.
  destruct (clean_loop_app l1 l2 ∅ []) as (seen' & out1 & H1 & H2).
  destruct (clean_loop_kept l2 seen' out1) as (kept & Hrun & Hsub & _).
  exists out1, (clean_form <$> kept). split_and!; [done|congruence|].
  rewrite length_fmap. by apply length_sublist.
Qed.

(** ** The categories of the collection, normalized *)

Section Pipeline.
Import Scraper Normalizer.
Variable site : Site.

Lemma run_record_category (r : RawItem) :
  r ∈ collected_items (run site).1 →
  ∃ name path, (name, path) ∈ CATEGORY_PATHS ∧ category r = Some name.
Proof.
  destruct (run_blocks site) as (blocks & -> & Hall & _).
  intros (block & Hr & Hblock)%elem_of_concat.
  apply list_elem_of_lookup in Hblock as [i Hi].
  destruct (Forall2_lookup_l _ _ _ _ _ Hall Hi) as ([name path] & Hcat & V & ->).
  apply walk_records_elem in Hr as (u & page & _ & _ & _ & ->).
  exists name, path. split; [|done].
  apply lookup_take_Some in Hcat as [Hcat _]. by eapply list_elem_of_lookup_2.
Qed.

(** The categories of the collection are the labels of the lookup table
    of the normalization. *)
Lemma scraped_category_normalized name path :
  (name, path) ∈ CATEGORY_PATHS →
  ∃ id, (name, id) ∈ category_table
        ∧ normalize_category (Some name) = id
        ∧ id ≠ py "other".
Proof.
  unfold CATEGORY_PATHS. rewrite !elem_of_cons, elem_of_nil.
  intros Hin.
  repeat (destruct Hin as [Hin|Hin];
          [injection Hin as -> _;
           match goal with
           | |- context [normalize_category ?c] =>
               let v := eval vm_compute in (normalize_category c) in
               exists v
           end;
           split_and!; [|by vm_compute|discriminate];
           apply list_elem_of_In; cbn;
           repeat first [left; reflexivity | right]|]).
  done.
Qed.

End Pipeline.

(** X15.  The category names of the collection are the labels that the
    normalization knows.  Every record of a run carries one of the six
    configured category names, and [normalize_category] maps the category
    of the record to the identifier that the lookup table gives for that
    name: one of the six canonical identifiers, and never "other". *)
Theorem collected_categories_known (site : Scraper.Site) (r : RawItem) :
  r ∈ Scraper.collected_items (Scraper.run site).1 →
  ∃ name path id,
    (name, path) ∈ Scraper.CATEGORY_PATHS
    ∧ (name, id) ∈ category_table
    ∧ category r = Some name
    ∧ Normalizer.normalize_category (category r) = id
    ∧ id ∈ canonical_identifiers
    ∧ id ≠ py "other".
Proof.
  intros (name & path & Hcat & Hname)%run_record_category.
  destruct (scraped_category_normalized name path Hcat) as (id & Hid & Hnorm & Hother).
  exists name, path, id. rewrite Hname. split_and!; try done.
  unfold canonical_identifiers. apply list_elem_of_fmap. by exists (name, id).
Qed.

Lemma collected_categories_known_witness :
  let site := gap_on_page_3 in
  let r := Scraper.extract_record
             (Scraper.BASE_SITE_URL ++ py "/antique/chair-02")
             (py "Furniture") (page_with_images []) in
  r ∈ Scraper.collected_items (Scraper.run site).1
  ∧ ∃ name path id,
      (name, path) ∈ Scraper.CATEGORY_PATHS
      ∧ (name, id) ∈ category_table
      ∧ category r = Some name
      ∧ Normalizer.normalize_category (category r) = id
      ∧ id ∈ canonical_identifiers
      ∧ id ≠ py "other".
Proof.
  intros site r.
  assert (r ∈ Scraper.collected_items (Scraper.run site).1) as Hr.
  { apply list_elem_of_lookup. exists 0%nat. by vm_compute. }
  split; [exact Hr|]. exact (collected_categories_known site r Hr).
Defined.

(** * Properties of the enrichment *)

Section EnrichFacts.
Import Enricher.
Variable generate_attributes : nat → list N → reply.
Implicit Types (items kept : list CleanItem) (records : list FinalItem).

Lemma imap_shift {A B} (f : nat → A → B) (k : nat) (l : list A) :
  imap ((λ i, f (k + i)%nat) ∘ S) l = imap (λ i, f (S k + i)%nat) l.
Proof. apply imap_ext. intros i x _. cbn. f_equal. lia. Qed.

(** When every reply is an object or a failure, the loop goes through all
    the items. *)
Lemma enrich_loop_written items : ∀ k records sent,
  (∀ i item, items !! i = Some item →
             not_an_object (reply_for generate_attributes (k + i) item) = false) →
  enrich_loop generate_attributes items k records sent
  = Written (records ++ omap id (imap (λ i, enriched generate_attributes (k + i)) items))
            (sent ++ (prompt_of <$> items)).
Proof.
  unfold enriched, reply_for.
  induction items as [|item items IH]; intros k records sent Hok.
  { cbn. by rewrite !app_nil_r. }
  cbn [enrich_loop imap omap list_omap fmap list_fmap].
  pose proof (Hok 0%nat item eq_refl) as H0.
  rewrite (imap_shift (λ i item,
             match generate_attributes i (prompt_of item) with
             | Parsed (JObject derived) => Some (final_record item derived)
             | _ => None
             end)).
  rewrite Nat.add_0_r in *.
  assert (∀ i item', items !! i = Some item' →
            not_an_object (generate_attributes (S k + i) (prompt_of item'))
            = false) as Hok'.
  { intros i item' Hi. specialize (Hok (S i) item' Hi).
    by replace (k + S i)%nat with (S k + i)%nat in Hok by lia. }
  destruct (generate_attributes k (prompt_of item)) as [[]|]; try done; cbn [id].
  - rewrite IH by done. by rewrite <- !app_assoc.
  - rewrite IH by done. by rewrite <- !app_assoc.
Qed.

(** The first reply that is a value but not an object ends the loop. *)
Lemma enrich_loop_aborted items : ∀ k records sent i item,
  items !! i = Some item →
  not_an_object (reply_for generate_attributes (k + i) item) = true →
  (∀ j item', (j < i)%nat → items !! j = Some item' →
              not_an_object (reply_for generate_attributes (k + j) item') = false) →
  enrich_loop generate_attributes items k records sent
  = Aborted AttributeError (sent ++ (prompt_of <$> take (S i) items)).
Proof.
  induction items as [|item0 items IH]; intros k records sent i item Hi Hbad Hok;
    [done|].
  cbn [enrich_loop]. destruct i as [|i].
  - injection Hi as ->. unfold reply_for in Hbad. rewrite Nat.add_0_r in Hbad.
    cbn [take fmap list_fmap].
    by destruct (generate_attributes k (prompt_of item)) as [[]|].
  - pose proof (Hok 0%nat item0 ltac:(lia) eq_refl) as H0.
    unfold reply_for in H0. rewrite Nat.add_0_r in H0.
    cbn [lookup list_lookup] in Hi.
    assert (∀ records',
              enrich_loop generate_attributes items (S k) records' (sent ++ [prompt_of item0])
              = Aborted AttributeError
                  (sent ++ (prompt_of <$> take (S (S i)) (item0 :: items))))
      as Hany.
    { intros records'. rewrite (IH (S k) records' _ i item Hi).
      - cbn [take fmap list_fmap]. by rewrite <- app_assoc.
      - by replace (S k + i)%nat with (k + S i)%nat by lia.
      - intros j item' Hj Hitem'.
        replace (S k + j)%nat with (k + S j)%nat by lia.
        apply Hok; [lia|done]. }
    destruct (generate_attributes k (prompt_of item0)) as [[]|]; try done;
      apply Hany.
Qed.

(** The records written come from a subsequence of the items. *)
Lemma enrich_loop_records items : ∀ k records sent records' sent',
  enrich_loop generate_attributes items k records sent = Written records' sent' →
  ∃ kept (deriveds : list (list (list N * json))),
    sublist kept items ∧ length deriveds = length kept
    ∧ records' = records ++ zip_with final_record kept deriveds.
Proof.
  induction items as [|item items IH]; intros k records sent records' sent' Hrun.
  { injection Hrun as <- <-. exists [], []. by rewrite app_nil_r. }
  cbn [enrich_loop] in Hrun.
  destruct (generate_attributes k (prompt_of item)) as [[| | | | | | |derived]|];
    try done.
  - apply IH in Hrun as (kept & ds & Hsub & Hlen & ->).
    exists (item :: kept), (derived :: ds). split_and!.
    + by apply sublist_skip.
    + cbn. by rewrite Hlen.
    + by rewrite <- app_assoc.
  - apply IH in Hrun as (kept & ds & Hsub & Hlen & ->).
    exists kept, ds. split_and!; [by apply sublist_cons|done|done].
Qed.

Lemma or_unknown_nonempty s : or_unknown s ≠ [].
Proof. by destruct s. Qed.

Lemma or_unknown_id s : s ≠ [] → or_unknown s = s.
Proof. by destruct s. Qed.

Lemma elem_of_zip_with_final kept (deriveds : list (list (list N * json))) r :
  r ∈ zip_with final_record kept deriveds →
  ∃ item derived, item ∈ kept ∧ r = final_record item derived.
Proof.
  revert deriveds. induction kept as [|item kept IH]; intros [|d ds]; cbn;
    try by intros ?%elem_of_nil.
  intros [->|Hr]%elem_of_cons.
  - exists item, d. split; [by left|done].
  - destruct (IH _ Hr) as (item' & d' & Hin & ->).
    exists item', d'. split; [by right|done].
Qed.

(** Some reply that is not an object: the first of them ends the loop. *)
Lemma first_not_an_object items : ∀ k i item,
  items !! i = Some item →
  not_an_object (reply_for generate_attributes (k + i) item) = true →
  ∃ i0 item0,
    (i0 ≤ i)%nat ∧ items !! i0 = Some item0
    ∧ not_an_object (reply_for generate_attributes (k + i0) item0) = true
    ∧ ∀ j item', (j < i0)%nat → items !! j = Some item' →
        not_an_object (reply_for generate_attributes (k + j) item') = false.
Proof.
  induction items as [|item0 items IH]; intros k i item Hi Hbad; [done|].
  destruct (not_an_object (reply_for generate_attributes (k + 0) item0)) eqn:E0.
  { exists 0%nat, item0. split_and!; [lia|done|done|]. intros j ? ?. lia. }
  destruct i as [|i].
  { injection Hi as ->. congruence. }
  cbn [lookup list_lookup] in Hi.
  replace (k + S i)%nat with (S k + i)%nat in Hbad by lia.
  destruct (IH (S k) i item Hi Hbad) as (i0 & item1 & Hle & Hi0 & Hbad0 & Hmin).
  exists (S i0), item1. split_and!; [lia|done| |].
  - by replace (k + S i0)%nat with (S k + i0)%nat by lia.
  - intros [|j] item' Hj Hitem'; [by injection Hitem' as <-|].
    replace (k + S j)%nat with (S k + j)%nat by lia.
    apply Hmin; [lia|done].
Qed.

Lemma enrich_loop_sent items : ∀ k records sent records' sent',
  enrich_loop generate_attributes items k records sent = Written records' sent' →
  sent' = sent ++ (prompt_of <$> items).
Proof.
  induction items as [|item items IH]; intros k records sent records' sent' Hrun.
  { injection Hrun as <- <-. by rewrite app_nil_r. }
  cbn [enrich_loop] in Hrun. cbn [fmap list_fmap].
  destruct (generate_attributes k (prompt_of item)) as [[| | | | | | |derived]|];
    try done; apply IH in Hrun as ->; by rewrite <- app_assoc.
Qed.

End EnrichFacts.

(** X16.  A failed call only skips its item.  When every call fails or
    returns an object, [main] makes one call for each item, in order, with
    the item's prompt, and writes the records of the items whose call
    returned an object, in input order. *)
Theorem enrich_skips_failed_calls
    (generate_attributes : nat → list N → Enricher.reply)
    (cleaned_items : list CleanItem) :
  (∀ i item, cleaned_items !! i = Some item →
             not_an_object (reply_for generate_attributes i item) = false) →
  Enricher.main generate_attributes cleaned_items
  = Enricher.Written
      (omap id (imap (enriched generate_attributes) cleaned_items))
      (Enricher.prompt_of <$> cleaned_items).
Proof.
  intros Hok. unfold Enricher.main.
  by rewrite (enrich_loop_written generate_attributes cleaned_items 0 [] []).
Qed.

Lemma enrich_skips_failed_calls_witness :
  let generate_attributes := λ (calls : nat) (_ : list N),
        if (calls =? 1)%nat then Enricher.Failed else object_reply in
  let cleaned_items :=
        [cleaned_chair (Some (py "Chair")); cleaned_chair (Some (py "Stool"));
         cleaned_chair None] in
  Enricher.main generate_attributes cleaned_items
  = Enricher.Written
      (omap id (imap (enriched generate_attributes) cleaned_items))
      (Enricher.prompt_of <$> cleaned_items)
  ∧ Enricher.f_item_title
      <$> omap id (imap (enriched generate_attributes) cleaned_items)
    = [py "Chair"; py "unknown"].
Proof.
  intros generate_attributes cleaned_items. split; [|reflexivity].
  apply (enrich_skips_failed_calls generate_attributes cleaned_items).
  intros [|[|[|i]]] item Hi; [reflexivity..|discriminate].
Defined.

(** X17.  A reply that is valid JSON but not an object ends the step.
    When the call for some item returns a value that is not an object,
    [main] is ended by an uncaught [AttributeError] at the first such item:
    nothing is written, also not the records of the items before it, and
    no call is made for the items after it. *)
Theorem enrich_aborts_on_non_object
    (generate_attributes : nat → list N → Enricher.reply)
    (cleaned_items : list CleanItem) (i : nat) (item : CleanItem) :
  cleaned_items !! i = Some item →
  not_an_object (reply_for generate_attributes i item) = true →
  ∃ i0 item0,
    (i0 ≤ i)%nat ∧ cleaned_items !! i0 = Some item0
    ∧ not_an_object (reply_for generate_attributes i0 item0) = true
    ∧ (∀ j item', (j < i0)%nat → cleaned_items !! j = Some item' →
         not_an_object (reply_for generate_attributes j item') = false)
    ∧ Enricher.main generate_attributes cleaned_items
      = Enricher.Aborted Enricher.AttributeError
          (Enricher.prompt_of <$> take (S i0) cleaned_items).
Proof.
  intros Hi Hbad.
  destruct (first_not_an_object generate_attributes cleaned_items 0 i item Hi Hbad)
    as (i0 & item0 & Hle & Hi0 & Hbad0 & Hmin).
  exists i0, item0. split_and!; try done.
  unfold Enricher.main.
  by rewrite (enrich_loop_aborted generate_attributes cleaned_items 0 [] []
                i0 item0).
Qed.

Lemma enrich_aborts_on_non_object_witness :
  let generate_attributes := λ (calls : nat) (_ : list N),
        if (calls =? 1)%nat then array_reply else object_reply in
  let cleaned_items :=
        [cleaned_chair (Some (py "Chair")); cleaned_chair (Some (py "Stool"));
         cleaned_chair None] in
  ∃ i0 item0,
    (i0 ≤ 1)%nat ∧ cleaned_items !! i0 = Some item0
    ∧ not_an_object (reply_for generate_attributes i0 item0) = true
    ∧ (∀ j item', (j < i0)%nat → cleaned_items !! j = Some item' →
         not_an_object (reply_for generate_attributes j item') = false)
    ∧ Enricher.main generate_attributes cleaned_items
      = Enricher.Aborted Enricher.AttributeError
          (Enricher.prompt_of <$> take (S i0) cleaned_items).
Proof.
  intros generate_attributes cleaned_items.
  apply (enrich_aborts_on_non_object generate_attributes cleaned_items 1
           (cleaned_chair (Some (py "Stool")))); reflexivity.
Defined.

(** X18.  What [main] writes.  When [main] returns, it has made one call
    for each item, in order; the records written are built from a
    subsequence of the items, in input order, so there are at most as many;
    and each record has a non-empty title and a non-empty category: those
    of its item, or "unknown" where the item has none, while the other
    fields of the item are copied. *)
Theorem enrich_records_from_items
    (generate_attributes : nat → list N → Enricher.reply)
    (cleaned_items : list CleanItem)
    (final_records : list Enricher.FinalItem) (sent : list (list N)) :
  Enricher.main generate_attributes cleaned_items
  = Enricher.Written final_records sent →
  sent = Enricher.prompt_of <$> cleaned_items
  ∧ (∃ kept deriveds,
       sublist kept cleaned_items ∧ length deriveds = length kept
       ∧ final_records = zip_with Enricher.final_record kept deriveds)
  ∧ (length final_records ≤ length cleaned_items)%nat
  ∧ (∀ r, r ∈ final_records →
       Enricher.f_item_title r ≠ []
       ∧ Enricher.f_category_normalized r ≠ []
       ∧ ∃ item,
           item ∈ cleaned_items
           ∧ (c_item_title item = Some (Enricher.f_item_title r)
              ∨ truthy (c_item_title item) = false
                ∧ Enricher.f_item_title r = py "unknown")
           ∧ (category_normalized item = Enricher.f_category_normalized r
              ∨ category_normalized item = []
                ∧ Enricher.f_category_normalized r = py "unknown")
           ∧ Enricher.f_source_url r = c_source_url item
           ∧ Enricher.f_description_raw r = c_description_raw item
           ∧ Enricher.f_description_clean r = description_clean item
           ∧ Enricher.f_price_value r = price_value item
           ∧ Enricher.f_images r = c_images item).
Proof.
  unfold Enricher.main. intros Hrun.
  pose proof (enrich_loop_sent _ _ _ _ _ _ _ Hrun) as Hsent.
  apply enrich_loop_records in Hrun as (kept & ds & Hsub & Hlen & Hrec).
  cbn [app] in Hsent, Hrec. split_and!; [done|by exists kept, ds| |].
  - rewrite Hrec, length_zip_with, Hlen, Nat.min_id. by apply length_sublist.
  - intros r Hr. rewrite Hrec in Hr.
    apply elem_of_zip_with_final in Hr as (item & d & Hitem & ->).
    cbn. split_and!; [apply or_unknown_nonempty..|].
    exists item. split_and!; try done.
    + by eapply elem_of_sublist.
    + unfold Enricher.title_of. destruct (c_item_title item) as [[|c t]|]; auto.
    + unfold Enricher.category_of. destruct (category_normalized item); auto.
Qed.

Lemma enrich_records_from_items_witness :
  let generate_attributes := λ (calls : nat) (_ : list N),
        if (calls =? 1)%nat then Enricher.Failed else object_reply in
  let cleaned_items :=
        [cleaned_chair (Some (py "Chair")); cleaned_chair (Some (py "Stool"));
         cleaned_chair None] in
  ∃ final_records sent,
    Enricher.main generate_attributes cleaned_items
    = Enricher.Written final_records sent
    ∧ length final_records = 2%nat
    ∧ sent = Enricher.prompt_of <$> cleaned_items.
Proof.
  intros generate_attributes cleaned_items.
  exists (omap id (imap (enriched generate_attributes) cleaned_items)),
         (Enricher.prompt_of <$> cleaned_items).
  split; [reflexivity|]. split; [reflexivity|].
  refine (proj1 (enrich_records_from_items generate_attributes cleaned_items
                   (omap id (imap (enriched generate_attributes) cleaned_items))
                   (Enricher.prompt_of <$> cleaned_items) _)).
  reflexivity.
Defined.

(** * Normalization, then enrichment *)

Section CleanedItems.
Import Normalizer Enricher.
Context `{UnicodeDB}.

Lemma clean_description_characters t d :
  clean_description t = Some d →
  d ≠ [] ∧ filter not_whitespace d = filter not_whitespace (or_empty t).
Proof.
  intros (-> & Hlen)%clean_description_some. split.
  - intros E. rewrite E in Hlen. cbn in Hlen. lia.
  - by rewrite filter_strip, filter_sub_whitespace.
Qed.

(** The description that goes into the prompt of a record of step 2. *)
Lemma description_of_clean_form (raw : RawItem) :
  (truthy (description_raw raw) = true →
   filter not_whitespace (description_of (clean_form raw))
   = filter not_whitespace (or_empty (description_raw raw)))
  ∧ (truthy (description_raw raw) = false →
     description_of (clean_form raw) = py "unknown")
  ∧ (∀ d, clean_description (description_raw raw) = Some d →
          description_of (clean_form raw) = d)
  ∧ (clean_description (description_raw raw) = None →
     truthy (description_raw raw) = true →
     description_of (clean_form raw) = or_empty (description_raw raw)).
Proof.
  unfold description_of, Scraper.py_or. cbn [clean_form description_clean c_description_raw].
  destruct (clean_description (description_raw raw)) as [d|] eqn:E.
  - destruct (clean_description_characters _ _ E) as [Hne Hchars].
    assert (truthy (Some d) = true) as -> by (by destruct d).
    cbn [or_empty]. rewrite or_unknown_id by done.
    split_and!; [done| |congruence|done].
    intros Hfalse. unfold clean_description in E. by rewrite Hfalse in E.
  - cbn [truthy or_empty].
    destruct (description_raw raw) as [[|c t]|]; split_and!; done.
Qed.

Lemma category_of_clean_form (raw : RawItem) :
  category_of (clean_form raw) = normalize_category (category raw)
  ∧ category_of (clean_form raw) ∈ canonical_identifiers ++ [py "other"].
Proof.
  unfold category_of. cbn [clean_form category_normalized].
  pose proof (normalize_category_range (category raw)) as Hrange.
  assert (normalize_category (category raw) ≠ []) as Hne.
  { intros E. rewrite E in Hrange.
    apply list_elem_of_In in Hrange. cbn in Hrange.
    repeat (destruct Hrange as [Hrange|Hrange]; [discriminate|]). done. }
  by rewrite or_unknown_id.
Qed.

End CleanedItems.

(** X19.  Enriching what step 2 wrote.  On the records of [main] of step
    2 the category default of step 3 never applies: the category put into
    the prompt and into the final record is the normalized one, one of the
    six canonical identifiers or "other".  The description put into the
    prompt is the cleaned description when there is one; when the cleaning
    discarded the text as too short, the raw text is used as it is; so
    whenever the raw description is non-empty the description sent has its
    non-whitespace characters, and it is "unknown" only when there is no
    raw description. *)
Theorem cleaned_then_enriched `{UnicodeDB}
    (raw_items : list RawItem) (cleaned_items : list CleanItem)
    (item : CleanItem) :
  Normalizer.main raw_items = Return cleaned_items →
  item ∈ cleaned_items →
  Enricher.category_of item = category_normalized item
  ∧ Enricher.category_of item ∈ canonical_identifiers ++ [py "other"]
  ∧ (∀ d, description_clean item = Some d → Enricher.description_of item = d)
  ∧ (description_clean item = None → truthy (c_description_raw item) = true →
     Enricher.description_of item = or_empty (c_description_raw item))
  ∧ (truthy (c_description_raw item) = true →
     filter not_whitespace (Enricher.description_of item)
     = filter not_whitespace (or_empty (c_description_raw item)))
  ∧ (truthy (c_description_raw item) = false →
     Enricher.description_of item = py "unknown").
Proof.
  intros Hmain Hitem.
  destruct (clean_loop_kept raw_items ∅ []) as (kept & Hrun & _).
  unfold Normalizer.main in Hmain. rewrite Hrun in Hmain.
  injection Hmain as <-. cbn [app] in Hitem.
  apply list_elem_of_fmap in Hitem as (raw & -> & _).
  destruct (category_of_clean_form raw) as [Hcat Hrange].
  destruct (description_of_clean_form raw) as (Hchars & Hnone & Hclean & Hraw).
  split_and!; try done.
Qed.

Lemma cleaned_then_enriched_witness :
  let raw := {| source_url := None; item_title := Some (py "Chair");
                category := Some (py "Furniture");
                description_raw := Some (py "An  oak chair");
                images := []; listed_price := None; currency := None;
                seller_location := None |} in
  @Normalizer.main latin_db [raw] = Return [@clean_form latin_db raw]
  ∧ description_clean (@clean_form latin_db raw) = None
  ∧ Enricher.description_of (@clean_form latin_db raw) = py "An  oak chair"
  ∧ Enricher.category_of (@clean_form latin_db raw) = py "furniture".
Proof.
  intros raw.
  assert (@Normalizer.main latin_db [raw] = Return [@clean_form latin_db raw])
    as Hmain by reflexivity.
  assert (@clean_form latin_db raw ∈ [@clean_form latin_db raw]) as Hitem
    by (apply elem_of_cons; by left).
  destruct (@cleaned_then_enriched latin_db [raw] [@clean_form latin_db raw]
              (@clean_form latin_db raw) Hmain Hitem)
    as (Hcat & _ & _ & Hraw & _).
  split; [exact Hmain|]. split; [reflexivity|].
  split; [exact (Hraw eq_refl eq_refl)|]. rewrite Hcat. reflexivity.
Defined.
